(** * Ore_music: the X-ray diffraction sonifier of [Ore_Muisc/Process.py]

    A shallow embedding of [XRaySonifier] and of the library calls it makes,
    followed by the properties of the design specification that were checked
    against it.

    Numbers.  The program computes with IEEE binary64 values.  Every finite
    binary64 value is a rational, and comparison, negation, [abs], [min],
    [max] and clipping are exact on them, so finite values are modelled by
    [Q] and the arithmetic on them is taken unrounded.  Where a numpy
    scalar operation can leave the finite values (a division by zero) the
    result is a [float64], which adds the two infinities and NaN; signed
    zeros are not distinguished.  Python [int]s are [Z].

    What the unrounded arithmetic does not show.  The program rounds after
    every operation, so a value of the model and the value of the program
    can differ in the last places.  This matters where a result is
    compared with a bound that it can touch, or truncated by [int] next to
    an integer: the filter of the program returns a level curve that is
    not zero with a ripple, [30 + 5 * x ** 0.5] can come out one higher
    just below an [x] at which it is an integer, [np.random.uniform] can
    return its upper bound, and [np.arange] can count one element less
    when [stop - start] is next to a multiple of the step.  Where a
    property below could hang on such a place, it is stated with bounds
    that are closed or have a margin, or for inputs on which the
    arithmetic of the program is exact. *)

From Stdlib Require Import Ascii String.
From Stdlib Require Import ZArith QArith Qround Qabs List Bool Lia Lqa Psatz.
From Stdlib Require Import Permutation Sorted.
Import ListNotations.

Local Open Scope Q_scope.

(** ** Python: exceptions, builtins *)

(** The exceptions that are spoken of.  The program and its libraries
    raise the first three; the last is the error of the specification,
    for which the program has no class. *)
Inductive exception : Type :=
| ValueError
| IndexError
| OverflowError
| InsufficientDataError.

Inductive result (A : Type) : Type :=
| Ok (a : A)
| Raise (e : exception).
Arguments Ok {A} a.
Arguments Raise {A} e.

Definition bind {A B : Type} (r : result A) (k : A -> result B) : result B :=
  match r with
  | Ok a => k a
  | Raise e => Raise e
  end.

Notation "x <- r ;; k" := (bind r (fun x => k))
  (at level 61, r at next level, right associativity).

Fixpoint mapM {A B : Type} (f : A -> result B) (l : list A) : result (list B) :=
  match l with
  | [] => Ok []
  | a :: l' => b <- f a ;; bs <- mapM f l' ;; Ok (b :: bs)
  end.

(** Comparisons of finite floats, as booleans. *)
Definition Qltb (x y : Q) : bool := negb (Qle_bool y x).
Definition Qleb (x y : Q) : bool := Qle_bool x y.
Definition Qeqb (x y : Q) : bool := Qeq_bool x y.

(** [int(x)] on a finite float: truncation toward zero. *)
Definition py_int (x : Q) : Z := Z.quot (Qnum x) (Z.pos (Qden x)).

(** [min(...)] and [max(...)] over a sequence: the first element is the
    candidate and a later one replaces it when strictly smaller (larger).
    On an empty sequence Python raises; both calls of the program sit in a
    loop body that only runs when the sequence has an element, and the
    default [0] below is never reached from there. *)
Definition py_min (l : list Q) : Q :=
  match l with
  | [] => 0
  | x :: xs => fold_left (fun m y => if Qltb y m then y else m) xs x
  end.

Definition py_max (l : list Q) : Q :=
  match l with
  | [] => 0
  | x :: xs => fold_left (fun m y => if Qltb m y then y else m) xs x
  end.

(** [sorted(l, key=key)]: a stable sort by [<] on the keys; elements whose
    keys compare equal keep the order they have in [l].  Here by insertion
    from the right: an element passes the ones with a strictly smaller key
    and stops in front of the first one whose key is not smaller. *)
Fixpoint insert_by {A : Type} (key : A -> Q) (a : A) (l : list A) : list A :=
  match l with
  | [] => [a]
  | b :: l' => if Qltb (key b) (key a) then b :: insert_by key a l' else a :: l
  end.

Definition sorted {A : Type} (key : A -> Q) (l : list A) : list A :=
  fold_right (insert_by key) [] l.

(** The order that [sorted] establishes. *)
Definition key_le {A : Type} (key : A -> Q) (x y : A) : Prop := key x <= key y.

(** ** IEEE values *)

(** A numpy float64 scalar: a finite value, an infinity, or NaN. *)
Inductive float64 : Type :=
| Finite (q : Q)
| PosInf
| NegInf
| NaN.

(** [a / b] on finite float64 scalars.  numpy does not raise on a zero
    divisor: it warns and returns an infinity, or NaN for [0 / 0]. *)
Definition true_divide (a b : Q) : float64 :=
  if Qeqb b 0 then
    if Qeqb a 0 then NaN else if Qltb 0 a then PosInf else NegInf
  else Finite (a / b).

Definition f64_add (x y : float64) : float64 :=
  match x, y with
  | NaN, _ | _, NaN => NaN
  | Finite a, Finite b => Finite (a + b)
  | PosInf, NegInf | NegInf, PosInf => NaN
  | PosInf, _ | _, PosInf => PosInf
  | NegInf, _ | _, NegInf => NegInf
  end.

(** The product of a finite [a] and [y]. *)
Definition f64_scale (a : Q) (y : float64) : float64 :=
  match y with
  | NaN => NaN
  | Finite b => Finite (a * b)
  | PosInf => if Qeqb a 0 then NaN else if Qltb 0 a then PosInf else NegInf
  | NegInf => if Qeqb a 0 then NaN else if Qltb 0 a then NegInf else PosInf
  end.

(** [min(max(x, lo), hi)] on finite values. *)
Definition Qclip (x lo hi : Q) : Q :=
  let m := if Qltb x lo then lo else x in
  if Qltb hi m then hi else m.

(** Sums are kept in lowest terms ([Qred] does not change the value). *)
Definition Qsum (l : list Q) : Q := fold_right (fun a s => Qred (a + s)) 0 l.

(** The finite values of an array, if all are. *)
Definition finite_values (l : list float64) : option (list Q) :=
  fold_right (fun x acc =>
                match x, acc with
                | Finite q, Some qs => Some (q :: qs)
                | _, _ => None
                end) (Some []) l.

(** ** numpy *)

(** Indexing an array: an index past the end raises [IndexError]. *)
Definition getitem (x : list Q) (idx : nat) : result Q :=
  match nth_error x idx with
  | Some v => Ok v
  | None => Raise IndexError
  end.

(** A two-dimensional array is the list of its rows.  [data.ndim] after
    the squeeze of [np.loadtxt]: a single row or a single column gives a
    one-dimensional array. *)
Definition ndim (data : list (list float64)) : nat :=
  match data with
  | [] => 1
  | [r] => if (length r =? 1)%nat then 0 else 1
  | r :: _ => if (length r =? 1)%nat then 1 else 2
  end.

(** [data.shape[1]] of a two-dimensional array. *)
Definition shape_1 (data : list (list float64)) : nat :=
  match data with
  | [] => 0
  | r :: _ => length r
  end.

(** [data[:, k]]. *)
Definition column (k : nat) (data : list (list float64)) : list float64 :=
  map (fun r => nth k r NaN) data.

Module np.

(** [np.clip(x, lo, hi)] is [minimum(maximum(x, lo), hi)]; NaN propagates. *)
Definition clip (x : float64) (lo hi : Q) : float64 :=
  match x with
  | NaN => NaN
  | Finite q => Finite (Qclip q lo hi)
  | PosInf => Finite hi
  | NegInf => Finite (if Qltb hi lo then hi else lo)
  end.

(** [np.clip] on integers. *)
Definition clip_int (x lo hi : Z) : Z := Z.min (Z.max x lo) hi.

(** [np.interp(x, xp, fp)] for a scalar [x] and two sample points, after
    numpy's [arr_interp]: the search returns the index [j] of the interval
    that holds [x]; right of the last point the result is [fp[-1]], left of
    the first it is [fp[0]], at [j = len - 1] or on a sample point it is
    [fp[j]], and the line through the two points otherwise. *)
Definition interp (x : Q) (xp fp : Q * Q) : Q :=
  let '(xp0, xp1) := xp in
  let '(fp0, fp1) := fp in
  if Qltb xp1 x then fp1
  else if Qltb x xp0 then fp0
  else if Qleb xp1 x then fp1
  else if Qeqb xp0 x then fp0
  else (fp1 - fp0) / (xp1 - xp0) * (x - xp0) + fp0.

(** [np.linspace(start, stop, num)]: [num] points, [i * step + start] with
    [step = (stop - start) / (num - 1)], the last one set to [stop]; a
    single point is [start]. *)
Definition linspace (start stop : Q) (num : nat) : list Q :=
  match num with
  | O => []
  | S O => [0 * (stop - start) + start]
  | S n =>
      let step := (stop - start) / inject_Z (Z.of_nat n) in
      map (fun i => inject_Z (Z.of_nat i) * step + start) (seq 0 n) ++ [stop]
  end.

(** [np.arange(start, stop, step)] for a positive [step]:
    [ceil((stop - start) / step)] values [start + i * step]. *)
Definition arange (start stop step : Q) : list Q :=
  map (fun i => start + inject_Z (Z.of_nat i) * step)
      (seq 0 (Z.to_nat (Qceiling ((stop - start) / step)))).

(** [np.var(x)], the square of [np.std(x)]: the mean of the squared
    distances to the mean. *)
Definition mean (x : list Q) : Q := Qsum x / inject_Z (Z.of_nat (length x)).

Definition var (x : list Q) : Q :=
  let m := mean x in mean (map (fun v => (v - m) * (v - m)) x).

(** [np.loadtxt(file, delimiter=',')].  The file is taken as its rows of
    parsed cells; text that is not a number raises [ValueError] in the
    library like rows of different lengths do here.  ["nan"] and ["inf"]
    are numbers to the parser. *)
Definition loadtxt (rows : list (list float64)) : result (list (list float64)) :=
  match rows with
  | [] => Ok []
  | r :: rs =>
      if forallb (fun r' => (length r' =? length r)%nat) rs then Ok rows
      else Raise ValueError
  end.

(** [np.random]: the generator shared by the whole process.

    [np.random.uniform], [np.random.choice] and [np.random.randint] draw
    from one global Mersenne Twister.  Its state stands here for the
    sequence of raw draws it still has to give.  How the library turns
    raw words into variates is not reproduced: a variate takes the next
    draw and reduces it to the range that the library documents, which is
    half-open for [uniform] and excludes [high] for [randint]. *)
Module random.

Definition RandomState : Type := nat -> N.

Definition draw (g : RandomState) : N * RandomState :=
  (g 0%nat, fun n => g (S n)).

Definition random_sample (g : RandomState) : Q * RandomState :=
  let '(r, g') := draw g in
  (inject_Z (Z.of_N (r mod 2 ^ 53)) / inject_Z (2 ^ 53), g').

Definition uniform (low high : Q) (g : RandomState) : Q * RandomState :=
  let '(u, g') := random_sample g in (low + (high - low) * u, g').

Definition randint (low high : Z) (g : RandomState) : Z * RandomState :=
  let '(r, g') := draw g in ((low + Z.of_N r mod (high - low))%Z, g').

Definition choice (a : list Z) (g : RandomState) : Z * RandomState :=
  let '(r, g') := draw g in (nth (N.to_nat r mod length a) a 0%Z, g').

End random.

End np.

(** ** midiutil: [MIDIFile]

    The object collects what the program adds to it; it is modelled by the
    list of these calls, in the order they are made. *)
Inductive midi_call : Type :=
| addProgramChange (track channel : Z) (time : Q) (program : Z)
| addTempo (track : Z) (time : Q) (tempo : Z)
| addNote (track channel pitch : Z) (time : Q) (duration : float64) (volume : Z)
| addControllerEvent (track channel : Z) (time : Q) (controller_number parameter : Z).

Definition MIDIFile : Type := list midi_call.

(** [MIDIFile.addNote] turns [time] and [duration] into ticks before it
    records the note, with [int(x * 960)], and [int] raises on a value
    that is not finite: [ValueError] on NaN, [OverflowError] on an
    infinity. *)
Definition time_to_ticks (x : float64) : result Z :=
  match x with
  | Finite q => Ok (py_int (q * 960))
  | NaN => Raise ValueError
  | PosInf | NegInf => Raise OverflowError
  end.

Definition MIDIFile_addNote
  (midi : MIDIFile) (track channel pitch : Z) (time : Q) (duration : float64) (volume : Z)
  : result MIDIFile :=
  _ <- time_to_ticks (Finite time) ;;
  _ <- time_to_ticks duration ;;
  Ok (midi ++ [addNote track channel pitch time duration volume]).

(** ** scipy.signal *)

(** *** [savgol_filter(x, window_length=11, polyorder=3)], mode ['interp'] *)

Definition dot (c w : list Q) : Q :=
  Qsum (map (fun cw => fst cw * snd cw) (combine c w)).

(** [savgol_coeffs(11, 3)]. *)
Definition savgol_coeffs : list Q :=
  map (fun k => inject_Z k / 429) [-36; 9; 44; 69; 84; 89; 84; 69; 44; 9; -36]%Z.

(** The cubic fitted by least squares to the eleven values [w] at the
    positions [0 .. 10], evaluated at position [t]
    ([np.polyval(np.polyfit(np.arange(11), w, 3), t)]).  The least-squares
    cubic is the orthogonal projection of [w] on the cubics; it is computed
    on the basis [1, u, u^2 - 10, u^3 - 89/5 u] of polynomials in
    [u = t - 5] that are orthogonal over the eleven positions. *)
Definition gram (k : nat) (u : Q) : Q :=
  match k with
  | 0%nat => 1
  | 1%nat => u
  | 2%nat => u * u - 10
  | _ => u * u * u - (89 # 5) * u
  end.

Definition positions : list Q :=
  map (fun j => inject_Z (Z.of_nat j) - 5) (seq 0 11).

Definition polyfit_eval (w : list Q) (t : nat) : Q :=
  Qsum (map (fun k =>
               let g := map (gram k) positions in
               dot g w / dot g g * gram k (inject_Z (Z.of_nat t) - 5))
            (seq 0 4)).

Definition window (x : list Q) (start : nat) : list Q := firstn 11 (skipn start x).

(** The filter: a window longer than the data raises [ValueError]; the
    points that have five neighbours on each side are the correlation with
    the coefficients, and the first and the last five points are read off
    the cubic fitted to the first and to the last eleven values. *)
Definition savgol_filter (x : list Q) : result (list Q) :=
  let n := length x in
  if (n <? 11)%nat then Raise ValueError
  else
    Ok (map (polyfit_eval (window x 0)) (seq 0 5)
        ++ map (fun i => dot savgol_coeffs (window x i)) (seq 0 (n - 10))
        ++ map (polyfit_eval (window x (n - 11))) (seq 6 5)).

(** *** [find_peaks(x, prominence=...)] *)

(** [while i_ahead < i_max and x[i_ahead] == x[i]: i_ahead += 1] *)
Fixpoint skip_plateau (x : list Q) (v : Q) (i_ahead i_max fuel : nat) : nat :=
  match fuel with
  | O => i_ahead
  | S fuel' =>
      if (i_ahead <? i_max)%nat && Qeqb (nth i_ahead x 0) v
      then skip_plateau x v (S i_ahead) i_max fuel'
      else i_ahead
  end.

(** The loop of [_local_maxima_1d]: with the previous sample smaller, the
    next sample that differs is sought; if it is smaller too, the middle of
    the plateau [i .. i_ahead - 1] is a maximum and the scan resumes behind
    it.  [i] grows in every round, so a [fuel] of [i_max - i] rounds is
    enough. *)
Fixpoint local_maxima_loop (x : list Q) (i i_max fuel : nat) : list nat :=
  match fuel with
  | O => []
  | S fuel' =>
      if (i <? i_max)%nat then
        if Qltb (nth (i - 1) x 0) (nth i x 0) then
          let i_ahead := skip_plateau x (nth i x 0) (i + 1) i_max (length x) in
          if Qltb (nth i_ahead x 0) (nth i x 0) then
            ((i + (i_ahead - 1)) / 2)%nat
              :: local_maxima_loop x (i_ahead + 1) i_max fuel'
          else local_maxima_loop x (i + 1) i_max fuel'
        else local_maxima_loop x (i + 1) i_max fuel'
      else []
  end.

Definition _local_maxima_1d (x : list Q) : list nat :=
  local_maxima_loop x 1 (length x - 1) (length x).

(** One side of [_peak_prominences]: walking away from the peak while the
    samples do not exceed it, the smallest sample met. *)
Fixpoint base_min (v m : Q) (side : list Q) : Q :=
  match side with
  | [] => m
  | y :: side' =>
      if Qleb y v then base_min v (if Qltb y m then y else m) side' else m
  end.

Definition peak_prominence (x : list Q) (peak : nat) : Q :=
  let v := nth peak x 0 in
  let left_min := base_min v v (rev (firstn (S peak) x)) in
  let right_min := base_min v v (skipn peak x) in
  v - (if Qltb left_min right_min then right_min else left_min).

(** The program passes [prominence = np.std(smoothed) * 0.5], the square
    root of a rational.  A prominence is never negative, so the test
    [pmin <= prominence] of [_select_by_property] is decided on the
    squares, and the argument is the square of the threshold. *)
Definition find_peaks (x : list Q) (prominence_squared : Q) : list nat :=
  filter (fun peak =>
            let p := peak_prominence x peak in Qleb prominence_squared (p * p))
         (_local_maxima_1d x).

(** ** CPython: [set] of small non-negative [int]s

    [hash(i) = i].  The table has a power of two of slots, eight at first.
    A key is looked for from slot [hash & mask]: that slot and, when they
    exist, the nine behind it, then from [(5 * i + 1 + perturb) & mask] with
    [perturb] shifted right by five bits each time.  After an insertion
    that leaves the table three fifths full, the entries are moved, in slot
    order, to a table of the smallest power of two above four times their
    number.  Iteration goes through the slots. *)

Definition LINEAR_PROBES : nat := 9.
Definition PERTURB_SHIFT : nat := 5.
Definition PySet_MINSIZE : nat := 8.

Inductive slot_search : Type :=
| FoundUnused (slot : nat)
| FoundActive
| NotHere.

(** The [do ... while (probes--)] of [set_add_entry]. *)
Fixpoint linear_probe (table : list (option nat)) (key i count : nat) : slot_search :=
  match count with
  | O => NotHere
  | S count' =>
      match nth i table None with
      | None => FoundUnused i
      | Some k =>
          if (k =? key)%nat then FoundActive else linear_probe table key (S i) count'
      end
  end.

(** Its [while (1)].  The C loop has no bound: it ends because the table
    always has a free slot and the recurrence comes by every slot once
    [perturb] is used up.  Here the rounds are counted by [fuel];
    [set_insert_spec] shows that the fuel given by [set_insert] is enough. *)
Fixpoint probe (table : list (option nat)) (mask key i perturb fuel : nat) : slot_search :=
  match fuel with
  | O => NotHere
  | S fuel' =>
      let count := if (i + LINEAR_PROBES <=? mask)%nat then S LINEAR_PROBES else 1%nat in
      match linear_probe table key i count with
      | NotHere =>
          let perturb' := Nat.shiftr perturb PERTURB_SHIFT in
          probe table mask key (Nat.land (i * 5 + 1 + perturb') mask) perturb' fuel'
      | found => found
      end
  end.

Fixpoint set_nth {A : Type} (i : nat) (a : A) (l : list A) : list A :=
  match l, i with
  | [], _ => []
  | _ :: l', O => a :: l'
  | b :: l', S i' => b :: set_nth i' a l'
  end.

Definition set_insert (table : list (option nat)) (key : nat) : list (option nat) * bool :=
  let mask := (length table - 1)%nat in
  match probe table mask key (Nat.land key mask) key (length table + 13) with
  | FoundUnused slot => (set_nth slot (Some key) table, true)
  | _ => (table, false)
  end.

Definition set_iter (table : list (option nat)) : list nat :=
  flat_map (fun e => match e with Some k => [k] | None => [] end) table.

Fixpoint table_size (newsize minused fuel : nat) : nat :=
  match fuel with
  | O => newsize
  | S fuel' => if (newsize <=? minused)%nat then table_size (2 * newsize) minused fuel' else newsize
  end.

Definition set_table_resize (table : list (option nat)) (minused : nat) : list (option nat) :=
  let newsize := table_size PySet_MINSIZE minused (S minused) in
  fold_left (fun t k => fst (set_insert t k)) (set_iter table) (repeat None newsize).

(** [set_add_key]; without deletions [fill] = [used] = the number of keys. *)
Definition set_add_key (table : list (option nat)) (key : nat) : list (option nat) :=
  let '(table', added) := set_insert table key in
  if added then
    let used := length (set_iter table') in
    let mask := (length table' - 1)%nat in
    if (used * 5 <? mask * 3)%nat then table'
    else set_table_resize table' (if (50000 <? Z.of_nat used)%Z then used * 2 else used * 4)%nat
  else table'.

(** [set(l)], as the list of its elements in iteration order. *)
Definition set (l : list nat) : list nat :=
  set_iter (fold_left set_add_key l (repeat None PySet_MINSIZE)).

(** *** Notions for the adequacy of the [set] model

    Once [perturb] has been shifted down to zero the probe recurrence of
    [set_add_entry] is [i -> (5 i + 1) & mask]. *)
Definition lcg (mask i : nat) : nat := Nat.land (i * 5 + 1 + 0) mask.

(** [1 + 5 + ... + 5^(n-1)], the offset after [n] steps of [lcg]. *)
Fixpoint geometric (n : nat) : Z :=
  match n with
  | O => 0%Z
  | S n => (5 * geometric n + 1)%Z
  end.

(** A table with a power of two of slots, not all of them used. *)
Definition roomy (table : list (option nat)) : Prop :=
  exists k, (length table = 2 ^ k /\ length (set_iter table) < 2 ^ k)%nat.

(** A key whose hash is used up after thirteen shifts of [perturb], as
    every hash of 64 bits is. *)
Definition small_key (key : nat) : Prop :=
  Nat.shiftr key (PERTURB_SHIFT * 13) = 0%nat.

(** The state of a set between two additions: a power of two of slots,
    eight or more, filled to less than three fifths, with keys whose
    hashes are soon used up. *)
Definition loaded (table : list (option nat)) : Prop :=
  (exists k, (3 <= k /\ length table = 2 ^ k /\
              length (set_iter table) * 5 < (2 ^ k - 1) * 3)%nat) /\
  forall x, In (Some x) table -> small_key x.

(** Every key of the table is found by the search for it. *)
Definition reachable (table : list (option nat)) : Prop :=
  forall x, In (Some x) table ->
    probe table (length table - 1) x (Nat.land x (length table - 1)) x
      (length table + 13) = FoundActive.

(** The invariant of a table: its keys are found again and none is held
    twice. *)
Definition sound (table : list (option nat)) : Prop :=
  reachable table /\ NoDup (set_iter table).


(** ** The program *)

(** [class Config].  The fields for directories, plot style and fonts play
    no part below and are left out. *)
Record Config : Type := {
  max_duration : Q;
  base_bpm : Z;
  note_duration : Q;
  dynamic_range : Z * Z;
  instruments : list (string * Z);
  pitch_curve : Q -> Z
}.

(** [lambda x: int(30 + 5*(x**0.5))] for [x >= 0]:
    [floor (5 * sqrt x) = floor (sqrt (25 * x)) = isqrt (floor (25 * x))]. *)
Definition default_pitch_curve (x : Q) : Z :=
  30 + Z.sqrt (Qfloor (25 * x)).

Definition Config__init__ : Config := {|
  max_duration := 90;
  base_bpm := 80;
  note_duration := 2;
  dynamic_range := (60, 100)%Z;
  instruments := [("main", 87); ("ambient", 103); ("bass", 24); ("effect", 101)]%string%Z;
  pitch_curve := default_pitch_curve
|}.

(** The dictionaries built by [_extract_features] and [_generate_events]. *)
Record Feature : Type := {
  angle : Q;
  intensity : Q;
  deviation : Q;
  score : Q
}.

Record Event : Type := {
  time : Q;
  duration : float64;
  pitch : Z;
  velocity : Z
}.

(** [_load_data(file_path)]: any exception of the [try] block gives
    [(None, None)]. *)
Definition _load_data (rows : list (list float64)) : option (list float64 * list float64) :=
  match np.loadtxt rows with
  | Raise _ => None
  | Ok data =>
      if negb (ndim data =? 2)%nat || negb (shape_1 data =? 2)%nat then None
      else Some (column 0 data, column 1 data)
  end.

(** [_extract_features(angles, intensities)]: first the loop over
    [set(peaks.tolist() + valleys.tolist())], which leaves the features in
    the order the set is iterated in, then the sort. *)
Definition feature_at (angles smoothed : list Q) (idx : nat) : result Feature :=
  a <- getitem angles idx ;;
  s <- getitem smoothed idx ;;
  let dev := Qabs (a - 90) in
  let score := s * (1 + dev / 10) in
  Ok {| angle := a; intensity := s; deviation := dev; score := score |}.

Definition extrema (smoothed : list Q) : list nat :=
  let prominence_squared := np.var smoothed * ((1 # 2) * (1 # 2)) in
  let peaks := find_peaks smoothed prominence_squared in
  let valleys := find_peaks (map Qopp smoothed) prominence_squared in
  peaks ++ valleys.

Definition features_in_set_order (angles intensities : list Q) : result (list Feature) :=
  smoothed <- savgol_filter intensities ;;
  mapM (feature_at angles smoothed) (set (extrema smoothed)).

Definition _extract_features (angles intensities : list Q) : result (list Feature) :=
  features <- features_in_set_order angles intensities ;;
  Ok (sorted (fun x => - score x) features).

Section XRaySonifier.

Variable cfg : Config.

Definition dynamic_range_Q : Q * Q :=
  (inject_Z (fst (dynamic_range cfg)), inject_Z (snd (dynamic_range cfg))).

(** The body of the loop of [_generate_events]. *)
Definition event_of (features : list Feature) (t : Q) (f : Feature) : Event :=
  let raw_pitch := pitch_curve cfg (deviation f) in
  let pitch := np.clip_int raw_pitch 0 127 in
  let raw_vol :=
    py_int (np.interp (intensity f)
              (py_min (map intensity features), py_max (map intensity features))
              dynamic_range_Q) in
  let volume := np.clip_int raw_vol 0 127 in
  {| time := t;
     duration :=
       np.clip
         (f64_scale (note_duration cfg)
            (f64_add (Finite (1#2))
               (true_divide (score f) (py_max (map score features)))))
         (1#2)
         (max_duration cfg);
     pitch := pitch;
     velocity := volume |}.

Definition _generate_events (features : list Feature) : list Event :=
  let time_points := np.linspace (1#10) (max_duration cfg) (length features) in
  map (fun tf => event_of features (fst tf) (snd tf)) (combine time_points features).

(** The grace notes of [_add_ambient_effects]: [count] rounds of its
    first loop. *)
Fixpoint grace_notes (count : nat) (duration : Q) (midi : MIDIFile) (g : np.random.RandomState)
  : MIDIFile * np.random.RandomState :=
  match count with
  | O => (midi, g)
  | S count' =>
      let '(start_time, g1) := np.random.uniform (1 # 2) (duration - 2) g in
      let '(p, g2) := np.random.choice [84; 86; 89]%Z g1 in
      let '(v, g3) := np.random.randint 30 50 g2 in
      grace_notes count' duration
        (midi ++ [addNote 3 0 p start_time (Finite (15 # 100)) (np.clip_int v 0 127)])
        g3
  end.

Definition pulses (duration : Q) : list midi_call :=
  map (fun t => addNote 2 0 36 t (Finite 3) (np.clip_int 35 0 127))
      (np.arange (2 # 10) duration 4).

Definition _add_ambient_effects (midi : MIDIFile) (duration : Q) (g : np.random.RandomState)
  : MIDIFile * np.random.RandomState :=
  let midi := midi ++ [addControllerEvent 2 0 0 91 60] in
  let '(midi, g) :=
    grace_notes (Z.to_nat (py_int (duration / 3))) duration midi g in
  (midi ++ pulses duration, g).

(** The melody of [create_midi]: its loop over the events, which ends at
    the first event that [addNote] does not take. *)
Fixpoint melody_notes (events : list Event) (midi : MIDIFile) : MIDIFile * result unit :=
  match events with
  | [] => (midi, Ok tt)
  | evt :: events' =>
      match MIDIFile_addNote midi 0 0 (pitch evt) (time evt) (duration evt) (velocity evt) with
      | Ok midi' => melody_notes events' midi'
      | Raise e => (midi, Raise e)
      end
  end.

(** [create_midi(events, duration, filename)], up to the file it writes:
    the calls it has made on the MIDI object, and the generator as it
    leaves it or the exception that ends it.  The notes of the ambient
    layers have finite times and durations, so only the melody can be
    refused. *)
Definition create_midi (events : list Event) (duration' : Q) (g : np.random.RandomState)
  : MIDIFile * result np.random.RandomState :=
  let midi : MIDIFile :=
    flat_map (fun ip => [addProgramChange (Z.of_nat (fst ip)) 0 0 (snd (snd ip));
                         addTempo (Z.of_nat (fst ip)) 0 (base_bpm cfg)])
             (combine (seq 0 (length (instruments cfg))) (instruments cfg)) in
  match melody_notes events midi with
  | (midi, Raise e) => (midi, Raise e)
  | (midi, Ok _) =>
      let '(midi, g') := _add_ambient_effects midi duration' g in
      (midi, Ok g')
  end.

(** Where [process_file] gets to. *)
Inductive progress : Type :=
| LoadFailed
    (** [angles is None]: returns [False] *)
| ExtractingNonFinite (angles intensities : list float64)
    (** [_extract_features] is entered with a value that is not finite;
        what the filter and the peak search make of it, an exception
        included, is not modelled *)
| NoFeatures
    (** [not features]: returns [False] *)
| Written (features : list Feature) (events : list Event) (midi : MIDIFile)
    (g : np.random.RandomState)
    (** [create_midi] has made the calls [midi] and left the generator in
        [g]; the MIDI file and the report are written next, which is not
        modelled *).

Definition process_file (rows : list (list float64)) (g : np.random.RandomState)
  : result progress :=
  match _load_data rows with
  | None => Ok LoadFailed
  | Some (angles, intensities) =>
      match finite_values angles, finite_values intensities with
      | Some angles', Some intensities' =>
          features <- _extract_features angles' intensities' ;;
          match features with
          | [] => Ok NoFeatures
          | _ =>
              let events := _generate_events (firstn 50 features) in
              let '(midi, outcome) := create_midi events (max_duration cfg) g in
              g' <- outcome ;;
              Ok (Written features events midi g')
          end
      | _, _ => Ok (ExtractingNonFinite angles intensities)
      end
  end.

End XRaySonifier.


(** ** Notions used in the statements below *)

(** The middle of a range of velocities. *)
Definition midpoint (r : Z * Z) : Z := ((fst r + snd r) / 2)%Z.

(** What a call of the first loop of [_add_ambient_effects] looks like: a
    note of 0.15 s on track 3, a pitch among 84, 86 and 89, a velocity
    from 30 to 49, and an onset [0.5 + (duration - 2 - 0.5) * u] for a
    [u] with [0 <= u < 1]. *)
Definition grace_note (duration : Q) (c : midi_call) : Prop :=
  exists p t v u,
    c = addNote 3 0 p t (Finite (15 # 100)) v /\
    In p [84; 86; 89]%Z /\ (30 <= v <= 49)%Z /\
    0 <= u < 1 /\ t = (1 # 2) + (duration - 2 - (1 # 2)) * u.

(** And one of its second loop: a note of 3 s on track 2, pitch 36,
    velocity 35, at [0.2 + 4 * k] before [duration]. *)
Definition pulse_note (duration : Q) (c : midi_call) : Prop :=
  exists t k,
    c = addNote 2 0 36 t (Finite 3) 35 /\
    t = (2 # 10) + inject_Z (Z.of_nat k) * 4 /\ t < duration.

(** The fit with sums that are not brought to lowest terms, and the
    [m]-th moment of the residual of the fit, for the check that
    [polyfit_eval] is the least-squares cubic. *)
Definition polyfit_plain (w : list Q) (t : nat) : Q :=
  fold_right Qplus 0
    (map (fun k =>
            fold_right Qplus 0
              (map (fun cw => fst cw * snd cw) (combine (map (gram k) positions) w))
            / fold_right Qplus 0
                (map (fun cw => fst cw * snd cw)
                     (combine (map (gram k) positions) (map (gram k) positions)))
            * gram k (inject_Z (Z.of_nat t) - 5))
         (seq 0 4)).

Definition residual_moment (w : list Q) (m : nat) : Q :=
  Qsum (map (fun j => (nth j w 0 - polyfit_eval w j) * inject_Z (Z.of_nat j) ^ Z.of_nat m)
            (seq 0 11)).

(** ** Sample inputs *)

Definition feature (a i d s : Q) : Feature :=
  {| angle := a; intensity := i; deviation := d; score := s |}.

(** The rows of a file that holds the given two columns. *)
Definition rows_of (angles intensities : list Q) : list (list float64) :=
  map (fun ai => [Finite (fst ai); Finite (snd ai)]) (combine angles intensities).

(** [n] samples that are [0] except for the value [v] at the places [at_]. *)
Definition spikes (n : nat) (at_ : list nat) (v : Q) : list Q :=
  map (fun i => if existsb (Nat.eqb i) at_ then v else 0) (seq 0 n).

(** Angles [0, 2, 4, ...]. *)
Definition even_angles (n : nat) : list Q :=
  map (fun i => inject_Z (Z.of_nat i) * 2) (seq 0 n).

(** A generator state: the raw draws [3, 10, 17, ...]. *)
Definition some_state : np.random.RandomState := fun n => N.of_nat (7 * n + 3).

(** Thirty samples, [1] at both ends and [0] between. *)
Definition basin_rows : list (list float64) :=
  rows_of (even_angles 30) (spikes 30 [0; 29]%nat 1).

(** Sixty-eight samples, [1] at the places 11, 29 and 51 and [0] elsewhere. *)
Definition three_spikes : list Q := spikes 68 [11; 29; 51]%nat 1.

(** Twenty-one samples on an arch: the parabola that is 600 at the angles
    0 and 40 and has its top, 1000, at the angle 20. *)
Definition arch_rows : list (list float64) :=
  rows_of (even_angles 21) (map (fun a => 1000 - (a - 20) * (a - 20)) (even_angles 21)).

(** The events that [process_file] hands to [create_midi]. *)
Definition events_of_file (cfg : Config) (rows : list (list float64)) : list Event :=
  match _load_data rows with
  | Some (angles, intensities) =>
      match finite_values angles, finite_values intensities with
      | Some angles', Some intensities' =>
          match _extract_features angles' intensities' with
          | Ok features => _generate_events cfg (firstn 50 features)
          | Raise _ => []
          end
      | _, _ => []
      end
  | None => []
  end.

(** ** [str] and [os.path]

    A Python [str] is the list of its characters.  [os.path] is taken to
    be [posixpath], the module of a POSIX system, whose separator is
    ["/"]. *)
Definition str (s : string) : list ascii := list_ascii_of_string s.

(** [s.rfind(c)] for a character [c]: the last index of [c], or [-1]. *)
Fixpoint rfind (s : list ascii) (c : ascii) : Z :=
  match s with
  | [] => (-1)%Z
  | a :: s' =>
      let i := rfind s' c in
      if (0 <=? i)%Z then (i + 1)%Z else if Ascii.eqb a c then 0%Z else (-1)%Z
  end.

(** [s.startswith(prefix)] and [s.endswith(suffix)]. *)
Fixpoint startswith (s prefix : list ascii) {struct prefix} : bool :=
  match prefix, s with
  | [], _ => true
  | c :: prefix', a :: s' => Ascii.eqb a c && startswith s' prefix'
  | _ :: _, [] => false
  end.

Definition endswith (s suffix : list ascii) : bool := startswith (rev s) (rev suffix).

Module os_path.

(** [os.path.join(a, *p)]: a part that starts with the separator replaces
    what came before it; otherwise it is appended, after a separator
    unless the path is empty or ends in one. *)
Definition join (a : list ascii) (p : list (list ascii)) : list ascii :=
  fold_left (fun path b =>
               if startswith b (str "/") then b
               else if match path with [] => true | _ => false end || endswith path (str "/")
                    then path ++ b
                    else path ++ str "/" ++ b)
            p a.

(** [os.path.basename(p)]: [p[p.rfind('/') + 1:]]. *)
Definition basename (p : list ascii) : list ascii :=
  skipn (Z.to_nat (rfind p "/" + 1)) p.

(** [os.path.splitext(p)], after [genericpath._splitext]: the extension
    starts at the last dot, if that dot comes after the last separator
    and after a character of the file name that is not a dot (the loop of
    the library runs over [p[sepIndex + 1 : dotIndex]] and returns the
    split at the first such character). *)
Definition splitext (p : list ascii) : list ascii * list ascii :=
  let sepIndex := rfind p "/" in
  let dotIndex := rfind p "." in
  if (sepIndex <? dotIndex)%Z then
    let leading :=
      firstn (Z.to_nat (dotIndex - (sepIndex + 1))) (skipn (Z.to_nat (sepIndex + 1)) p) in
    if existsb (fun c => negb (Ascii.eqb c ".")) leading
    then (firstn (Z.to_nat dotIndex) p, skipn (Z.to_nat dotIndex) p)
    else (p, [])
  else (p, []).

End os_path.

(** ** The files of the program *)

(** [_setup_directories]: the directories handed to [os.makedirs]. *)
Definition _setup_directories (output_dir : list ascii) : list (list ascii) :=
  [os_path.join output_dir [str "Audio"]; os_path.join output_dir [str "Report"]].

(** [process_files]: a name of the input directory is processed when it
    ends in [".txt"], under the path [os.path.join(input_dir, filename)]. *)
Definition data_file (input_dir filename : list ascii) : option (list ascii) :=
  if endswith filename (str ".txt") then Some (os_path.join input_dir [filename]) else None.

(** [process_file]: the name under which the outputs are filed,
    [os.path.splitext(os.path.basename(file_path))[0]]. *)
Definition output_name (file_path : list ascii) : list ascii :=
  fst (os_path.splitext (os_path.basename file_path)).

(** [create_midi]: [os.path.join(output_dir, "Audio", f"{filename}.mid")]. *)
Definition midi_path (output_dir filename : list ascii) : list ascii :=
  os_path.join output_dir [str "Audio"; filename ++ str ".mid"].

(** [generate_report]: [os.path.join(output_dir, "Report", f"{filename}.png")]. *)
Definition report_path (output_dir filename : list ascii) : list ascii :=
  os_path.join output_dir [str "Report"; filename ++ str ".png"].

(** ** Notions used in the further properties *)

(** [generate_report]: the list [pitches] of which the histogram of the
    report is drawn, one entry for every feature. *)
Definition report_pitches (cfg : Config) (features : list Feature) : list Z :=
  map (fun f => pitch_curve cfg (deviation f)) features.

(** * Properties *)

(** ** Comparisons *)

Lemma Qltb_lt (x y : Q) : Qltb x y = true <-> x < y.
Proof.
  unfold Qltb. rewrite negb_true_iff, <- not_true_iff_false, Qle_bool_iff.
  split; [apply Qnot_le_lt | apply Qlt_not_le].
Qed.

Lemma Qltb_ge (x y : Q) : Qltb x y = false <-> y <= x.
Proof.
  unfold Qltb. rewrite negb_false_iff. apply Qle_bool_iff.
Qed.

Lemma Qleb_le (x y : Q) : Qleb x y = true <-> x <= y.
Proof. apply Qle_bool_iff. Qed.

Lemma Qleb_gt (x y : Q) : Qleb x y = false <-> y < x.
Proof.
  unfold Qleb. rewrite <- not_true_iff_false, Qle_bool_iff.
  split; [apply Qnot_le_lt | apply Qlt_not_le].
Qed.

Lemma Qeqb_eq (x y : Q) : Qeqb x y = true <-> x == y.
Proof. apply Qeq_bool_iff. Qed.

Lemma Qeqb_neq (x y : Q) : Qeqb x y = false <-> ~ x == y.
Proof.
  unfold Qeqb. rewrite <- not_true_iff_false, Qeq_bool_iff. reflexivity.
Qed.

(** Case analysis on a comparison of the goal whose operands hold no
    further comparison. *)
Ltac no_comparison t :=
  lazymatch t with
  | context [Qltb _ _] => fail
  | context [Qleb _ _] => fail
  | context [Qeqb _ _] => fail
  | _ => idtac
  end.

Ltac qcase :=
  match goal with
  | |- context [Qltb ?x ?y] =>
      no_comparison x; no_comparison y;
      let E := fresh "E" in
      destruct (Qltb x y) eqn:E; [apply Qltb_lt in E | apply Qltb_ge in E]
  | |- context [Qleb ?x ?y] =>
      no_comparison x; no_comparison y;
      let E := fresh "E" in
      destruct (Qleb x y) eqn:E; [apply Qleb_le in E | apply Qleb_gt in E]
  | |- context [Qeqb ?x ?y] =>
      no_comparison x; no_comparison y;
      let E := fresh "E" in
      destruct (Qeqb x y) eqn:E; [apply Qeqb_eq in E | apply Qeqb_neq in E]
  end.

(** ** [int], [min], [max], [np.clip] *)

Lemma py_int_inject_Z (z : Z) : py_int (inject_Z z) = z.
Proof. unfold py_int. simpl. apply Z.quot_1_r. Qed.

Lemma py_int_bounds (lo hi : Z) (q : Q) :
  inject_Z lo <= q <= inject_Z hi -> (lo <= py_int q <= hi)%Z.
Proof.
  destruct q as [n d]. unfold Qle, py_int. simpl. intros [Hlo Hhi].
  rewrite Z.mul_1_r in Hlo, Hhi.
  split.
  - rewrite <- (Z.quot_mul lo (Z.pos d)) by discriminate.
    apply Z.quot_le_mono; [reflexivity | exact Hlo].
  - rewrite <- (Z.quot_mul hi (Z.pos d)) by discriminate.
    apply Z.quot_le_mono; [reflexivity | exact Hhi].
Qed.

Lemma np_clip_int_range (x lo hi : Z) :
  (lo <= hi)%Z -> (lo <= np.clip_int x lo hi <= hi)%Z.
Proof. unfold np.clip_int. lia. Qed.

Lemma np_clip_int_within (x a b lo hi : Z) :
  (a <= x <= b)%Z -> (a <= hi)%Z -> (lo <= b)%Z -> (lo <= hi)%Z ->
  (a <= np.clip_int x lo hi <= b)%Z.
Proof. unfold np.clip_int. lia. Qed.

Lemma Qclip_range (x lo hi : Q) : lo <= hi -> lo <= Qclip x lo hi <= hi.
Proof.
  intros H. unfold Qclip. repeat qcase; split; lra.
Qed.

Lemma fold_pick_In (pick : Q -> Q -> bool) (xs : list Q) (x : Q) :
  In (fold_left (fun m y => if pick m y then y else m) xs x) (x :: xs).
Proof.
  revert x. induction xs as [| y xs IH]; intros x; simpl.
  - left; reflexivity.
  - destruct (IH (if pick x y then y else x)) as [H | H].
    + destruct (pick x y); [right; left | left]; exact H.
    + right; right; exact H.
Qed.

Lemma py_min_In (l : list Q) : l <> [] -> In (py_min l) l.
Proof.
  destruct l as [| x xs]; [congruence | intros _].
  unfold py_min. apply (fold_pick_In (fun m y => Qltb y m)).
Qed.

Lemma py_max_In (l : list Q) : l <> [] -> In (py_max l) l.
Proof.
  destruct l as [| x xs]; [congruence | intros _].
  unfold py_max. apply (fold_pick_In (fun m y => Qltb m y)).
Qed.

(** ** [np.interp] *)

(** Whatever [x] and the sample points are, the value lies between the
    two given values. *)
Lemma np_interp_range (x xp0 xp1 lo hi : Q) :
  lo <= hi -> lo <= np.interp x (xp0, xp1) (lo, hi) <= hi.
Proof.
  intros H. unfold np.interp.
  qcase; [lra |]. qcase; [lra |]. qcase; [lra |]. qcase; [lra |].
  assert (Hx : xp0 < x).
  { apply Qnot_le_lt. intros Hc. apply E2. apply Qle_antisym; assumption. }
  assert (Hd : 0 < xp1 - xp0) by lra.
  set (t := (x - xp0) / (xp1 - xp0)).
  assert (Ht0 : 0 <= t).
  { unfold t. apply Qle_shift_div_l; [exact Hd | lra]. }
  assert (Ht1 : t <= 1).
  { unfold t. apply Qle_shift_div_r; [exact Hd | lra]. }
  assert (Heq : (hi - lo) / (xp1 - xp0) * (x - xp0) + lo == (hi - lo) * t + lo).
  { unfold t. field. lra. }
  rewrite Heq. split; nra.
Qed.

Lemma np_interp_left (x xp0 xp1 fp0 fp1 : Q) :
  xp0 <= xp1 -> x < xp0 -> np.interp x (xp0, xp1) (fp0, fp1) = fp0.
Proof.
  intros H Hx. unfold np.interp.
  qcase; [lra |]. qcase; [reflexivity | lra].
Qed.

Lemma np_interp_right (x xp0 xp1 fp0 fp1 : Q) :
  xp1 < x -> np.interp x (xp0, xp1) (fp0, fp1) = fp1.
Proof.
  intros Hx. unfold np.interp. qcase; [reflexivity | lra].
Qed.

(** When the two sample points coincide with [x], the search ends on the
    last of them. *)
Lemma np_interp_degenerate (x xp0 xp1 fp0 fp1 : Q) :
  xp0 == x -> xp1 == x -> np.interp x (xp0, xp1) (fp0, fp1) = fp1.
Proof.
  intros H0 H1. unfold np.interp.
  qcase; [lra |]. qcase; [lra |]. qcase; [reflexivity | lra].
Qed.

(** ** [np.linspace] *)

Lemma np_linspace_length (start stop : Q) (num : nat) :
  length (np.linspace start stop num) = num.
Proof.
  destruct num as [| [| n]]; try reflexivity.
  unfold np.linspace. rewrite length_app, length_map, length_seq. simpl. lia.
Qed.

(** ** [_generate_events] *)

Lemma nth_error_combine_Some {A B : Type} (l : list A) (l' : list B) (i : nat) (a : A) (b : B) :
  nth_error l i = Some a -> nth_error l' i = Some b ->
  nth_error (combine l l') i = Some (a, b).
Proof.
  revert l' i. induction l as [| x l IH]; intros [| y l'] [| i]; simpl; try discriminate.
  - intros [= ->] [= ->]. reflexivity.
  - apply IH.
Qed.

Lemma generate_events_length (cfg : Config) (features : list Feature) :
  length (_generate_events cfg features) = length features.
Proof.
  unfold _generate_events.
  rewrite length_map, length_combine, np_linspace_length. apply Nat.min_id.
Qed.

Lemma generate_events_nth (cfg : Config) (features : list Feature) (i : nat) (f : Feature) :
  nth_error features i = Some f ->
  exists t,
    nth_error (np.linspace (1 # 10) (max_duration cfg) (length features)) i = Some t /\
    nth_error (_generate_events cfg features) i = Some (event_of cfg features t f).
Proof.
  intros Hf.
  assert (Hi : (i < length features)%nat) by (apply nth_error_Some; congruence).
  destruct (nth_error (np.linspace (1 # 10) (max_duration cfg) (length features)) i)
    as [t |] eqn:Ht.
  - exists t. split; [reflexivity |].
    unfold _generate_events.
    rewrite nth_error_map, (nth_error_combine_Some _ _ _ _ _ Ht Hf). reflexivity.
  - apply nth_error_None in Ht. rewrite np_linspace_length in Ht. lia.
Qed.

Lemma generate_events_In (cfg : Config) (features : list Feature) (e : Event) :
  In e (_generate_events cfg features) ->
  exists t f, In f features /\ e = event_of cfg features t f.
Proof.
  unfold _generate_events. intros H.
  apply in_map_iff in H. destruct H as [[t f] [He Hin]].
  exists t, f. split; [| symmetry; exact He].
  apply in_combine_r in Hin. exact Hin.
Qed.

Lemma np_linspace_nth (start stop : Q) (num i : nat) (t : Q) :
  nth_error (np.linspace start stop num) i = Some t ->
  (num = 1%nat -> t == start) /\
  ((1 < num)%nat ->
   t == start + inject_Z (Z.of_nat i) * ((stop - start) / inject_Z (Z.of_nat (num - 1)))).
Proof.
  intros Ht.
  assert (Hi : (i < num)%nat).
  { rewrite <- (np_linspace_length start stop num). apply nth_error_Some. congruence. }
  destruct num as [| [| n]]; [lia | |].
  - split; [intros _ | lia].
    assert (i = 0%nat) by lia. subst i.
    unfold np.linspace in Ht. cbn [nth_error] in Ht. injection Ht as <-. lra.
  - split; [lia | intros _].
    replace (S (S n) - 1)%nat with (S n) by lia.
    unfold np.linspace in Ht.
    assert (Hn : ~ inject_Z (Z.of_nat (S n)) == 0).
    { intros Hc. apply (inject_Z_injective (Z.of_nat (S n)) 0) in Hc. lia. }
    destruct (Nat.eq_dec i (S n)) as [-> | Hne].
    + rewrite nth_error_app2 in Ht by (rewrite length_map, length_seq; lia).
      rewrite length_map, length_seq, Nat.sub_diag in Ht. cbn [nth_error] in Ht.
      injection Ht as <-.
      change (Z.pos (Pos.of_succ_nat n)) with (Z.of_nat (S n)).
      generalize dependent (inject_Z (Z.of_nat (S n))). intros d Hd. field. exact Hd.
    + rewrite nth_error_app1 in Ht by (rewrite length_map, length_seq; lia).
      rewrite nth_error_map in Ht.
      destruct (nth_error (seq 0 (S n)) i) as [k |] eqn:Hk; [| discriminate].
      apply nth_error_nth with (d := 0%nat) in Hk.
      rewrite seq_nth in Hk by lia. rewrite Nat.add_0_l in Hk. subst k.
      cbn [option_map] in Ht. injection Ht as <-.
      change (Z.pos (Pos.of_succ_nat n)) with (Z.of_nat (S n)).
      generalize dependent (inject_Z (Z.of_nat (S n))). intros d Hd.
      generalize (inject_Z (Z.of_nat i)). intros k. field. exact Hd.
Qed.

Lemma np_linspace_last (start stop : Q) (num : nat) :
  (1 < num)%nat -> nth_error (np.linspace start stop num) (num - 1) = Some stop.
Proof.
  intros H. destruct num as [| [| n]]; try lia.
  unfold np.linspace.
  rewrite nth_error_app2 by (rewrite length_map, length_seq; lia).
  rewrite length_map, length_seq.
  replace (S (S n) - 1 - S n)%nat with 0%nat by lia. reflexivity.
Qed.

Lemma np_linspace_monotone (start stop : Q) (num i j : nat) (ti tj : Q) :
  start <= stop -> (i <= j)%nat ->
  nth_error (np.linspace start stop num) i = Some ti ->
  nth_error (np.linspace start stop num) j = Some tj ->
  ti <= tj.
Proof.
  intros Hle Hij Hi Hj.
  assert (Hjn : (j < num)%nat).
  { rewrite <- (np_linspace_length start stop num). apply nth_error_Some. congruence. }
  destruct (np_linspace_nth _ _ _ _ _ Hi) as [Hi1 Hi2].
  destruct (np_linspace_nth _ _ _ _ _ Hj) as [Hj1 Hj2].
  destruct (Nat.eq_dec num 1) as [H1 | H1].
  - rewrite (Hi1 H1), (Hj1 H1). apply Qle_refl.
  - assert (Hn : (1 < num)%nat) by lia.
    rewrite (Hi2 Hn), (Hj2 Hn).
    set (step := (stop - start) / inject_Z (Z.of_nat (num - 1))).
    assert (Hstep : 0 <= step).
    { unfold step. apply Qle_shift_div_l.
      - replace 0 with (inject_Z 0) by reflexivity. rewrite <- Zlt_Qlt. lia.
      - lra. }
    assert (Hq : inject_Z (Z.of_nat i) <= inject_Z (Z.of_nat j)).
    { rewrite <- Zle_Qle. lia. }
    nra.
Qed.

Lemma py_min_le (l : list Q) (y : Q) : In y l -> py_min l <= y.
Proof.
  destruct l as [| x xs]; [intros [] |]. unfold py_min.
  assert (H : forall xs x,
             fold_left (fun m y => if Qltb y m then y else m) xs x <= x /\
             forall y, In y xs ->
                       fold_left (fun m y => if Qltb y m then y else m) xs x <= y).
  { clear. induction xs as [| z xs IH]; intros x; simpl.
    - split; [apply Qle_refl | intros y []].
    - destruct (IH (if Qltb z x then z else x)) as [H1 H2].
      revert H1. qcase; intros H1.
      + split; [lra |]. intros y [<- | Hy]; [exact H1 | apply H2, Hy].
      + split; [exact H1 |]. intros y [<- | Hy]; [lra | apply H2, Hy]. }
  destruct (H xs x) as [H1 H2].
  intros [<- | Hy]; [exact H1 | exact (H2 y Hy)].
Qed.

Lemma py_max_ge (l : list Q) (y : Q) : In y l -> y <= py_max l.
Proof.
  destruct l as [| x xs]; [intros [] |]. unfold py_max.
  assert (H : forall xs x,
             x <= fold_left (fun m y => if Qltb m y then y else m) xs x /\
             forall y, In y xs ->
                       y <= fold_left (fun m y => if Qltb m y then y else m) xs x).
  { clear. induction xs as [| z xs IH]; intros x; simpl.
    - split; [apply Qle_refl | intros y []].
    - destruct (IH (if Qltb x z then z else x)) as [H1 H2].
      revert H1. qcase; intros H1.
      + split; [lra |]. intros y [<- | Hy]; [exact H1 | apply H2, Hy].
      + split; [exact H1 |]. intros y [<- | Hy]; [lra | apply H2, Hy]. }
  destruct (H xs x) as [H1 H2].
  intros [<- | Hy]; [exact H1 | exact (H2 y Hy)].
Qed.

Lemma Qclip_comp (x y lo hi : Q) : x == y -> Qclip x lo hi == Qclip y lo hi.
Proof.
  intros H. unfold Qclip. repeat qcase; lra.
Qed.

(** Pitch and velocity go through [np.clip(., 0, 127)]. *)
Lemma generate_events_pitch_velocity (cfg : Config) (features : list Feature) (e : Event) :
  In e (_generate_events cfg features) ->
  (0 <= pitch e <= 127)%Z /\ (0 <= velocity e <= 127)%Z.
Proof.
  intros H. apply generate_events_In in H. destruct H as (t & f & _ & ->).
  simpl. split; apply np_clip_int_range; lia.
Qed.

(** With a maximal score other than zero the duration is a finite value,
    clipped. *)
Lemma event_duration_finite (cfg : Config) (features : list Feature) (t : Q) (f : Feature) :
  ~ py_max (map score features) == 0 ->
  duration (event_of cfg features t f) =
  Finite (Qclip (note_duration cfg * ((1 # 2) + score f / py_max (map score features)))
                (1 # 2) (max_duration cfg)).
Proof.
  intros Hm. unfold event_of. cbn [duration]. unfold true_divide.
  apply Qeqb_neq in Hm. rewrite Hm. reflexivity.
Qed.

Lemma generate_events_duration_range (cfg : Config) (features : list Feature) (e : Event) :
  ~ py_max (map score features) == 0 ->
  (1 # 2) <= max_duration cfg ->
  In e (_generate_events cfg features) ->
  exists d, duration e = Finite d /\ (1 # 2) <= d <= max_duration cfg.
Proof.
  intros Hm Hd H. apply generate_events_In in H. destruct H as (t & f & _ & ->).
  rewrite event_duration_finite by exact Hm.
  eexists. split; [reflexivity |]. apply Qclip_range. exact Hd.
Qed.

(** ** Velocity *)

(** C3, as the program has it: when all the features of a non-empty set
    have the same intensity, every event gets the upper end of
    [cfg.dynamic_range], clipped to [0, 127], as its velocity.  The two
    sample points given to [np.interp] coincide, nothing is divided, and
    the interpolation answers with the value at the last sample point. *)
Theorem equal_intensities_velocity (cfg : Config) (features : list Feature) (e : Event) :
  (forall f g, In f features -> In g features -> intensity f == intensity g) ->
  In e (_generate_events cfg features) ->
  velocity e = np.clip_int (snd (dynamic_range cfg)) 0 127.
Proof.
  intros Hsame He.
  apply generate_events_In in He. destruct He as (t & f & Hf & ->).
  assert (Hne : map intensity features <> []).
  { destruct features; [destruct Hf | discriminate]. }
  assert (Hall : forall x, In x (map intensity features) -> x == intensity f).
  { intros x Hx. apply in_map_iff in Hx. destruct Hx as (g & <- & Hg).
    apply Hsame; assumption. }
  unfold event_of. cbn [velocity]. unfold dynamic_range_Q.
  rewrite np_interp_degenerate.
  - rewrite py_int_inject_Z. reflexivity.
  - apply Hall, py_min_In, Hne.
  - apply Hall, py_max_In, Hne.
Qed.

Lemma equal_intensities_velocity_witness :
  let features := [feature 80 5 10 10; feature 90 5 0 5] in
  let e := event_of Config__init__ features 90 (feature 90 5 0 5) in
  (forall f g, In f features -> In g features -> intensity f == intensity g) /\
  In e (_generate_events Config__init__ features) /\
  velocity e = np.clip_int (snd (dynamic_range Config__init__)) 0 127.
Proof.
  intros features e.
  assert (H1 : forall f g, In f features -> In g features -> intensity f == intensity g).
  { intros f g [<- | [<- | []]] [<- | [<- | []]]; reflexivity. }
  assert (H2 : In e (_generate_events Config__init__ features)).
  { right. left. reflexivity. }
  split; [exact H1 |]. split; [exact H2 |].
  exact (equal_intensities_velocity Config__init__ features e H1 H2).
Defined.

(** C3 as stated fails: with [dynamic_range = (60, 100)] and two features
    of intensity 5, the velocities are 100 and 100, not the midpoint 80. *)
Lemma equal_intensities_velocity_is_not_midpoint :
  let events := _generate_events Config__init__ [feature 80 5 10 10; feature 90 5 0 5] in
  map velocity events = [100; 100]%Z /\
  midpoint (dynamic_range Config__init__) = 80%Z /\
  ~ (forall e, In e events -> velocity e = midpoint (dynamic_range Config__init__)).
Proof.
  split; [reflexivity |]. split; [reflexivity |].
  intros H. specialize (H _ (or_introl eq_refl)). discriminate H.
Qed.

(** C10: with [dynamic_range = (lo, hi)], [lo <= hi], a range that meets
    the MIDI velocities [0 .. 127], every event has its velocity in
    [lo .. hi]; an intensity left of the observed ones would be mapped to
    [lo] and one right of them to [hi]. *)
Theorem velocity_within_dynamic_range (cfg : Config) (features : list Feature) (e : Event) :
  let lo := fst (dynamic_range cfg) in
  let hi := snd (dynamic_range cfg) in
  let observed := (py_min (map intensity features), py_max (map intensity features)) in
  (lo <= hi)%Z -> (lo <= 127)%Z -> (0 <= hi)%Z ->
  In e (_generate_events cfg features) ->
  (lo <= velocity e <= hi)%Z /\
  (forall x, x < fst observed -> np.interp x observed (dynamic_range_Q cfg) = inject_Z lo) /\
  (forall x, snd observed < x -> np.interp x observed (dynamic_range_Q cfg) = inject_Z hi).
Proof.
  intros lo hi observed Hle Hlo Hhi He.
  apply generate_events_In in He. destruct He as (t & f & Hf & ->).
  split; [| split].
  - unfold event_of. cbn [velocity].
    apply np_clip_int_within; try lia.
    apply py_int_bounds. unfold dynamic_range_Q. fold lo hi.
    apply np_interp_range. rewrite <- Zle_Qle. exact Hle.
  - intros x Hx. unfold observed, dynamic_range_Q. apply np_interp_left; [| exact Hx].
    assert (Hin : In (intensity f) (map intensity features)) by (apply in_map, Hf).
    apply Qle_trans with (intensity f); [apply py_min_le | apply py_max_ge]; exact Hin.
  - intros x Hx. unfold observed, dynamic_range_Q. apply np_interp_right. exact Hx.
Qed.

Lemma velocity_within_dynamic_range_witness :
  let features := [feature 80 7 10 14; feature 90 5 0 5; feature 70 6 20 18] in
  let e := event_of Config__init__ features 90 (feature 70 6 20 18) in
  (60 <= 100)%Z /\ (60 <= 127)%Z /\ (0 <= 100)%Z /\
  In e (_generate_events Config__init__ features) /\
  (60 <= velocity e <= 100)%Z.
Proof.
  intros features e.
  assert (H1 : (60 <= 100)%Z) by lia.
  assert (H2 : (60 <= 127)%Z) by lia.
  assert (H3 : (0 <= 100)%Z) by lia.
  assert (H4 : In e (_generate_events Config__init__ features)).
  { right. right. left. reflexivity. }
  split; [exact H1 |]. split; [exact H2 |]. split; [exact H3 |]. split; [exact H4 |].
  exact (proj1 (velocity_within_dynamic_range Config__init__ features e H1 H2 H3 H4)).
Defined.

(** ** Duration *)

(** Away from the defect below the duration is the one of the formula:
    when the largest score of the set is not zero, the event of feature
    [f] lasts
    [clip(note_duration * (0.5 + score f / max score), 0.5, max_duration)],
    and for a single feature with a score other than zero this is
    [clip(note_duration * 1.5, 0.5, max_duration)]. *)
Lemma duration_formula (cfg : Config) (features : list Feature) :
  ~ py_max (map score features) == 0 ->
  (forall i f, nth_error features i = Some f ->
     exists e, nth_error (_generate_events cfg features) i = Some e /\
       duration e =
       Finite (Qclip (note_duration cfg * ((1 # 2) + score f / py_max (map score features)))
                     (1 # 2) (max_duration cfg))) /\
  (forall f, features = [f] ->
     exists e d, _generate_events cfg features = [e] /\ duration e = Finite d /\
       d == Qclip (note_duration cfg * (3 # 2)) (1 # 2) (max_duration cfg)).
Proof.
  intros Hm. split.
  - intros i f Hf. destruct (generate_events_nth cfg features i f Hf) as (t & _ & He).
    eexists. split; [exact He |]. apply event_duration_finite. exact Hm.
  - intros f ->. eexists. eexists. split; [reflexivity |].
    split; [apply event_duration_finite; exact Hm |].
    apply Qclip_comp. simpl in Hm |- *. field_simplify_eq; [ring | exact Hm].
Qed.

Lemma duration_formula_witness :
  let features := [feature 80 5 10 10] in
  ~ py_max (map score features) == 0 /\
  exists e d,
    _generate_events Config__init__ features = [e] /\ duration e = Finite d /\
    d == Qclip (note_duration Config__init__ * (3 # 2)) (1 # 2) (max_duration Config__init__).
Proof.
  intros features.
  assert (H : ~ py_max (map score features) == 0).
  { simpl. intros Hc. discriminate Hc. }
  split; [exact H |].
  exact (proj2 (duration_formula Config__init__ features H) _ eq_refl).
Defined.

(** C4 fails in the program where the largest score is zero.  The
    duration is clipped on purpose, but the division by the largest score
    has no guard: [0.0 / 0.0] on numpy floats is NaN, and NaN goes through
    [np.clip].  The event of a single feature of score zero gets the
    duration NaN, where the clamp of the formula with the ratio taken as
    1 is [clip(2 * 1.5, 0.5, 90) = 3]. *)
Theorem zero_score_duration_is_not_clamped :
  map duration (_generate_events Config__init__ [feature 90 0 0 0]) = [NaN] /\
  Qclip (note_duration Config__init__ * (3 # 2)) (1 # 2) (max_duration Config__init__) == 3.
Proof.
  split; reflexivity.
Qed.

(** C6 fails in the program on a file of thirty samples whose intensity
    is 1 in the first and the last row and 0 between: the smoothed curve
    has two valleys below zero and a flat maximum of height exactly zero
    between them (samples 6 to 23, middle 14, angle 28); the largest score
    is zero, and the event of the flat maximum, the first of three, gets
    the duration NaN, which is in no interval. *)
Theorem basin_duration_nan :
  exists features e rest,
    _extract_features (even_angles 30) (spikes 30 [0; 29]%nat 1) = Ok features /\
    map (fun f => Qred (angle f)) features = [28; 50; 8] /\
    py_max (map score features) == 0 /\
    events_of_file Config__init__ basin_rows = e :: rest /\
    length rest = 2%nat /\
    duration e = NaN.
Proof.
  eexists. eexists. eexists.
  split; [vm_compute; reflexivity |].
  split; [vm_compute; reflexivity |].
  split; [vm_compute; reflexivity |].
  split; [vm_compute; reflexivity |].
  split; reflexivity.
Qed.

(** ** [sorted] *)

Section Sorted.

Context {A : Type}.
Variable key : A -> Q.

Lemma insert_by_perm (a : A) (l : list A) : Permutation (a :: l) (insert_by key a l).
Proof.
  induction l as [| b l IH]; simpl.
  - apply Permutation_refl.
  - destruct (Qltb (key b) (key a)).
    + apply perm_trans with (b :: a :: l); [apply perm_swap |].
      apply perm_skip, IH.
    + apply Permutation_refl.
Qed.

Lemma sorted_perm (l : list A) : Permutation l (sorted key l).
Proof.
  induction l as [| a l IH]; simpl.
  - apply perm_nil.
  - apply perm_trans with (a :: sorted key l); [apply perm_skip, IH |].
    apply insert_by_perm.
Qed.

Lemma insert_by_Forall (P : A -> Prop) (a : A) (l : list A) :
  P a -> Forall P l -> Forall P (insert_by key a l).
Proof.
  intros Ha Hl. induction Hl as [| b l Hb Hl IH]; simpl.
  - constructor; [exact Ha | constructor].
  - destruct (Qltb (key b) (key a)).
    + constructor; assumption.
    + constructor; [exact Ha |]. constructor; assumption.
Qed.

Lemma insert_by_sorted (a : A) (l : list A) :
  StronglySorted (key_le key) l -> StronglySorted (key_le key) (insert_by key a l).
Proof.
  intros Hl. induction Hl as [| b l Hl IH Hb]; simpl.
  - constructor; constructor.
  - destruct (Qltb (key b) (key a)) eqn:E.
    + apply Qltb_lt in E. constructor; [exact IH |].
      apply insert_by_Forall; [| exact Hb].
      unfold key_le. lra.
    + apply Qltb_ge in E. constructor.
      * constructor; assumption.
      * constructor; [exact E |].
        eapply Forall_impl; [| exact Hb].
        intros c Hc. unfold key_le in *. lra.
Qed.

Lemma sorted_StronglySorted (l : list A) : StronglySorted (key_le key) (sorted key l).
Proof.
  induction l as [| a l IH]; simpl.
  - constructor.
  - apply insert_by_sorted, IH.
Qed.

(** Stability: the elements of any one key keep their order. *)
Lemma insert_by_filter (k : Q) (a : A) (l : list A) :
  filter (fun x => Qeqb (key x) k) (insert_by key a l) =
  filter (fun x => Qeqb (key x) k) (a :: l).
Proof.
  induction l as [| b l IH]; [reflexivity |].
  cbn [insert_by]. destruct (Qltb (key b) (key a)) eqn:E; [| reflexivity].
  apply Qltb_lt in E.
  cbn [filter] in *. rewrite IH.
  destruct (Qeqb (key a) k) eqn:Ea; destruct (Qeqb (key b) k) eqn:Eb; try reflexivity.
  apply Qeqb_eq in Ea, Eb. lra.
Qed.

Lemma sorted_stable (k : Q) (l : list A) :
  filter (fun x => Qeqb (key x) k) (sorted key l) = filter (fun x => Qeqb (key x) k) l.
Proof.
  induction l as [| a l IH]; [reflexivity |].
  cbn [sorted fold_right]. fold (sorted key l).
  rewrite insert_by_filter. cbn [filter]. rewrite IH. reflexivity.
Qed.

End Sorted.



(** ** The filter is the least-squares cubic *)

Lemma Qsum_plain (l : list Q) : Qsum l == fold_right Qplus 0 l.
Proof.
  induction l as [| a l IH]; [reflexivity |].
  cbn [Qsum fold_right]. rewrite Qred_correct. fold (Qsum l). rewrite IH. reflexivity.
Qed.

Lemma plain_sum_ext {A : Type} (f f' : A -> Q) (l : list A) :
  (forall a, f a == f' a) ->
  fold_right Qplus 0 (map f l) == fold_right Qplus 0 (map f' l).
Proof.
  intros H. induction l as [| a l IH]; [reflexivity |].
  cbn [map fold_right]. rewrite IH, (H a). reflexivity.
Qed.

Lemma dot_plain (c w : list Q) :
  dot c w == fold_right Qplus 0 (map (fun cw => fst cw * snd cw) (combine c w)).
Proof. unfold dot. apply Qsum_plain. Qed.

Lemma polyfit_eval_plain (w : list Q) (t : nat) : polyfit_eval w t == polyfit_plain w t.
Proof.
  unfold polyfit_eval, polyfit_plain. rewrite Qsum_plain.
  apply plain_sum_ext. intros k. cbv zeta. rewrite !dot_plain. reflexivity.
Qed.

(** Writes out the plain sums of the goal. *)
Ltac write_out :=
  unfold polyfit_plain, positions, savgol_coeffs;
  cbn [seq map combine fold_right fst snd gram nth
       Z.of_nat Pos.of_succ_nat Pos.succ inject_Z].

(** The residual of the fit is orthogonal to [1], [t], [t^2] and [t^3]
    over the eleven positions: the normal equations of the least-squares
    problem that [np.polyfit] solves. *)
Lemma polyfit_eval_normal_equations (w0 w1 w2 w3 w4 w5 w6 w7 w8 w9 w10 : Q) (m : nat) :
  (m <= 3)%nat ->
  residual_moment [w0; w1; w2; w3; w4; w5; w6; w7; w8; w9; w10] m == 0.
Proof.
  intros Hm.
  assert (H : m = 0%nat \/ m = 1%nat \/ m = 2%nat \/ m = 3%nat) by lia.
  unfold residual_moment. rewrite Qsum_plain.
  rewrite (plain_sum_ext _
             (fun j => (nth j [w0; w1; w2; w3; w4; w5; w6; w7; w8; w9; w10] 0
                        - polyfit_plain [w0; w1; w2; w3; w4; w5; w6; w7; w8; w9; w10] j)
                       * inject_Z (Z.of_nat j) ^ Z.of_nat m))
    by (intros j; rewrite polyfit_eval_plain; reflexivity).
  destruct H as [-> | [-> | [-> | ->]]]; write_out; field.
Qed.

(** The coefficients of the interior are the fit read at the middle of the
    window. *)
Lemma savgol_coeffs_centre (w0 w1 w2 w3 w4 w5 w6 w7 w8 w9 w10 : Q) :
  dot savgol_coeffs [w0; w1; w2; w3; w4; w5; w6; w7; w8; w9; w10]
  == polyfit_eval [w0; w1; w2; w3; w4; w5; w6; w7; w8; w9; w10] 5.
Proof.
  rewrite dot_plain, polyfit_eval_plain. write_out. field.
Qed.

(** ** [savgol_filter] *)

Lemma savgol_filter_short (x : list Q) :
  (length x < 11)%nat -> savgol_filter x = Raise ValueError.
Proof.
  intros H. unfold savgol_filter.
  apply Nat.ltb_lt in H. rewrite H. reflexivity.
Qed.

Lemma savgol_filter_ok (x : list Q) :
  (11 <= length x)%nat ->
  exists y, savgol_filter x = Ok y /\ length y = length x.
Proof.
  intros H. unfold savgol_filter.
  destruct (length x <? 11)%nat eqn:E; [apply Nat.ltb_lt in E; lia |].
  eexists. split; [reflexivity |].
  rewrite !length_app, !length_map, !length_seq. lia.
Qed.

(** ** [find_peaks] *)

Lemma skip_plateau_bounds (x : list Q) (v : Q) (i_ahead i_max fuel : nat) :
  (i_ahead <= skip_plateau x v i_ahead i_max fuel)%nat /\
  ((i_ahead <= i_max)%nat -> (skip_plateau x v i_ahead i_max fuel <= i_max)%nat).
Proof.
  revert i_ahead. induction fuel as [| fuel IH]; intros i_ahead; simpl.
  - split; [lia | intros H; exact H].
  - destruct (i_ahead <? i_max)%nat eqn:E; simpl.
    + apply Nat.ltb_lt in E.
      destruct (Qeqb (nth i_ahead x 0) v).
      * destruct (IH (S i_ahead)) as [H1 H2]. split; [lia | intros _; apply H2; lia].
      * split; lia.
    + split; [lia | intros H; exact H].
Qed.

Lemma local_maxima_loop_lt (x : list Q) (i i_max fuel : nat) :
  Forall (fun peak => (peak < i_max)%nat) (local_maxima_loop x i i_max fuel).
Proof.
  revert i. induction fuel as [| fuel IH]; intros i; cbn [local_maxima_loop];
    [constructor |].
  destruct (i <? i_max)%nat eqn:E; [| constructor].
  apply Nat.ltb_lt in E.
  destruct (Qltb (nth (i - 1) x 0) (nth i x 0)); [| apply IH].
  destruct (Qltb (nth (skip_plateau x (nth i x 0) (i + 1) i_max (length x)) x 0) (nth i x 0));
    [| apply IH].
  constructor; [| apply IH].
  destruct (skip_plateau_bounds x (nth i x 0) (i + 1) i_max (length x)) as [H1 H2].
  specialize (H2 ltac:(lia)).
  apply Nat.Div0.div_lt_upper_bound. lia.
Qed.

Lemma find_peaks_lt (x : list Q) (prominence_squared : Q) (peak : nat) :
  In peak (find_peaks x prominence_squared) -> (peak < length x)%nat.
Proof.
  unfold find_peaks, _local_maxima_1d. intros H.
  apply filter_In in H. destruct H as [H _].
  pose proof (local_maxima_loop_lt x 1 (length x - 1) (length x)) as HF.
  rewrite Forall_forall in HF. specialize (HF _ H). lia.
Qed.

Lemma extrema_lt (smoothed : list Q) (idx : nat) :
  In idx (extrema smoothed) -> (idx < length smoothed)%nat.
Proof.
  unfold extrema. intros H. apply in_app_or in H. destruct H as [H | H].
  - eapply find_peaks_lt, H.
  - apply find_peaks_lt in H. rewrite length_map in H. exact H.
Qed.

(** A curve without a rise has no local maximum. *)
Lemma local_maxima_loop_no_rise (x : list Q) (i i_max fuel : nat) :
  (forall j, (j < i_max)%nat -> Qltb (nth (j - 1) x 0) (nth j x 0) = false) ->
  local_maxima_loop x i i_max fuel = [].
Proof.
  intros H. revert i.
  induction fuel as [| fuel IH]; intros i; cbn [local_maxima_loop]; [reflexivity |].
  destruct (i <? i_max)%nat eqn:E; [| reflexivity].
  apply Nat.ltb_lt in E. rewrite (H i E). apply IH.
Qed.

Lemma find_peaks_flat (x : list Q) (c : Q) (prominence_squared : Q) :
  Forall (fun v => v == c) x -> find_peaks x prominence_squared = [].
Proof.
  intros H. unfold find_peaks, _local_maxima_1d.
  rewrite local_maxima_loop_no_rise; [reflexivity |].
  intros j Hj. apply Qltb_ge.
  rewrite Forall_forall in H.
  rewrite (H (nth j x 0)) by (apply nth_In; lia).
  rewrite (H (nth (j - 1) x 0)) by (apply nth_In; lia).
  apply Qle_refl.
Qed.

(** ** [set] *)

Lemma set_nth_In {A : Type} (i : nat) (a b : A) (l : list A) :
  In b (set_nth i a l) -> b = a \/ In b l.
Proof.
  revert i. induction l as [| c l IH]; intros i; simpl.
  - destruct i; intros [].
  - destruct i as [| i]; simpl.
    + intros [<- | H]; [left; reflexivity | right; right; exact H].
    + intros [<- | H]; [right; left; reflexivity |].
      destruct (IH i H) as [-> | H']; [left; reflexivity | right; right; exact H'].
Qed.

Lemma set_insert_In (table : list (option nat)) (key k : nat) :
  In (Some k) (fst (set_insert table key)) -> k = key \/ In (Some k) table.
Proof.
  unfold set_insert.
  destruct (probe table (length table - 1) key (Nat.land key (length table - 1)) key
              (length table + 13)); simpl; try (intros H; right; exact H).
  intros H. apply set_nth_In in H. destruct H as [[= ->] | H]; [left | right]; auto.
Qed.

Lemma set_iter_In (table : list (option nat)) (k : nat) :
  In k (set_iter table) <-> In (Some k) table.
Proof.
  unfold set_iter. rewrite in_flat_map. split.
  - intros ([k' |] & Hin & Hk); simpl in Hk; [| destruct Hk].
    destruct Hk as [<- | []]. exact Hin.
  - intros H. exists (Some k). split; [exact H | left; reflexivity].
Qed.

Lemma fold_insert_In (keys : list nat) (table : list (option nat)) (k : nat) :
  In (Some k) (fold_left (fun t key => fst (set_insert t key)) keys table) ->
  In k keys \/ In (Some k) table.
Proof.
  revert table. induction keys as [| key keys IH]; intros table; simpl.
  - intros H; right; exact H.
  - intros H. destruct (IH _ H) as [H' | H']; [left; right; exact H' |].
    apply set_insert_In in H'. destruct H' as [-> | H']; [left; left; reflexivity |].
    right; exact H'.
Qed.

Lemma set_table_resize_In (table : list (option nat)) (minused k : nat) :
  In (Some k) (set_table_resize table minused) -> In (Some k) table.
Proof.
  unfold set_table_resize. intros H.
  apply fold_insert_In in H. destruct H as [H | H].
  - apply set_iter_In, H.
  - apply repeat_spec in H. discriminate H.
Qed.

Lemma set_add_key_In (table : list (option nat)) (key k : nat) :
  In (Some k) (set_add_key table key) -> k = key \/ In (Some k) table.
Proof.
  unfold set_add_key.
  destruct (set_insert table key) as [table' added] eqn:E.
  assert (H' : In (Some k) table' -> k = key \/ In (Some k) table).
  { intros H. apply set_insert_In. rewrite E. exact H. }
  destruct added; [| exact H'].
  destruct (length (set_iter table') * 5 <? (length table' - 1) * 3)%nat; [exact H' |].
  intros H. apply H'. eapply set_table_resize_In, H.
Qed.

(** Iterating over [set(l)] only meets elements of [l]. *)
Lemma set_In (l : list nat) (k : nat) : In k (set l) -> In k l.
Proof.
  unfold set. intros H. apply set_iter_In in H.
  assert (G : forall l table,
             In (Some k) (fold_left set_add_key l table) -> In k l \/ In (Some k) table).
  { clear. induction l as [| key l IH]; intros table; simpl.
    - intros H; right; exact H.
    - intros H. destruct (IH _ H) as [H' | H']; [left; right; exact H' |].
      apply set_add_key_In in H'. destruct H' as [-> | H']; [left; left; reflexivity |].
      right; exact H'. }
  destruct (G _ _ H) as [H' | H']; [exact H' |].
  apply repeat_spec in H'. discriminate H'.
Qed.

(** ** [_extract_features] *)

Lemma mapM_total {A B : Type} (f : A -> result B) (l : list A) :
  (forall a, In a l -> exists b, f a = Ok b) ->
  exists bs, mapM f l = Ok bs /\ length bs = length l.
Proof.
  induction l as [| a l IH]; intros H; simpl.
  - exists []. split; reflexivity.
  - destruct (H a (or_introl eq_refl)) as [b Hb]. rewrite Hb. simpl.
    destruct IH as (bs & Hbs & Hlen); [intros a' Ha'; apply H; right; exact Ha' |].
    rewrite Hbs. simpl. exists (b :: bs). split; [reflexivity | simpl; congruence].
Qed.

Lemma getitem_total (x : list Q) (idx : nat) :
  (idx < length x)%nat -> exists v, getitem x idx = Ok v.
Proof.
  intros H. unfold getitem.
  destruct (nth_error x idx) as [v |] eqn:E; [exists v; reflexivity |].
  apply nth_error_None in E. lia.
Qed.

Lemma feature_at_total (angles smoothed : list Q) (idx : nat) :
  (idx < length angles)%nat -> (idx < length smoothed)%nat ->
  exists f, feature_at angles smoothed idx = Ok f.
Proof.
  intros Ha Hs. unfold feature_at.
  destruct (getitem_total angles idx Ha) as [a ->].
  destruct (getitem_total smoothed idx Hs) as [s ->].
  simpl. eexists. reflexivity.
Qed.

Lemma features_in_set_order_total (angles intensities : list Q) :
  (11 <= length intensities)%nat -> length angles = length intensities ->
  exists features, features_in_set_order angles intensities = Ok features.
Proof.
  intros Hn Hlen. unfold features_in_set_order.
  destruct (savgol_filter_ok intensities Hn) as (smoothed & -> & Hs). simpl.
  destruct (mapM_total (feature_at angles smoothed) (set (extrema smoothed))) as (fs & Hfs & _).
  - intros idx Hidx. apply set_In, extrema_lt in Hidx.
    apply feature_at_total; lia.
  - exists fs. exact Hfs.
Qed.

Lemma StronglySorted_weaken {A : Type} (R R' : A -> A -> Prop) (l : list A) :
  (forall x y, R x y -> R' x y) -> StronglySorted R l -> StronglySorted R' l.
Proof.
  intros HR Hs. induction Hs as [| a l Hs IH Ha]; constructor.
  - exact IH.
  - eapply Forall_impl; [| exact Ha]. intros b. apply HR.
Qed.

Lemma extract_features_unfold (angles intensities : list Q) (unsorted : list Feature) :
  features_in_set_order angles intensities = Ok unsorted ->
  _extract_features angles intensities = Ok (sorted (fun x => - score x) unsorted).
Proof.
  intros H. unfold _extract_features. rewrite H. reflexivity.
Qed.

Lemma extract_features_descending (angles intensities : list Q) (features : list Feature) :
  _extract_features angles intensities = Ok features ->
  StronglySorted (fun f g => score g <= score f) features.
Proof.
  unfold _extract_features.
  destruct (features_in_set_order angles intensities) as [unsorted | e]; simpl;
    [| discriminate].
  intros [= <-].
  apply StronglySorted_weaken with (R := key_le (fun x => - score x)).
  - intros x y. unfold key_le. lra.
  - apply sorted_StronglySorted.
Qed.

(** C2, as the program has it: on at least eleven samples the extraction
    returns; the result is the list of features that the loop over
    [set(peaks + valleys)] builds, rearranged so that scores descend;
    features of equal score stay in the order in which the set was
    iterated; and the result is a function of the input. *)
Theorem extract_features_sorted (angles intensities : list Q) :
  (11 <= length intensities)%nat -> length angles = length intensities ->
  exists unsorted features,
    features_in_set_order angles intensities = Ok unsorted /\
    _extract_features angles intensities = Ok features /\
    Permutation unsorted features /\
    StronglySorted (fun f g => score g <= score f) features /\
    (forall s, filter (fun f => Qeqb (score f) s) features =
               filter (fun f => Qeqb (score f) s) unsorted) /\
    (forall features', _extract_features angles intensities = Ok features' ->
                       features' = features).
Proof.
  intros Hn Hlen.
  destruct (features_in_set_order_total angles intensities Hn Hlen) as [unsorted Hu].
  pose proof (extract_features_unfold _ _ _ Hu) as He.
  exists unsorted, (sorted (fun x => - score x) unsorted).
  split; [exact Hu |]. split; [exact He |].
  split; [apply sorted_perm |].
  split; [eapply extract_features_descending, He |].
  split.
  - intros s.
    assert (Hext : forall l, filter (fun f => Qeqb (score f) s) l =
                             filter (fun f => Qeqb (- score f) (- s)) l).
    { intros l. apply filter_ext. intros f.
      destruct (Qeqb (score f) s) eqn:E1; destruct (Qeqb (- score f) (- s)) eqn:E2;
        try reflexivity.
      - apply Qeqb_eq in E1. apply Qeqb_neq in E2. exfalso. apply E2. lra.
      - apply Qeqb_neq in E1. apply Qeqb_eq in E2. exfalso. apply E1. lra. }
    rewrite !Hext. apply sorted_stable.
  - intros features' H. rewrite He in H. injection H as <-. reflexivity.
Qed.

Lemma extract_features_sorted_witness :
  (11 <= length three_spikes)%nat /\
  length (even_angles 68) = length three_spikes /\
  exists features,
    _extract_features (even_angles 68) three_spikes = Ok features /\
    StronglySorted (fun f g => score g <= score f) features.
Proof.
  assert (H1 : (11 <= length three_spikes)%nat) by (vm_compute; lia).
  assert (H2 : length (even_angles 68) = length three_spikes) by reflexivity.
  split; [exact H1 |]. split; [exact H2 |].
  destruct (extract_features_sorted (even_angles 68) three_spikes H1 H2)
    as (unsorted & features & _ & He & _ & Hs & _).
  exists features. split; [exact He | exact Hs].
Defined.

(** C2 as stated fails on ties.  In [three_spikes] the smoothed curve has
    two flat maxima of height zero, with their middles at the samples 20
    and 40; both features have the score zero.  The set of the eleven
    extrema is iterated in the order 34, 6, 40, 11, 46, 16, 51, 20, 24,
    56, 29, and the stable sort leaves the feature of sample 40 in front
    of the feature of sample 20. *)
Lemma ties_follow_set_order :
  exists smoothed features f g,
    savgol_filter three_spikes = Ok smoothed /\
    extrema smoothed = [11; 20; 29; 40; 51; 6; 16; 24; 34; 46; 56]%nat /\
    set (extrema smoothed) = [34; 6; 40; 11; 46; 16; 51; 20; 24; 56; 29]%nat /\
    _extract_features (even_angles 68) three_spikes = Ok features /\
    nth_error features 3 = Some f /\ nth_error features 4 = Some g /\
    score f == score g /\
    angle f == nth 40 (even_angles 68) 0 /\
    angle g == nth 20 (even_angles 68) 0.
Proof.
  eexists. eexists. eexists. eexists.
  split; [vm_compute; reflexivity |].
  split; [vm_compute; reflexivity |].
  split; [vm_compute; reflexivity |].
  split; [vm_compute; reflexivity |].
  split; [reflexivity |]. split; [reflexivity |].
  split; [vm_compute; reflexivity |].
  split; vm_compute; reflexivity.
Qed.

(** ** Onsets *)



(** ** Constant intensities

    In the unrounded arithmetic of the model the filter gives a constant
    back as it is.  The program does so for the constant zero, on which
    every product and sum is exact; the properties are stated for it. *)

Lemma window_repeat (c : Q) (n start : nat) :
  (start + 11 <= n)%nat -> window (repeat c n) start = repeat c 11.
Proof.
  intros H. unfold window.
  replace n with (start + (11 + (n - start - 11)))%nat by lia.
  rewrite !repeat_app.
  rewrite skipn_app, skipn_all2 by (rewrite repeat_length; lia).
  rewrite repeat_length, Nat.sub_diag. cbn [skipn app].
  rewrite firstn_app, firstn_all2 by (rewrite repeat_length; lia).
  rewrite repeat_length, Nat.sub_diag. cbn [firstn]. apply app_nil_r.
Qed.

Lemma dot_coeffs_flat (c : Q) : dot savgol_coeffs (repeat c 11) == c.
Proof.
  rewrite dot_plain. cbn [repeat]. write_out. field.
Qed.

Lemma polyfit_eval_flat (c : Q) (t : nat) : polyfit_eval (repeat c 11) t == c.
Proof.
  rewrite polyfit_eval_plain. cbn [repeat].
  generalize (inject_Z (Z.of_nat t)). intros u.
  write_out. field.
Qed.

Lemma savgol_filter_flat (c : Q) (n : nat) :
  (11 <= n)%nat ->
  exists y, savgol_filter (repeat c n) = Ok y /\ Forall (fun v => v == c) y.
Proof.
  intros Hn. unfold savgol_filter. rewrite repeat_length.
  destruct (n <? 11)%nat eqn:E; [apply Nat.ltb_lt in E; lia |].
  eexists. split; [reflexivity |].
  rewrite !window_repeat by lia.
  apply Forall_app. split; [| apply Forall_app; split].
  - apply Forall_forall. intros v Hv. apply in_map_iff in Hv.
    destruct Hv as (t & <- & _). apply polyfit_eval_flat.
  - apply Forall_forall. intros v Hv. apply in_map_iff in Hv.
    destruct Hv as (i & <- & Hi). apply in_seq in Hi.
    rewrite window_repeat by lia. apply dot_coeffs_flat.
  - apply Forall_forall. intros v Hv. apply in_map_iff in Hv.
    destruct Hv as (t & <- & _). apply polyfit_eval_flat.
Qed.

Lemma extract_features_flat_curve (angles intensities smoothed : list Q) (c : Q) :
  savgol_filter intensities = Ok smoothed ->
  Forall (fun v => v == c) smoothed ->
  _extract_features angles intensities = Ok [].
Proof.
  intros Hs Hy. unfold _extract_features, features_in_set_order.
  rewrite Hs. cbn [bind]. unfold extrema.
  rewrite (find_peaks_flat smoothed c) by exact Hy.
  rewrite (find_peaks_flat (map Qopp smoothed) (- c)).
  - reflexivity.
  - apply Forall_forall. intros v Hv. apply in_map_iff in Hv.
    destruct Hv as (w & <- & Hw). rewrite Forall_forall in Hy.
    rewrite (Hy w Hw). reflexivity.
Qed.

Lemma extract_features_flat (angles : list Q) (c : Q) (n : nat) :
  (11 <= n)%nat -> _extract_features angles (repeat c n) = Ok [].
Proof.
  intros Hn. destruct (savgol_filter_flat c n Hn) as (y & Hs & Hy).
  eapply extract_features_flat_curve; eassumption.
Qed.

Lemma mapM_raise {A B : Type} (f : A -> result B) (l : list A) (e : exception) :
  mapM f l = Raise e -> exists a, In a l /\ f a = Raise e.
Proof.
  induction l as [| a l IH]; simpl; [discriminate |].
  destruct (f a) as [b | e'] eqn:Ea; simpl.
  - destruct (mapM f l) as [bs | e''] eqn:El; simpl; [discriminate |].
    intros [= ->]. destruct (IH eq_refl) as (a' & Hin & Ha').
    exists a'. split; [right; exact Hin | exact Ha'].
  - intros [= ->]. exists a. split; [left; reflexivity | exact Ea].
Qed.

(** The only exceptions of the extraction are the [ValueError] of the
    filter and the [IndexError] of an index past the end of [angles]. *)
Lemma extract_features_exceptions (angles intensities : list Q) (e : exception) :
  _extract_features angles intensities = Raise e -> e = ValueError \/ e = IndexError.
Proof.
  unfold _extract_features, features_in_set_order, savgol_filter.
  destruct (length intensities <? 11)%nat; cbn [bind]; [intros [= <-]; left; reflexivity |].
  match goal with |- context [mapM ?f ?l] => destruct (mapM f l) as [fs | e'] eqn:E end;
    cbn [bind]; [discriminate |].
  intros [= ->]. apply mapM_raise in E. destruct E as (idx & _ & E).
  unfold feature_at, getitem in E.
  destruct (nth_error angles idx); cbn [bind] in E; [| injection E as <-; right; reflexivity].
  match type of E with context [nth_error ?l idx] => destruct (nth_error l idx) end;
    cbn [bind] in E; [discriminate | injection E as <-; right; reflexivity].
Qed.

(** ** [_load_data] and [process_file] *)

Lemma finite_values_Finite (l : list Q) : finite_values (map Finite l) = Some l.
Proof.
  induction l as [| q l IH]; [reflexivity |].
  cbn [map finite_values fold_right] in *. unfold finite_values in IH. rewrite IH.
  reflexivity.
Qed.

Lemma rows_of_columns (angles intensities : list Q) :
  length angles = length intensities ->
  column 0 (rows_of angles intensities) = map Finite angles /\
  column 1 (rows_of angles intensities) = map Finite intensities.
Proof.
  revert intensities. induction angles as [| a angles IH]; intros [| i intensities] H;
    try discriminate H.
  - split; reflexivity.
  - injection H as H. destruct (IH _ H) as [H0 H1].
    unfold column, rows_of in *. cbn [combine map nth fst snd]. rewrite H0, H1.
    split; reflexivity.
Qed.

Lemma load_data_rows_of (angles intensities : list Q) :
  length angles = length intensities -> (2 <= length angles)%nat ->
  _load_data (rows_of angles intensities) = Some (map Finite angles, map Finite intensities).
Proof.
  intros Hlen H2.
  destruct (rows_of_columns angles intensities Hlen) as [H0 H1].
  unfold _load_data. rewrite <- H0, <- H1.
  destruct angles as [| a [| a' angles]]; try (simpl in H2; lia).
  destruct intensities as [| i [| i' intensities]]; try discriminate Hlen.
  unfold rows_of. cbn [combine map fst snd]. unfold np.loadtxt.
  match goal with |- context [forallb ?f ?l] => assert (Hf : forallb f l = true) end.
  { apply forallb_forall. intros r Hr.
    destruct Hr as [<- | Hr]; [reflexivity |].
    apply in_map_iff in Hr. destruct Hr as (ai & <- & _). reflexivity. }
  rewrite Hf. reflexivity.
Qed.

Lemma process_file_rows_of
  (cfg : Config) (angles intensities : list Q) (g : np.random.RandomState) :
  length angles = length intensities -> (2 <= length angles)%nat ->
  process_file cfg (rows_of angles intensities) g =
  (features <- _extract_features angles intensities ;;
   match features with
   | [] => Ok NoFeatures
   | _ =>
       let events := _generate_events cfg (firstn 50 features) in
       let '(midi, outcome) := create_midi cfg events (max_duration cfg) g in
       g' <- outcome ;;
       Ok (Written features events midi g')
   end).
Proof.
  intros Hlen H2. unfold process_file.
  rewrite load_data_rows_of by assumption.
  rewrite !finite_values_Finite. reflexivity.
Qed.

(** ** Too little data *)

(** C1, as the program has it: the extraction never raises
    [InsufficientDataError]; on fewer than eleven samples it raises the
    [ValueError] of [savgol_filter]; on eleven or more samples whose
    intensity is zero throughout, which the filter leaves as they are in
    binary64 too, it returns the empty list, and [process_file], given
    such a file, stops at [not features] and returns [False]. *)
Theorem extract_features_too_little_data (angles intensities : list Q) :
  _extract_features angles intensities <> Raise InsufficientDataError /\
  ((length intensities < 11)%nat ->
   _extract_features angles intensities = Raise ValueError) /\
  ((11 <= length intensities)%nat ->
   intensities = repeat 0 (length intensities) ->
   _extract_features angles intensities = Ok [] /\
   (length angles = length intensities ->
    forall cfg g, process_file cfg (rows_of angles intensities) g = Ok NoFeatures)).
Proof.
  split; [| split].
  - intros H. apply extract_features_exceptions in H. destruct H; discriminate.
  - intros H. unfold _extract_features, features_in_set_order.
    rewrite savgol_filter_short by exact H. reflexivity.
  - intros Hn Hc.
    assert (He : _extract_features angles intensities = Ok []).
    { rewrite Hc. apply extract_features_flat. exact Hn. }
    split; [exact He |].
    intros Hlen cfg g. rewrite process_file_rows_of by lia.
    rewrite He. reflexivity.
Qed.

Lemma extract_features_too_little_data_witness :
  (length (repeat 0 10) < 11)%nat /\
  _extract_features (even_angles 10) (repeat 0 10) = Raise ValueError /\
  (11 <= length (repeat 0 12))%nat /\
  repeat 0 12 = repeat 0 (length (repeat 0 12)) /\
  length (even_angles 12) = length (repeat 0 12) /\
  _extract_features (even_angles 12) (repeat 0 12) = Ok [] /\
  process_file Config__init__ (rows_of (even_angles 12) (repeat 0 12)) some_state
  = Ok NoFeatures.
Proof.
  assert (H1 : (length (repeat 0 10) < 11)%nat) by (simpl; lia).
  assert (H2 : (11 <= length (repeat 0 12))%nat) by (simpl; lia).
  assert (H3 : repeat 0 12 = repeat 0 (length (repeat 0 12))) by reflexivity.
  assert (H4 : length (even_angles 12) = length (repeat 0 12)) by reflexivity.
  split; [exact H1 |].
  split; [exact (proj1 (proj2 (extract_features_too_little_data
                                 (even_angles 10) (repeat 0 10))) H1) |].
  split; [exact H2 |]. split; [exact H3 |]. split; [exact H4 |].
  destruct (proj2 (proj2 (extract_features_too_little_data
                            (even_angles 12) (repeat 0 12))) H2 H3) as [Ha Hb].
  split; [exact Ha | exact (Hb H4 Config__init__ some_state)].
Defined.

(** C1 as stated fails: twelve samples of intensity zero give the empty
    list and no exception, ten samples give [ValueError], and twenty-one
    samples on a parabola, with its top as the single extremum, give a
    list of one feature. *)
Lemma constant_intensities_give_empty_list :
  _extract_features (even_angles 12) (repeat 0 12) = Ok [] /\
  _extract_features (even_angles 12) (repeat 0 12) <> Raise InsufficientDataError /\
  _extract_features (even_angles 10) (repeat 0 10) = Raise ValueError /\
  exists f,
    _extract_features (even_angles 21)
      (map (fun a => - ((a - 20) * (a - 20))) (even_angles 21)) = Ok [f].
Proof.
  split; [vm_compute; reflexivity |].
  split; [vm_compute; discriminate |].
  split; [vm_compute; reflexivity |].
  eexists. vm_compute. reflexivity.
Qed.

(** ** The loading boundary *)

Lemma forallb_same_length (r : list float64) (rs : list (list float64)) (k : nat) :
  forallb (fun r' => (length r' =? length r)%nat) rs = true ->
  length r = k -> Forall (fun r' => length r' = k) (r :: rs).
Proof.
  intros H Hr. constructor; [exact Hr |].
  apply Forall_forall. intros r' Hr'.
  rewrite forallb_forall in H. specialize (H r' Hr').
  apply Nat.eqb_eq in H. congruence.
Qed.

(** C9, as the program has it: a table with a row that does not have
    exactly two cells is rejected by [_load_data], and [process_file]
    returns before the extraction; a table of two or more rows of two
    cells is loaded as it is, whatever the cells are, and when a cell is
    not finite [process_file] calls the extraction with it. *)
Theorem load_data_checks_shape_only (rows : list (list float64)) :
  (~ Forall (fun r => length r = 2%nat) rows ->
   _load_data rows = None /\
   forall cfg g, process_file cfg rows g = Ok LoadFailed) /\
  ((2 <= length rows)%nat -> Forall (fun r => length r = 2%nat) rows ->
   _load_data rows = Some (column 0 rows, column 1 rows) /\
   (finite_values (column 0 rows) = None \/ finite_values (column 1 rows) = None ->
    forall cfg g,
      process_file cfg rows g = Ok (ExtractingNonFinite (column 0 rows) (column 1 rows)))).
Proof.
  split.
  - intros Hshape.
    assert (H : _load_data rows = None).
    { unfold _load_data, np.loadtxt.
      destruct rows as [| r rs]; [exfalso; apply Hshape; constructor |].
      destruct (forallb (fun r' => (length r' =? length r)%nat) rs) eqn:E; [| reflexivity].
      destruct (Nat.eq_dec (length r) 2) as [H2 | H2].
      { exfalso. apply Hshape. eapply forallb_same_length; eassumption. }
      unfold ndim, shape_1.
      destruct rs as [| r' rs]; destruct (length r =? 1)%nat eqn:E1; try reflexivity.
      apply Nat.eqb_neq in H2. cbn [Nat.eqb negb orb]. rewrite H2. reflexivity. }
    split; [exact H |]. intros cfg g. unfold process_file. rewrite H. reflexivity.
  - intros Hlen Hshape.
    assert (H : _load_data rows = Some (column 0 rows, column 1 rows)).
    { unfold _load_data, np.loadtxt.
      destruct rows as [| r [| r' rs]]; try (simpl in Hlen; lia).
      assert (Hr : length r = 2%nat) by (inversion Hshape; assumption).
      assert (Hf : forallb (fun r'0 => (length r'0 =? length r)%nat) (r' :: rs) = true).
      { apply forallb_forall. intros x Hx. apply Nat.eqb_eq.
        rewrite Forall_forall in Hshape. rewrite Hr. apply Hshape. right. exact Hx. }
      rewrite Hf. unfold ndim, shape_1. rewrite Hr. reflexivity. }
    split; [exact H |].
    intros Hnf cfg g. unfold process_file. rewrite H.
    destruct Hnf as [-> | Hnf]; [reflexivity |].
    rewrite Hnf. destruct (finite_values (column 0 rows)); reflexivity.
Qed.

Lemma load_data_checks_shape_only_witness :
  ~ Forall (fun r => length r = 2%nat) [[Finite 1; Finite 2]; [Finite 3; Finite 4; Finite 5]] /\
  _load_data [[Finite 1; Finite 2]; [Finite 3; Finite 4; Finite 5]] = None /\
  (2 <= length [[Finite 1; Finite 2]; [Finite 3; PosInf]])%nat /\
  Forall (fun r => length r = 2%nat) [[Finite 1; Finite 2]; [Finite 3; PosInf]] /\
  _load_data [[Finite 1; Finite 2]; [Finite 3; PosInf]]
  = Some ([Finite 1; Finite 3], [Finite 2; PosInf]).
Proof.
  assert (H1 : ~ Forall (fun r => length r = 2%nat)
                   [[Finite 1; Finite 2]; [Finite 3; Finite 4; Finite 5]]).
  { intros H. inversion H as [| ? ? _ H']. inversion H' as [| ? ? Hc _]. discriminate Hc. }
  assert (H2 : (2 <= length [[Finite 1; Finite 2]; [Finite 3; PosInf]])%nat) by (simpl; lia).
  assert (H3 : Forall (fun r => length r = 2%nat) [[Finite 1; Finite 2]; [Finite 3; PosInf]]).
  { constructor; [reflexivity |]. constructor; [reflexivity | constructor]. }
  split; [exact H1 |].
  split; [exact (proj1 (proj1 (load_data_checks_shape_only _) H1)) |].
  split; [exact H2 |]. split; [exact H3 |].
  exact (proj1 (proj2 (load_data_checks_shape_only _) H2 H3)).
Defined.

(** C9 as stated fails: a file of three rows of two columns with a NaN
    and an infinity among the intensities is loaded, and [process_file]
    enters [_extract_features] with these values. *)
Lemma nan_reaches_extraction :
  let rows := [[Finite 10; Finite 1]; [Finite 20; NaN]; [Finite 30; PosInf]] in
  _load_data rows = Some ([Finite 10; Finite 20; Finite 30], [Finite 1; NaN; PosInf]) /\
  process_file Config__init__ rows some_state
  = Ok (ExtractingNonFinite [Finite 10; Finite 20; Finite 30] [Finite 1; NaN; PosInf]).
Proof.
  split; reflexivity.
Qed.

(** ** The ambient layers *)

Lemma random_sample_range (g : np.random.RandomState) :
  0 <= fst (np.random.random_sample g) < 1.
Proof.
  unfold np.random.random_sample, np.random.draw. cbn [fst].
  set (r := (g 0%nat mod 2 ^ 53)%N).
  assert (Hr : (0 <= Z.of_N r < 2 ^ 53)%Z).
  { split; [apply N2Z.is_nonneg |].
    change (2 ^ 53)%Z with (Z.of_N (2 ^ 53)). apply N2Z.inj_lt.
    unfold r. apply N.mod_lt. discriminate. }
  split.
  - apply Qle_shift_div_l; [reflexivity |].
    rewrite Qmult_0_l. replace 0 with (inject_Z 0) by reflexivity.
    rewrite <- Zle_Qle. lia.
  - apply Qlt_shift_div_r; [reflexivity |].
    rewrite Qmult_1_l. rewrite <- Zlt_Qlt. lia.
Qed.

Lemma randint_range (low high : Z) (g : np.random.RandomState) :
  (low < high)%Z -> (low <= fst (np.random.randint low high g) < high)%Z.
Proof.
  intros H. unfold np.random.randint, np.random.draw. cbn [fst].
  pose proof (Z.mod_pos_bound (Z.of_N (g 0%nat)) (high - low)). lia.
Qed.

Lemma choice_In (a : list Z) (g : np.random.RandomState) :
  a <> [] -> In (fst (np.random.choice a g)) a.
Proof.
  intros H. unfold np.random.choice, np.random.draw. cbn [fst].
  apply nth_In. apply Nat.mod_upper_bound.
  destruct a; [congruence | discriminate].
Qed.

Lemma grace_notes_spec (count : nat) (duration : Q) (midi : MIDIFile) (g : np.random.RandomState) :
  exists grace,
    fst (grace_notes count duration midi g) = midi ++ grace /\
    length grace = count /\
    Forall (grace_note duration) grace /\
    forall n, snd (grace_notes count duration midi g) n = g (3 * count + n)%nat.
Proof.
  revert midi g. induction count as [| count IH]; intros midi g.
  - exists []. cbn [grace_notes fst snd]. rewrite app_nil_r.
    split; [reflexivity |]. split; [reflexivity |]. split; [constructor |].
    intros n. reflexivity.
  - cbn [grace_notes].
    destruct (np.random.uniform (1 # 2) (duration - 2) g) as [start_time g1] eqn:E1.
    destruct (np.random.choice [84; 86; 89]%Z g1) as [p g2] eqn:E2.
    destruct (np.random.randint 30 50 g2) as [v g3] eqn:E3.
    destruct (IH (midi ++ [addNote 3 0 p start_time (Finite (15 # 100)) (np.clip_int v 0 127)]) g3)
      as (grace & Hm & Hlen & Hall & Hst).
    exists (addNote 3 0 p start_time (Finite (15 # 100)) (np.clip_int v 0 127) :: grace).
    split; [rewrite Hm, <- app_assoc; reflexivity |].
    split; [simpl; congruence |].
    split.
    + constructor; [| exact Hall].
      assert (Hv : (30 <= v < 50)%Z).
      { pose proof (randint_range 30 50 g2 ltac:(lia)) as H. rewrite E3 in H. exact H. }
      exists p, start_time, (np.clip_int v 0 127), (fst (np.random.random_sample g)).
      split; [reflexivity |].
      split.
      { pose proof (choice_In [84; 86; 89]%Z g1 ltac:(discriminate)) as H.
        rewrite E2 in H. exact H. }
      split; [unfold np.clip_int; lia |].
      split; [apply random_sample_range |].
      unfold np.random.uniform in E1.
      destruct (np.random.random_sample g) as [u g'] eqn:Eu.
      injection E1 as <- _. reflexivity.
    + intros n. rewrite Hst.
      unfold np.random.randint, np.random.draw in E3. injection E3 as _ <-.
      unfold np.random.choice, np.random.draw in E2. injection E2 as _ <-.
      unfold np.random.uniform, np.random.random_sample, np.random.draw in E1. injection E1 as _ <-.
      f_equal. lia.
Qed.

Lemma pulses_spec (duration : Q) :
  Forall (pulse_note duration) (pulses duration).
Proof.
  unfold pulses, np.arange. apply Forall_forall. intros c Hc.
  apply in_map_iff in Hc. destruct Hc as (t & <- & Ht).
  apply in_map_iff in Ht. destruct Ht as (k & <- & Hk).
  apply in_seq in Hk.
  exists ((2 # 10) + inject_Z (Z.of_nat k) * 4), k.
  split; [reflexivity |]. split; [reflexivity |].
  set (x := (duration - (2 # 10)) / 4) in *.
  assert (Hx : inject_Z (Z.of_nat k) < x).
  { assert (Hc : (Z.of_nat k <= Qceiling x - 1)%Z) by lia.
    apply Qle_lt_trans with (inject_Z (Qceiling x - 1)).
    - rewrite <- Zle_Qle. exact Hc.
    - apply Qceiling_lt. }
  assert (Hd : duration == 4 * x + (2 # 10)) by (unfold x; field).
  lra.
Qed.


Lemma py_int_floor (q : Q) : 0 <= q -> py_int q = Qfloor q.
Proof.
  destruct q as [n d]. unfold Qle, py_int, Qfloor. simpl. intros H.
  apply Z.quot_div_nonneg; lia.
Qed.

Lemma add_ambient_effects_unfold (midi : MIDIFile) (duration : Q) (g : np.random.RandomState) :
  _add_ambient_effects midi duration g =
  (fst (grace_notes (Z.to_nat (py_int (duration / 3))) duration
          (midi ++ [addControllerEvent 2 0 0 91 60]) g) ++ pulses duration,
   snd (grace_notes (Z.to_nat (py_int (duration / 3))) duration
          (midi ++ [addControllerEvent 2 0 0 91 60]) g)).
Proof.
  unfold _add_ambient_effects.
  destruct (grace_notes _ _ _ _) as [midi' g']. reflexivity.
Qed.

Lemma add_ambient_effects_shape (midi : MIDIFile) (duration : Q) (g : np.random.RandomState) :
  exists grace,
    fst (_add_ambient_effects midi duration g)
    = midi ++ [addControllerEvent 2 0 0 91 60] ++ grace ++ pulses duration /\
    length grace = Z.to_nat (py_int (duration / 3)) /\
    Forall (grace_note duration) grace.
Proof.
  rewrite add_ambient_effects_unfold. cbn [fst].
  destruct (grace_notes_spec (Z.to_nat (py_int (duration / 3))) duration
              (midi ++ [addControllerEvent 2 0 0 91 60]) g) as (grace & Hm & Hlen & Hall & _).
  exists grace. rewrite Hm, <- !app_assoc.
  split; [reflexivity |]. split; assumption.
Qed.






(** ** The fuel of the loops is enough *)

Lemma skip_plateau_fuel (x : list Q) (v : Q) (i_ahead i_max fuel fuel' : nat) :
  (i_max - i_ahead <= fuel)%nat -> (i_max - i_ahead <= fuel')%nat ->
  skip_plateau x v i_ahead i_max fuel = skip_plateau x v i_ahead i_max fuel'.
Proof.
  revert i_ahead fuel'. induction fuel as [| fuel IH]; intros i_ahead fuel' H H'.
  - destruct fuel' as [| fuel']; [reflexivity |]. cbn [skip_plateau].
    destruct (i_ahead <? i_max)%nat eqn:E; [apply Nat.ltb_lt in E; lia | reflexivity].
  - cbn [skip_plateau].
    destruct (i_ahead <? i_max)%nat eqn:E.
    + apply Nat.ltb_lt in E. destruct fuel' as [| fuel']; [lia |].
      cbn [skip_plateau]. apply Nat.ltb_lt in E. rewrite E. apply Nat.ltb_lt in E.
      destruct (Qeqb (nth i_ahead x 0) v); cbn [andb]; [| reflexivity].
      apply IH; lia.
    + destruct fuel' as [| fuel']; [reflexivity |]. cbn [skip_plateau]. rewrite E.
      reflexivity.
Qed.

Lemma local_maxima_loop_fuel (x : list Q) (i i_max fuel fuel' : nat) :
  (i_max - i <= fuel)%nat -> (i_max - i <= fuel')%nat ->
  local_maxima_loop x i i_max fuel = local_maxima_loop x i i_max fuel'.
Proof.
  revert i fuel'. induction fuel as [| fuel IH]; intros i fuel' H H'.
  - destruct fuel' as [| fuel']; [reflexivity |]. cbn [local_maxima_loop].
    destruct (i <? i_max)%nat eqn:E; [apply Nat.ltb_lt in E; lia | reflexivity].
  - cbn [local_maxima_loop].
    destruct (i <? i_max)%nat eqn:E.
    + destruct fuel' as [| fuel']; [apply Nat.ltb_lt in E; lia |].
      cbn [local_maxima_loop]. rewrite E. apply Nat.ltb_lt in E.
      pose proof (skip_plateau_bounds x (nth i x 0) (i + 1) i_max (length x)) as [Hb _].
      destruct (Qltb (nth (i - 1) x 0) (nth i x 0)); [| apply IH; lia].
      destruct (Qltb (nth (skip_plateau x (nth i x 0) (i + 1) i_max (length x)) x 0)
                     (nth i x 0)); [| apply IH; lia].
      f_equal. apply IH; lia.
    + destruct fuel' as [| fuel']; [reflexivity |]. cbn [local_maxima_loop]. rewrite E.
      reflexivity.
Qed.

(** ** The probe sequence of [set] visits every slot *)

Section ProbeSequence.

Local Open Scope Z_scope.

Lemma pow5_mod4 (d : nat) : 5 ^ Z.of_nat d mod 4 = 1.
Proof.
  induction d as [| d IH].
  - reflexivity.
  - rewrite Nat2Z.inj_succ, Z.pow_succ_r by lia.
    rewrite Z.mul_mod, IH by lia. reflexivity.
Qed.

Lemma pow5_odd (d : nat) : Z.odd (5 ^ Z.of_nat d) = true.
Proof.
  induction d as [| d IH]; [reflexivity |].
  rewrite Nat2Z.inj_succ, Z.pow_succ_r by lia.
  rewrite Z.odd_mul, IH. reflexivity.
Qed.

Lemma pow5_odd_mod8 (e : nat) : 5 ^ Z.of_nat (2 * e + 1) mod 8 = 5.
Proof.
  induction e as [| e IH].
  - reflexivity.
  - replace (Z.of_nat (2 * S e + 1)) with (Z.succ (Z.succ (Z.of_nat (2 * e + 1)))) by lia.
    rewrite !Z.pow_succ_r by lia.
    rewrite Z.mul_assoc. rewrite Z.mul_mod, IH by lia. reflexivity.
Qed.

(** An odd factor can be cancelled from a multiple of a power of two. *)
Lemma pow2_divide_odd_mul (n : nat) : forall o c : Z,
  Z.odd o = true -> (2 ^ Z.of_nat n | o * c) -> (2 ^ Z.of_nat n | c).
Proof.
  induction n as [| n IH]; intros o c Ho [q Hq].
  - exists c. simpl. lia.
  - rewrite Nat2Z.inj_succ, Z.pow_succ_r in Hq by lia.
    assert (Hc : Z.odd c = false).
    { assert (H : Z.odd (o * c) = false).
      { rewrite Hq. replace (q * (2 * 2 ^ Z.of_nat n)) with (2 * (q * 2 ^ Z.of_nat n)) by lia.
        rewrite Z.odd_mul. reflexivity. }
      rewrite Z.odd_mul, Ho in H. exact H. }
    assert (Hc' : exists c', c = 2 * c').
    { exists (c / 2). pose proof (Z.div_mod c 2 ltac:(lia)) as Hdm.
      rewrite Zmod_odd, Hc in Hdm. lia. }
    destruct Hc' as [c' ->].
    destruct (IH o c' Ho) as [q' Hq'].
    + exists q. nia.
    + exists q'. rewrite Nat2Z.inj_succ, Z.pow_succ_r by lia. lia.
Qed.

(** [2^(k+2)] does not divide [5^d - 1] for [0 < d < 2^k]. *)
Lemma pow5_order (k : nat) : forall d : nat,
  (0 < d)%nat -> (d < 2 ^ k)%nat -> ~ (2 ^ Z.of_nat (k + 2) | 5 ^ Z.of_nat d - 1).
Proof.
  induction k as [| k IH]; intros d Hd0 Hd.
  - simpl in Hd. lia.
  - destruct (Nat.Even_or_Odd d) as [[e He] | [e He]].
    + assert (He0 : (0 < e)%nat) by lia.
      assert (Hek : (e < 2 ^ k)%nat) by (simpl in Hd; lia).
      specialize (IH e He0 Hek).
      intros Hdiv. apply IH.
      set (p := 5 ^ Z.of_nat e) in *.
      assert (Hfac : 5 ^ Z.of_nat d - 1 = (p + 1) * (p - 1)).
      { subst d. replace (Z.of_nat (2 * e)) with (Z.of_nat e + Z.of_nat e) by lia.
        rewrite Z.pow_add_r by lia. fold p. lia. }
      pose proof (pow5_mod4 e) as H4. fold p in H4.
      pose proof (Z.div_mod p 4 ltac:(lia)) as Hp. rewrite H4 in Hp.
      set (o := 2 * (p / 4) + 1).
      assert (Ho : Z.odd o = true).
      { unfold o. rewrite Z.add_comm, Z.odd_add_mul_2. reflexivity. }
      assert (Hpo : p + 1 = 2 * o) by (unfold o; lia).
      apply (pow2_divide_odd_mul (k + 2) o (p - 1) Ho).
      destruct Hdiv as [q Hq]. exists q.
      rewrite Hfac, Hpo in Hq.
      replace (Z.of_nat (S k + 2)) with (Z.succ (Z.of_nat (k + 2))) in Hq by lia.
      rewrite Z.pow_succ_r in Hq by lia. lia.
    + intros [q Hq].
      pose proof (pow5_odd_mod8 e) as H8. rewrite <- He in H8.
      assert (Hm : (5 ^ Z.of_nat d - 1) mod 8 = 4).
      { rewrite Zminus_mod, H8. reflexivity. }
      rewrite Hq in Hm.
      replace (Z.of_nat (S k + 2)) with (3 + Z.of_nat k) in Hm by lia.
      rewrite Z.pow_add_r in Hm by lia.
      replace (q * (2 ^ 3 * 2 ^ Z.of_nat k)) with ((q * 2 ^ Z.of_nat k) * 8) in Hm
        by (change (2 ^ 3) with 8; ring).
      rewrite Z.mod_mul in Hm by lia. discriminate.
Qed.

Lemma geometric_closed (n : nat) : 4 * geometric n + 1 = 5 ^ Z.of_nat n.
Proof.
  induction n as [| n IH]; [reflexivity |].
  rewrite Nat2Z.inj_succ, Z.pow_succ_r by lia. cbn [geometric]. lia.
Qed.

Lemma lcg_mod (k i : nat) : lcg (Nat.ones k) i = ((i * 5 + 1) mod 2 ^ k)%nat.
Proof.
  unfold lcg. rewrite Nat.add_0_r. apply Nat.land_ones.
Qed.

Lemma iter_lcg_closed (k n i : nat) :
  (2 ^ Z.of_nat k | Z.of_nat (Nat.iter n (lcg (Nat.ones k)) i)
                    - (5 ^ Z.of_nat n * Z.of_nat i + geometric n)).
Proof.
  induction n as [| n IH].
  - exists 0. unfold Nat.iter. cbn [nat_rect geometric]. change (Z.of_nat 0) with 0.
    rewrite Z.pow_0_r. ring.
  - rewrite Nat.iter_succ, lcg_mod.
    generalize dependent (Nat.iter n (lcg (Nat.ones k)) i). intros y IH.
    destruct IH as [q Hq].
    rewrite Nat2Z.inj_mod, Nat2Z.inj_pow. change (Z.of_nat 2) with 2.
    assert (Hpos : 2 ^ Z.of_nat k <> 0) by (apply Z.pow_nonzero; lia).
    pose proof (Z.div_mod (Z.of_nat (y * 5 + 1)) (2 ^ Z.of_nat k) Hpos) as Hdm.
    rewrite Nat2Z.inj_succ, Z.pow_succ_r by lia. cbn [geometric].
    set (P := 2 ^ Z.of_nat k) in *.
    set (D := Z.of_nat (y * 5 + 1) / P) in *.
    set (R := Z.of_nat (y * 5 + 1) mod P) in *.
    assert (Hy : Z.of_nat (y * 5 + 1) = 5 * Z.of_nat y + 1) by lia.
    rewrite Hy in Hdm.
    exists (5 * q - D).
    set (c := 5 ^ Z.of_nat n * Z.of_nat i) in *.
    replace (5 * 5 ^ Z.of_nat n * Z.of_nat i) with (5 * c) by (unfold c; ring).
    replace ((5 * q - D) * P) with (5 * (q * P) - P * D) by ring.
    lia.
Qed.

Lemma iter_lcg_injective (k n m i : nat) :
  (n < m)%nat -> (m < 2 ^ k)%nat ->
  Nat.iter n (lcg (Nat.ones k)) i <> Nat.iter m (lcg (Nat.ones k)) i.
Proof.
  intros Hnm Hm Heq.
  destruct (iter_lcg_closed k n i) as [qn Hn].
  destruct (iter_lcg_closed k m i) as [qm Hmm].
  rewrite Heq in Hn.
  apply (pow5_order k (m - n)); [lia | lia |].
  pose proof (geometric_closed n) as Gn.
  pose proof (geometric_closed m) as Gm.
  set (x := Z.of_nat i) in *.
  set (o := (4 * x + 1) * 5 ^ Z.of_nat n).
  apply (pow2_divide_odd_mul (k + 2) o).
  - unfold o. rewrite Z.odd_mul.
    replace (4 * x + 1) with (1 + 2 * (2 * x)) by lia. rewrite Z.odd_add_mul_2.
    rewrite pow5_odd. reflexivity.
  - exists (qn - qm).
    replace (Z.of_nat (k + 2)) with (Z.of_nat k + 2) by lia.
    rewrite Z.pow_add_r by lia. change (2 ^ 2) with 4.
    assert (H5 : 5 ^ Z.of_nat m = 5 ^ Z.of_nat n * 5 ^ Z.of_nat (m - n)).
    { rewrite <- Z.pow_add_r by lia. f_equal. lia. }
    unfold o. nia.
Qed.

Lemma NoDup_map_seq {A : Type} (f : nat -> A) (a len : nat) :
  (forall n m, (a <= n < m)%nat -> (m < a + len)%nat -> f n <> f m) ->
  NoDup (map f (seq a len)).
Proof.
  revert a. induction len as [| len IH]; intros a H; [constructor |].
  cbn [seq map]. constructor.
  - intros Hin. apply in_map_iff in Hin. destruct Hin as (m & Hfm & Hm).
    apply in_seq in Hm. apply (H a m); [lia | lia | congruence].
  - apply IH. intros n m Hn Hm. apply H; lia.
Qed.

(** From any slot the recurrence comes by every slot within a table's
    length of steps. *)
Lemma iter_lcg_covers (k i slot : nat) :
  (i < 2 ^ k)%nat -> (slot < 2 ^ k)%nat ->
  exists n, (n < 2 ^ k)%nat /\ Nat.iter n (lcg (Nat.ones k)) i = slot.
Proof.
  intros Hi Hs.
  set (l := map (fun n => Nat.iter n (lcg (Nat.ones k)) i) (seq 0 (2 ^ k))).
  assert (Hnd : NoDup l).
  { apply NoDup_map_seq. intros n m Hn Hm. apply iter_lcg_injective; lia. }
  assert (Hincl : incl l (seq 0 (2 ^ k))).
  { intros y Hy. apply in_map_iff in Hy. destruct Hy as (n & <- & Hn).
    apply in_seq. split; [lia |]. simpl.
    destruct n as [| n]; [exact Hi |].
    rewrite Nat.iter_succ, lcg_mod. apply Nat.mod_upper_bound.
    apply Nat.pow_nonzero. lia. }
  assert (Hlen : (length (seq 0 (2 ^ k)) <= length l)%nat).
  { unfold l. rewrite length_map. lia. }
  pose proof (NoDup_length_incl Hnd Hlen Hincl) as Hrev.
  assert (Hin : In slot l) by (apply Hrev, in_seq; lia).
  apply in_map_iff in Hin. destruct Hin as (n & Hn & Hn').
  apply in_seq in Hn'. exists n. split; [lia | exact Hn].
Qed.

End ProbeSequence.

(** ** [set(l)] holds the elements of [l], each once *)

Section SetAdequacy.

Local Open Scope nat_scope.

Lemma probe_zero_perturb (table : list (option nat)) (k key : nat) :
  forall n i fuel,
    n < fuel ->
    nth (Nat.iter n (lcg (Nat.ones k)) i) table None = None ->
    probe table (Nat.ones k) key i 0 fuel <> NotHere.
Proof.
  induction n as [| n IH]; intros i fuel Hfuel Hfree;
    (destruct fuel as [| fuel]; [lia |]); cbn [probe].
  - unfold Nat.iter in Hfree. cbn [nat_rect] in Hfree.
    destruct (i + LINEAR_PROBES <=? Nat.ones k); cbn [linear_probe];
      rewrite Hfree; discriminate.
  - rewrite Nat.iter_succ_r in Hfree.
    destruct (linear_probe table key i _); try discriminate.
    change (Nat.shiftr 0 PERTURB_SHIFT) with 0.
    apply IH; [lia | exact Hfree].
Qed.

Lemma land_ones_lt (a k : nat) : Nat.land a (Nat.ones k) < 2 ^ k.
Proof.
  rewrite Nat.land_ones. apply Nat.mod_upper_bound. apply Nat.pow_nonzero. lia.
Qed.

Lemma probe_finds (table : list (option nat)) (k key slot : nat) :
  slot < 2 ^ k -> nth slot table None = None ->
  forall rounds perturb i fuel,
    Nat.shiftr perturb (PERTURB_SHIFT * rounds) = 0 ->
    i < 2 ^ k -> rounds + 2 ^ k <= fuel ->
    probe table (Nat.ones k) key i perturb fuel <> NotHere.
Proof.
  intros Hslot Hfree.
  induction rounds as [| rounds IH]; intros perturb i fuel Hp Hi Hfuel.
  - rewrite Nat.mul_0_r, Nat.shiftr_0_r in Hp. subst perturb.
    destruct (iter_lcg_covers k i slot Hi Hslot) as (n & Hn & Hiter).
    apply (probe_zero_perturb table k key n); [lia |]. rewrite Hiter. exact Hfree.
  - destruct fuel as [| fuel]; [lia |]. cbn [probe].
    destruct (linear_probe table key i _); try discriminate.
    apply IH.
    + rewrite Nat.shiftr_shiftr. rewrite <- Hp. f_equal. lia.
    + apply land_ones_lt.
    + lia.
Qed.

(** What the searches return. *)
Lemma linear_probe_unused (table : list (option nat)) (key : nat) :
  forall count i slot,
    linear_probe table key i count = FoundUnused slot ->
    i <= slot < i + count /\ nth slot table None = None.
Proof.
  induction count as [| count IH]; intros i slot; cbn [linear_probe]; [discriminate |].
  destruct (nth i table None) as [k' |] eqn:E.
  - destruct (k' =? key); [discriminate |].
    intros H. apply IH in H. split; [lia | apply H].
  - intros [= <-]. split; [lia | exact E].
Qed.

Lemma nth_Some_In {A : Type} (l : list (option A)) (i : nat) (a : A) :
  nth i l None = Some a -> In (Some a) l.
Proof.
  intros H. destruct (Nat.lt_ge_cases i (length l)) as [Hi | Hi].
  - rewrite <- H. apply nth_In. exact Hi.
  - rewrite nth_overflow in H by exact Hi. discriminate.
Qed.

Lemma linear_probe_active (table : list (option nat)) (key : nat) :
  forall count i, linear_probe table key i count = FoundActive -> In (Some key) table.
Proof.
  induction count as [| count IH]; intros i; cbn [linear_probe]; [discriminate |].
  destruct (nth i table None) as [k' |] eqn:E; [| discriminate].
  destruct (k' =? key) eqn:Ek; [| apply IH].
  intros _. apply Nat.eqb_eq in Ek. subst k'. eapply nth_Some_In, E.
Qed.

Lemma probe_unused (table : list (option nat)) (k key : nat) :
  forall fuel i perturb slot,
    i < 2 ^ k ->
    probe table (Nat.ones k) key i perturb fuel = FoundUnused slot ->
    slot < 2 ^ k /\ nth slot table None = None.
Proof.
  induction fuel as [| fuel IH]; intros i perturb slot Hi; cbn [probe]; [discriminate |].
  destruct (linear_probe table key i _) as [s | |] eqn:E.
  - intros [= <-]. apply linear_probe_unused in E. destruct E as [Hs Hfree].
    split; [| exact Hfree].
    rewrite Nat.ones_equiv in Hs.
    destruct (i + LINEAR_PROBES <=? Nat.pred (2 ^ k)) eqn:Ec.
    + apply Nat.leb_le in Ec. unfold LINEAR_PROBES in *. lia.
    + lia.
  - discriminate.
  - apply IH. apply land_ones_lt.
Qed.

Lemma probe_active (table : list (option nat)) (mask key : nat) :
  forall fuel i perturb,
    probe table mask key i perturb fuel = FoundActive -> In (Some key) table.
Proof.
  induction fuel as [| fuel IH]; intros i perturb; cbn [probe]; [discriminate |].
  destruct (linear_probe table key i _) as [s | |] eqn:E.
  - discriminate.
  - intros _. eapply linear_probe_active, E.
  - apply IH.
Qed.

(** Writing a slot. *)
Lemma set_nth_length {A : Type} (i : nat) (a : A) (l : list A) :
  length (set_nth i a l) = length l.
Proof.
  revert i. induction l as [| b l IH]; intros [| i]; simpl; try reflexivity.
  rewrite IH. reflexivity.
Qed.

Lemma set_nth_keeps (i : nat) (key : nat) (l : list (option nat)) (x : nat) :
  nth i l None = None -> In (Some x) l -> In (Some x) (set_nth i (Some key) l).
Proof.
  revert i. induction l as [| b l IH]; intros [| i] Hfree Hin; simpl in *; try contradiction.
  - destruct Hin as [Hb | Hin]; [congruence | right; exact Hin].
  - destruct Hin as [Hb | Hin]; [left; exact Hb | right; apply IH; assumption].
Qed.

Lemma set_nth_puts (i : nat) (key : nat) (l : list (option nat)) :
  i < length l -> In (Some key) (set_nth i (Some key) l).
Proof.
  revert i. induction l as [| b l IH]; intros [| i] Hi; simpl in *; try lia.
  - left; reflexivity.
  - right. apply IH. lia.
Qed.

Lemma set_nth_used (i : nat) (key : nat) (l : list (option nat)) :
  i < length l -> nth i l None = None ->
  length (set_iter (set_nth i (Some key) l)) = S (length (set_iter l)).
Proof.
  unfold set_iter.
  revert i. induction l as [| b l IH]; intros [| i] Hi Hfree; simpl in *; try lia.
  - subst b. reflexivity.
  - rewrite !length_app, IH by (assumption || lia). lia.
Qed.

Lemma free_slot (table : list (option nat)) :
  length (set_iter table) < length table ->
  exists slot, slot < length table /\ nth slot table None = None.
Proof.
  unfold set_iter. induction table as [| e table IH]; simpl; [lia |].
  destruct e as [k |]; simpl.
  - intros H. destruct IH as (s & Hs & Hfree); [lia |].
    exists (S s). split; [lia | exact Hfree].
  - intros _. exists 0. split; [lia | reflexivity].
Qed.

Lemma set_insert_spec (table : list (option nat)) (key : nat) :
  roomy table -> small_key key ->
  let table' := fst (set_insert table key) in
  length table' = length table /\
  In (Some key) table' /\
  (forall x, In (Some x) table -> In (Some x) table') /\
  length (set_iter table') <= S (length (set_iter table)) /\
  (snd (set_insert table key) = true ->
   length (set_iter table') = S (length (set_iter table))).
Proof.
  intros (k & Hlen & Hused) Hkey. unfold set_insert.
  assert (Hmask : length table - 1 = Nat.ones k).
  { rewrite Nat.ones_equiv, Hlen. lia. }
  rewrite Hmask.
  destruct (free_slot table) as (free & Hfree & Hnone); [lia |].
  pose proof (probe_finds table k key free ltac:(lia) Hnone 13 key
                (Nat.land key (Nat.ones k)) (length table + 13) Hkey
                (land_ones_lt key k) ltac:(lia)) as Hfound.
  destruct (probe table (Nat.ones k) key (Nat.land key (Nat.ones k)) key (length table + 13))
    as [slot | |] eqn:E; cbn [fst snd].
  - apply probe_unused in E; [| apply land_ones_lt]. destruct E as [Hs Hn].
    split; [apply set_nth_length |].
    split; [apply set_nth_puts; lia |].
    split; [intros x; apply set_nth_keeps; exact Hn |].
    rewrite set_nth_used by (lia || assumption). split; [lia | reflexivity].
  - apply probe_active in E.
    split; [reflexivity |]. split; [exact E |]. split; [auto |]. split; [lia | discriminate].
  - contradiction.
Qed.

(** The size a table is moved to. *)
Lemma table_size_spec (minused : nat) :
  forall fuel newsize a,
    newsize = 2 ^ a -> minused < newsize * 2 ^ fuel ->
    exists b, table_size newsize minused fuel = 2 ^ b /\ minused < 2 ^ b /\ a <= b.
Proof.
  induction fuel as [| fuel IH]; intros newsize a Ha Hbig; cbn [table_size].
  - exists a. rewrite Nat.pow_0_r, Nat.mul_1_r in Hbig. subst newsize.
    split; [reflexivity |]. split; [exact Hbig | lia].
  - destruct (newsize <=? minused) eqn:E.
    + destruct (IH (2 * newsize) (S a)) as (b & Hb & Hm & Hab).
      * rewrite Ha. rewrite Nat.pow_succ_r'. reflexivity.
      * rewrite Nat.pow_succ_r' in Hbig. lia.
      * exists b. split; [exact Hb |]. split; [exact Hm | lia].
    + apply Nat.leb_gt in E. exists a. subst newsize.
      split; [reflexivity |]. split; [exact E | lia].
Qed.

Lemma set_iter_repeat_None (n : nat) : set_iter (repeat None n) = [].
Proof.
  unfold set_iter. induction n as [| n IH]; [reflexivity | exact IH].
Qed.

Lemma fold_insert_spec (keys : list nat) :
  forall table b,
    length table = 2 ^ b ->
    length (set_iter table) + length keys < 2 ^ b ->
    Forall small_key keys ->
    let table' := fold_left (fun t k => fst (set_insert t k)) keys table in
    length table' = 2 ^ b /\
    (forall x, In x keys \/ In (Some x) table -> In (Some x) table') /\
    length (set_iter table') <= length (set_iter table) + length keys.
Proof.
  induction keys as [| key keys IH]; intros table b Hlen Hroom Hkeys; cbn [fold_left].
  - split; [exact Hlen |]. split; [| simpl; lia].
    intros x [[] | H]; exact H.
  - simpl in Hroom. inversion Hkeys as [| ? ? Hkey Hkeys']; subst.
    assert (Hr : roomy table) by (exists b; split; [exact Hlen | lia]).
    destruct (set_insert_spec table key Hr Hkey) as (Hl & Hin & Hkeep & Hused & _).
    destruct (IH (fst (set_insert table key)) b) as (Hl' & Hin' & Hused').
    + rewrite Hl. exact Hlen.
    + lia.
    + exact Hkeys'.
    + split; [exact Hl' |]. split; [| simpl; lia].
      intros x [[<- | Hx] | Hx]; apply Hin'.
      * right. exact Hin.
      * left. exact Hx.
      * right. apply Hkeep, Hx.
Qed.

Lemma loaded_roomy (table : list (option nat)) : loaded table -> roomy table.
Proof.
  intros [(k & _ & Hlen & Hfill) _]. exists k. split; [exact Hlen | lia].
Qed.

Lemma set_table_resize_spec (table : list (option nat)) (used minused : nat) :
  used = length (set_iter table) -> 0 < used -> 2 * used <= minused ->
  (forall x, In (Some x) table -> small_key x) ->
  loaded (set_table_resize table minused) /\
  forall x, In (Some x) table -> In (Some x) (set_table_resize table minused).
Proof.
  intros Hused Hpos Hmin Hsmall. unfold set_table_resize.
  destruct (table_size_spec minused (S minused) PySet_MINSIZE 3 eq_refl) as (b & Hb & Hm & H3).
  { pose proof (Nat.pow_gt_lin_r 2 (S minused) ltac:(lia)). unfold PySet_MINSIZE. lia. }
  rewrite Hb.
  destruct (fold_insert_spec (set_iter table) (repeat None (2 ^ b)) b) as (Hl & Hin & Hu).
  - apply repeat_length.
  - rewrite set_iter_repeat_None. simpl. lia.
  - apply Forall_forall. intros x Hx. apply Hsmall, set_iter_In, Hx.
  - rewrite set_iter_repeat_None in Hu. simpl in Hu.
    split; [split |].
    + exists b. split; [exact H3 |]. split; [exact Hl | lia].
    + intros x Hx. apply fold_insert_In in Hx. destruct Hx as [Hx | Hx].
      * apply Hsmall, set_iter_In, Hx.
      * apply repeat_spec in Hx. discriminate.
    + intros x Hx. apply Hin. left. apply set_iter_In, Hx.
Qed.

Lemma set_add_key_spec (table : list (option nat)) (key : nat) :
  loaded table -> small_key key ->
  loaded (set_add_key table key) /\
  In (Some key) (set_add_key table key) /\
  forall x, In (Some x) table -> In (Some x) (set_add_key table key).
Proof.
  intros Hl Hkey.
  pose proof (set_insert_spec table key (loaded_roomy table Hl) Hkey) as Hs.
  cbv zeta in Hs. destruct Hs as (Hlen & Hin & Hkeep & Hused & Hadded).
  destruct Hl as [(k & H3 & Hk & Hfill) Hsmall].
  unfold set_add_key.
  destruct (set_insert table key) as [table' added] eqn:E. cbn [fst snd] in *.
  assert (Hsmall' : forall x, In (Some x) table' -> small_key x).
  { intros x Hx. pose proof (set_insert_In table key x) as H. rewrite E in H.
    destruct (H Hx) as [-> | Hx']; [exact Hkey | apply Hsmall, Hx']. }
  destruct added.
  - specialize (Hadded eq_refl).
    destruct (length (set_iter table') * 5 <? (length table' - 1) * 3) eqn:Ef.
    + apply Nat.ltb_lt in Ef. split; [split |].
      * exists k. split; [exact H3 |]. split; [lia |]. rewrite Hlen, Hk in Ef. exact Ef.
      * exact Hsmall'.
      * split; [exact Hin | exact Hkeep].
    + destruct (set_table_resize_spec table' (length (set_iter table'))
                  (if (50000 <? Z.of_nat (length (set_iter table')))%Z
                   then length (set_iter table') * 2 else length (set_iter table') * 4))
        as [Hload Hkeep'].
      * reflexivity.
      * lia.
      * destruct (50000 <? Z.of_nat (length (set_iter table')))%Z; lia.
      * exact Hsmall'.
      * split; [exact Hload |]. split; [apply Hkeep', Hin |].
        intros x Hx. apply Hkeep', Hkeep, Hx.
  - assert (Hsame : table' = table).
    { unfold set_insert in E.
      destruct (probe table _ key _ key _); inversion E; reflexivity. }
    subst table'. split; [split |].
    + exists k. split; [exact H3 |]. split; [exact Hk | exact Hfill].
    + exact Hsmall.
    + split; [exact Hin | exact Hkeep].
Qed.

(** With keys that are hashes of 64 bits, iterating over [set(l)] meets
    every element of [l]. *)
Theorem set_complete (l : list nat) (k : nat) :
  Forall small_key l -> In k l -> In k (set l).
Proof.
  intros Hsmall Hin. unfold set. apply set_iter_In.
  assert (G : forall l table,
             loaded table -> Forall small_key l ->
             loaded (fold_left set_add_key l table) /\
             forall x, In x l \/ In (Some x) table ->
                       In (Some x) (fold_left set_add_key l table)).
  { clear. induction l as [| key l IH]; intros table Hl Hs; cbn [fold_left].
    - split; [exact Hl |]. intros x [[] | H]; exact H.
    - inversion Hs as [| ? ? Hkey Hs']; subst.
      destruct (set_add_key_spec table key Hl Hkey) as (Hl' & Hin & Hkeep).
      destruct (IH _ Hl' Hs') as [Hl'' Hin'].
      split; [exact Hl'' |].
      intros x [[<- | Hx] | Hx]; apply Hin'.
      + right. exact Hin.
      + left. exact Hx.
      + right. apply Hkeep, Hx. }
  apply G.
  - split.
    + exists 3. split; [lia |]. split; [reflexivity |].
      change (PySet_MINSIZE) with 8. rewrite set_iter_repeat_None. simpl. lia.
    + intros x Hx. apply repeat_spec in Hx. discriminate.
  - exact Hsmall.
  - left. exact Hin.
Qed.

Lemma set_nth_same {A : Type} (i : nat) (a d : A) (l : list A) :
  i < length l -> nth i (set_nth i a l) d = a.
Proof.
  revert i. induction l as [| b l IH]; intros [| i] Hi; simpl in *; try lia.
  - reflexivity.
  - apply IH. lia.
Qed.

Lemma set_nth_other {A : Type} (i j : nat) (a d : A) (l : list A) :
  i <> j -> nth j (set_nth i a l) d = nth j l d.
Proof.
  revert i j. induction l as [| b l IH]; intros [| i] [| j] Hij; simpl; try reflexivity.
  - lia.
  - apply IH. lia.
Qed.

Section Insertion.

Variable table : list (option nat).
Variables slot key : nat.
Hypothesis slot_free : nth slot table None = None.
Hypothesis slot_in : slot < length table.

Lemma linear_probe_other (x : nat) :
  forall count i,
    (forall s, linear_probe table x i count <> FoundUnused s) ->
    linear_probe (set_nth slot (Some key) table) x i count
    = linear_probe table x i count.
Proof.
  induction count as [| count IH]; intros i H; cbn [linear_probe] in *; [reflexivity |].
  destruct (nth i table None) as [k' |] eqn:E.
  - assert (Hi : slot <> i) by (intros ->; congruence).
    rewrite set_nth_other by exact Hi. rewrite E.
    destruct (k' =? x); [reflexivity |]. apply IH. exact H.
  - exfalso. apply (H i). reflexivity.
Qed.

Lemma probe_other (x mask : nat) :
  forall fuel i perturb,
    probe table mask x i perturb fuel = FoundActive ->
    probe (set_nth slot (Some key) table) mask x i perturb fuel = FoundActive.
Proof.
  induction fuel as [| fuel IH]; intros i perturb; cbn [probe]; [discriminate |].
  destruct (linear_probe table x i _) as [s | |] eqn:E; [discriminate | |].
  - rewrite linear_probe_other by (rewrite E; discriminate). rewrite E. reflexivity.
  - rewrite linear_probe_other by (rewrite E; discriminate). rewrite E. apply IH.
Qed.

Lemma linear_probe_new :
  forall count i,
    linear_probe table key i count = FoundUnused slot ->
    linear_probe (set_nth slot (Some key) table) key i count = FoundActive.
Proof.
  induction count as [| count IH]; intros i; cbn [linear_probe]; [discriminate |].
  destruct (nth i table None) as [k' |] eqn:E.
  - assert (Hi : slot <> i) by (intros ->; congruence).
    rewrite set_nth_other by exact Hi. rewrite E.
    destruct (k' =? key); [discriminate |]. apply IH.
  - intros [= ->]. rewrite set_nth_same by exact slot_in.
    rewrite Nat.eqb_refl. reflexivity.
Qed.

Lemma probe_new (mask : nat) :
  forall fuel i perturb,
    probe table mask key i perturb fuel = FoundUnused slot ->
    probe (set_nth slot (Some key) table) mask key i perturb fuel = FoundActive.
Proof.
  induction fuel as [| fuel IH]; intros i perturb; cbn [probe]; [discriminate |].
  destruct (linear_probe table key i _) as [s | |] eqn:E.
  - intros [= ->]. rewrite (linear_probe_new _ _ E). reflexivity.
  - discriminate.
  - rewrite linear_probe_other by (rewrite E; discriminate). rewrite E. apply IH.
Qed.

Lemma set_iter_set_nth :
  Permutation (set_iter (set_nth slot (Some key) table)) (key :: set_iter table).
Proof.
  unfold set_iter.
  revert slot slot_free slot_in.
  induction table as [| e t IH]; intros [| s] Hfree Hin; simpl in *; try lia.
  - subst e. apply Permutation_refl.
  - destruct e as [k' |]; simpl.
    + apply perm_trans with (k' :: key :: flat_map (fun e => match e with
                                                   | Some k => [k] | None => [] end) t).
      * apply perm_skip. apply IH; [exact Hfree | lia].
      * apply perm_swap.
    + apply IH; [exact Hfree | lia].
Qed.

End Insertion.

Lemma set_insert_sound (table : list (option nat)) (key : nat) :
  roomy table -> small_key key -> sound table -> sound (fst (set_insert table key)).
Proof.
  intros Hroomy Hkey [Hreach Hnd].
  pose proof (set_insert_spec table key Hroomy Hkey) as Hspec. cbv zeta in Hspec.
  destruct Hroomy as (k & Hlen & Hused).
  assert (Hmask : length table - 1 = Nat.ones k).
  { rewrite Nat.ones_equiv, Hlen. lia. }
  unfold set_insert in *.
  destruct (probe table (length table - 1) key (Nat.land key (length table - 1)) key
              (length table + 13)) as [slot | |] eqn:E; cbn [fst snd] in *;
    [| split; assumption | split; assumption].
  pose proof E as E'. rewrite Hmask in E'.
  apply probe_unused in E'; [| apply land_ones_lt]. destruct E' as [Hs Hfree].
  assert (Hin : slot < length table) by lia.
  assert (Hnew : ~ In (Some key) table).
  { intros Hc. apply Hreach in Hc. rewrite E in Hc. discriminate. }
  split.
  - intros x Hx. rewrite set_nth_length.
    apply set_nth_In in Hx. destruct Hx as [[= ->] | Hx].
    + apply probe_new; assumption.
    + apply probe_other; try assumption. apply Hreach, Hx.
  - apply (Permutation_NoDup (l := key :: set_iter table)).
    + apply Permutation_sym, set_iter_set_nth; assumption.
    + constructor; [| exact Hnd]. intros Hc. apply Hnew, set_iter_In, Hc.
Qed.

Lemma fold_insert_sound (keys : list nat) :
  forall table b,
    length table = 2 ^ b ->
    length (set_iter table) + length keys < 2 ^ b ->
    Forall small_key keys -> sound table ->
    sound (fold_left (fun t k => fst (set_insert t k)) keys table).
Proof.
  induction keys as [| key keys IH]; intros table b Hlen Hroom Hkeys Hs; cbn [fold_left].
  - exact Hs.
  - simpl in Hroom. inversion Hkeys as [| ? ? Hkey Hkeys']; subst.
    assert (Hr : roomy table) by (exists b; split; [exact Hlen | lia]).
    destruct (set_insert_spec table key Hr Hkey) as (Hl & _ & _ & Hused & _).
    apply (IH _ b).
    + rewrite Hl. exact Hlen.
    + lia.
    + exact Hkeys'.
    + apply set_insert_sound; assumption.
Qed.

Lemma sound_empty (n : nat) : sound (repeat None n).
Proof.
  split.
  - intros x Hx. apply repeat_spec in Hx. discriminate.
  - rewrite set_iter_repeat_None. constructor.
Qed.

Lemma set_table_resize_sound (table : list (option nat)) (used minused : nat) :
  used = length (set_iter table) -> 0 < used -> 2 * used <= minused ->
  (forall x, In (Some x) table -> small_key x) ->
  sound (set_table_resize table minused).
Proof.
  intros Hused Hpos Hmin Hsmall. unfold set_table_resize.
  destruct (table_size_spec minused (S minused) PySet_MINSIZE 3 eq_refl) as (b & Hb & Hm & H3).
  { pose proof (Nat.pow_gt_lin_r 2 (S minused) ltac:(lia)). unfold PySet_MINSIZE. lia. }
  rewrite Hb. apply (fold_insert_sound _ _ b).
  - apply repeat_length.
  - rewrite set_iter_repeat_None. simpl. lia.
  - apply Forall_forall. intros x Hx. apply Hsmall, set_iter_In, Hx.
  - apply sound_empty.
Qed.

Lemma set_add_key_sound (table : list (option nat)) (key : nat) :
  loaded table -> small_key key -> sound table -> sound (set_add_key table key).
Proof.
  intros Hl Hkey Hs.
  pose proof (set_insert_sound table key (loaded_roomy table Hl) Hkey Hs) as Hs'.
  pose proof (set_insert_spec table key (loaded_roomy table Hl) Hkey) as Hspec.
  cbv zeta in Hspec. destruct Hspec as (_ & _ & _ & _ & Hadded).
  destruct Hl as [_ Hsmall].
  unfold set_add_key.
  destruct (set_insert table key) as [table' added] eqn:E. cbn [fst snd] in *.
  destruct added; [| exact Hs'].
  destruct (length (set_iter table') * 5 <? (length table' - 1) * 3); [exact Hs' |].
  specialize (Hadded eq_refl).
  apply (set_table_resize_sound table' (length (set_iter table'))).
  - reflexivity.
  - lia.
  - destruct (50000 <? Z.of_nat (length (set_iter table')))%Z; lia.
  - intros x Hx. pose proof (set_insert_In table key x) as H. rewrite E in H.
    destruct (H Hx) as [-> | Hx']; [exact Hkey | apply Hsmall, Hx'].
Qed.

(** With keys that are hashes of 64 bits, [set(l)] is iterated without
    repetition. *)
Theorem set_NoDup (l : list nat) : Forall small_key l -> NoDup (set l).
Proof.
  intros Hsmall. unfold set.
  assert (G : forall l table,
             loaded table -> sound table -> Forall small_key l ->
             sound (fold_left set_add_key l table)).
  { clear. induction l as [| key l IH]; intros table Hl Hs Hk; cbn [fold_left].
    - exact Hs.
    - inversion Hk as [| ? ? Hkey Hk']; subst.
      apply IH; [| | exact Hk'].
      + apply set_add_key_spec; assumption.
      + apply set_add_key_sound; assumption. }
  apply G; [| apply sound_empty | exact Hsmall].
  split.
  - exists 3. split; [lia |]. split; [reflexivity |].
    change (PySet_MINSIZE) with 8. rewrite set_iter_repeat_None. simpl. lia.
  - intros x Hx. apply repeat_spec in Hx. discriminate.
Qed.

Lemma small_key_bound (key : nat) : Nat.log2 key < 65 -> small_key key.
Proof.
  intros H. unfold small_key. apply Nat.shiftr_eq_0. exact H.
Qed.

(** [set(l)] is [l] without its repetitions, in some order. *)
Corollary set_Permutation (l : list nat) :
  Forall small_key l -> Permutation (set l) (nodup Nat.eq_dec l).
Proof.
  intros Hsmall. apply NoDup_Permutation.
  - apply set_NoDup, Hsmall.
  - apply NoDup_nodup.
  - intros k. rewrite nodup_In. split.
    + apply set_In.
    + apply set_complete, Hsmall.
Qed.

(** The loop of [_extract_features] meets every extremum once, for curves of
    less than [2^64] samples. *)
Corollary set_extrema (smoothed : list Q) :
  length smoothed < 2 ^ 64 ->
  Permutation (set (extrema smoothed)) (nodup Nat.eq_dec (extrema smoothed)).
Proof.
  intros Hlen. apply set_Permutation, Forall_forall. intros idx Hidx.
  apply extrema_lt in Hidx.
  destruct idx as [| idx].
  - unfold small_key. apply Nat.shiftr_0_l.
  - apply small_key_bound. apply Nat.lt_trans with 64.
    + apply Nat.log2_lt_pow2; [apply Nat.lt_0_succ |].
      eapply Nat.lt_trans; [exact Hidx | exact Hlen].
    + repeat constructor.
Qed.

End SetAdequacy.

(** ** The library models on small inputs *)

Example set_of_1_and_8 : set [1; 8]%nat = [8; 1]%nat.
Proof. reflexivity. Qed.

Example set_removes_duplicates : set [3; 5; 3; 2; 5]%nat = [2; 3; 5]%nat.
Proof. reflexivity. Qed.

Example sorted_is_stable :
  sorted (fun p : Z * Q => - snd p) [(1%Z, 2); (2%Z, 5); (3%Z, 2); (4%Z, 5)]
  = [(2%Z, 5); (4%Z, 5); (1%Z, 2); (3%Z, 2)].
Proof. reflexivity. Qed.

Example linspace_three : map Qred (np.linspace (1 # 10) 90 3) = [1 # 10; 901 # 20; 90].
Proof. reflexivity. Qed.

Example arange_to_ten : map Qred (np.arange (2 # 10) 10 4) = [1 # 5; 21 # 5; 41 # 5].
Proof. reflexivity. Qed.

Example interp_halfway : np.interp 5 (0, 10) (60, 100) == 80.
Proof. reflexivity. Qed.

Example interp_on_last_point : np.interp 10 (0, 10) (60, 100) = 100.
Proof. reflexivity. Qed.

Example int_truncates : py_int (- (7 # 2)) = (-3)%Z /\ py_int (7 # 2) = 3%Z.
Proof. split; reflexivity. Qed.

Example pitch_of_deviation_9 : default_pitch_curve 9 = 45%Z.
Proof. reflexivity. Qed.

Example savgol_of_a_spike :
  exists y, savgol_filter (spikes 21 [10]%nat 429) = Ok y /\
            map Qred y = [-36; 24; 39; 24; -6; -36; 9; 44; 69; 84; 89; 84; 69; 44; 9; -36;
                          -6; 24; 39; 24; -36].
Proof. eexists. split; vm_compute; reflexivity. Qed.

Example peaks_of_a_curve :
  _local_maxima_1d [0; 1; 3; 3; 3; 2; 5; 1; 1; 4; 4] = [3; 6]%nat /\
  peak_prominence [0; 1; 3; 3; 3; 2; 5; 1; 1; 4; 4] 3 == 1 /\
  peak_prominence [0; 1; 3; 3; 3; 2; 5; 1; 1; 4; 4] 6 == 4 /\
  find_peaks [0; 1; 3; 3; 3; 2; 5; 1; 1; 4; 4] 4 = [6]%nat.
Proof. repeat split; vm_compute; reflexivity. Qed.

(** * Further properties of the program *)

(** ** What [_load_data] accepts *)

Lemma forallb_length_Forall (r : list float64) (rs : list (list float64)) :
  forallb (fun r' => (length r' =? length r)%nat) rs = true <->
  Forall (fun r' => length r' = length r) rs.
Proof.
  rewrite forallb_forall, Forall_forall.
  split; intros H r' Hr'; apply Nat.eqb_eq, H, Hr'.
Qed.

Lemma length_column (k : nat) (data : list (list float64)) :
  length (column k data) = length data.
Proof. apply length_map. Qed.

Lemma load_data_Some (rows : list (list float64)) (angles intensities : list float64) :
  _load_data rows = Some (angles, intensities) ->
  (2 <= length rows)%nat /\ Forall (fun r => length r = 2%nat) rows /\
  angles = column 0 rows /\ intensities = column 1 rows.
Proof.
  unfold _load_data, np.loadtxt. intros H.
  destruct rows as [| r rs]; [discriminate H |].
  destruct (forallb (fun r' => (length r' =? length r)%nat) rs) eqn:Esame; [| discriminate H].
  apply forallb_length_Forall in Esame.
  destruct (negb (ndim (r :: rs) =? 2)%nat || negb (shape_1 (r :: rs) =? 2)%nat) eqn:Eshape;
    [discriminate H |].
  injection H as <- <-.
  apply orb_false_elim in Eshape. destruct Eshape as [Edim Eshape].
  apply negb_false_iff, Nat.eqb_eq in Edim, Eshape. cbn [shape_1] in Eshape.
  split; [| split; [| split; reflexivity]].
  - destruct rs as [| r' rs]; [| simpl; lia].
    simpl in Edim. destruct (length r =? 1)%nat; discriminate Edim.
  - constructor; [exact Eshape |].
    eapply Forall_impl; [| exact Esame]. intros a Ha. cbn beta in Ha. lia.
Qed.

(** X1, [_load_data]: the two columns come back, each as long as the file
    has rows, when the file has two rows or more and every row has two
    cells, and only then.  A file of a single row is refused even if the
    row has two cells, because [np.loadtxt] hands back a one-dimensional
    array for it; so is an empty file. *)
Theorem load_data_two_rows (rows : list (list float64)) :
  match _load_data rows with
  | Some (angles, intensities) =>
      (2 <= length rows)%nat /\ Forall (fun r => length r = 2%nat) rows /\
      angles = column 0 rows /\ intensities = column 1 rows /\
      length angles = length rows /\ length intensities = length rows
  | None => (length rows < 2)%nat \/ ~ Forall (fun r => length r = 2%nat) rows
  end.
Proof.
  unfold _load_data, np.loadtxt.
  destruct rows as [| r rs]; [left; simpl; lia |].
  destruct (forallb (fun r' => (length r' =? length r)%nat) rs) eqn:Esame.
  - apply forallb_length_Forall in Esame.
    destruct rs as [| r' rs].
    + replace (negb (ndim [r] =? 2)%nat) with true; [left; simpl; lia |].
      simpl. destruct (length r =? 1)%nat; reflexivity.
    + destruct (negb (ndim (r :: r' :: rs) =? 2)%nat
                || negb (shape_1 (r :: r' :: rs) =? 2)%nat) eqn:Eshape.
      * right. intros Hall. inversion Hall as [| ? ? Hr _]; subst.
        simpl in Eshape. rewrite Hr in Eshape. discriminate Eshape.
      * apply orb_false_elim in Eshape. destruct Eshape as [_ Eshape].
        apply negb_false_iff, Nat.eqb_eq in Eshape. cbn [shape_1] in Eshape.
        rewrite !length_column.
        repeat split; try (simpl; lia).
        constructor; [exact Eshape |].
        eapply Forall_impl; [| exact Esame]. intros a Ha. cbn beta in Ha. lia.
  - right. intros Hall.
    assert (Esame' : forallb (fun r' => (length r' =? length r)%nat) rs = true).
    { apply forallb_length_Forall. inversion Hall as [| ? ? Hr Hrs]; subst.
      eapply Forall_impl; [| exact Hrs]. intros a Ha. cbn beta in Ha. lia. }
    congruence.
Qed.

(** ** The extrema found by [find_peaks] *)

Lemma skip_plateau_equal (x : list Q) (v : Q) (i_max fuel : nat) :
  forall i_ahead j,
    (i_ahead <= j < skip_plateau x v i_ahead i_max fuel)%nat -> nth j x 0 == v.
Proof.
  induction fuel as [| fuel IH]; intros i_ahead j Hj; cbn [skip_plateau] in Hj; [lia |].
  destruct ((i_ahead <? i_max)%nat && Qeqb (nth i_ahead x 0) v) eqn:E; [| lia].
  apply andb_prop in E. destruct E as [_ E]. apply Qeqb_eq in E.
  destruct (Nat.eq_dec j i_ahead) as [-> | Hne]; [exact E |].
  apply (IH (S i_ahead)). lia.
Qed.

(** A maximum reported by [_local_maxima_1d] is the middle of a plateau
    [l .. r] with a smaller sample on either side. *)
Lemma local_maxima_loop_spec (x : list Q) (i_max fuel : nat) :
  forall i p,
    In p (local_maxima_loop x i i_max fuel) ->
    exists l r,
      (i <= l <= p)%nat /\ (p <= r < i_max)%nat /\
      nth (l - 1) x 0 < nth p x 0 /\ nth (r + 1) x 0 < nth p x 0 /\
      forall j, (l <= j <= r)%nat -> nth j x 0 == nth p x 0.
Proof.
  induction fuel as [| fuel IH]; intros i p Hp; cbn [local_maxima_loop] in Hp;
    [contradiction |].
  destruct (i <? i_max)%nat eqn:E; [| contradiction].
  apply Nat.ltb_lt in E.
  assert (Hnext : In p (local_maxima_loop x (i + 1) i_max fuel) ->
                  exists l r,
                    (i <= l <= p)%nat /\ (p <= r < i_max)%nat /\
                    nth (l - 1) x 0 < nth p x 0 /\ nth (r + 1) x 0 < nth p x 0 /\
                    forall j, (l <= j <= r)%nat -> nth j x 0 == nth p x 0).
  { intros H. destruct (IH _ _ H) as (l & r & Hl & Hr & H'). exists l, r.
    split; [lia | split; [exact Hr | exact H']]. }
  destruct (Qltb (nth (i - 1) x 0) (nth i x 0)) eqn:Eleft; [| exact (Hnext Hp)].
  apply Qltb_lt in Eleft.
  remember (skip_plateau x (nth i x 0) (i + 1) i_max (length x)) as i_ahead eqn:Ea.
  destruct (Qltb (nth i_ahead x 0) (nth i x 0)) eqn:Eright; [| exact (Hnext Hp)].
  apply Qltb_lt in Eright.
  destruct (skip_plateau_bounds x (nth i x 0) (i + 1) i_max (length x)) as [Hlo Hhi].
  specialize (Hhi ltac:(lia)). rewrite <- Ea in Hlo, Hhi.
  assert (Hflat : forall j, (i <= j <= i_ahead - 1)%nat -> nth j x 0 == nth i x 0).
  { intros j Hj. destruct (Nat.eq_dec j i) as [-> | Hne]; [reflexivity |].
    apply (skip_plateau_equal x (nth i x 0) i_max (length x) (i + 1)).
    rewrite <- Ea. lia. }
  destruct Hp as [<- | Hp].
  - assert (Hmid : (i <= (i + (i_ahead - 1)) / 2 <= i_ahead - 1)%nat).
    { split.
      - apply Nat.div_le_lower_bound; lia.
      - apply Nat.Div0.div_le_upper_bound. lia. }
    pose proof (Hflat _ Hmid) as Hp.
    exists i, (i_ahead - 1)%nat.
    split; [lia |]. split; [lia |].
    split; [rewrite Hp; exact Eleft |]. split.
    + replace (i_ahead - 1 + 1)%nat with i_ahead by lia. rewrite Hp. exact Eright.
    + intros j Hj. rewrite Hp. apply Hflat, Hj.
  - destruct (IH _ _ Hp) as (l & r & Hl & Hr & H'). exists l, r.
    split; [lia | split; [exact Hr | exact H']].
Qed.

(** The maxima are reported from left to right. *)
Lemma local_maxima_loop_increasing (x : list Q) (i_max fuel : nat) :
  forall i,
    StronglySorted lt (local_maxima_loop x i i_max fuel) /\
    Forall (fun p => (i <= p)%nat) (local_maxima_loop x i i_max fuel).
Proof.
  induction fuel as [| fuel IH]; intros i; cbn [local_maxima_loop];
    [split; constructor |].
  destruct (i <? i_max)%nat eqn:E; [| split; constructor].
  assert (Hnext : StronglySorted lt (local_maxima_loop x (i + 1) i_max fuel) /\
                  Forall (fun p => (i <= p)%nat) (local_maxima_loop x (i + 1) i_max fuel)).
  { destruct (IH (i + 1)%nat) as [Hs Hf]. split; [exact Hs |].
    eapply Forall_impl; [| exact Hf]. intros a Ha. cbn beta in Ha. lia. }
  destruct (Qltb (nth (i - 1) x 0) (nth i x 0)); [| exact Hnext].
  remember (skip_plateau x (nth i x 0) (i + 1) i_max (length x)) as i_ahead eqn:Ea.
  destruct (Qltb (nth i_ahead x 0) (nth i x 0)); [| exact Hnext].
  destruct (skip_plateau_bounds x (nth i x 0) (i + 1) i_max (length x)) as [Hlo _].
  rewrite <- Ea in Hlo.
  assert (Hmid : (i <= (i + (i_ahead - 1)) / 2 <= i_ahead - 1)%nat).
  { split.
    - apply Nat.div_le_lower_bound; lia.
    - apply Nat.Div0.div_le_upper_bound. lia. }
  destruct (IH (i_ahead + 1)%nat) as [Hs Hf]. split.
  - constructor; [exact Hs |].
    eapply Forall_impl; [| exact Hf]. intros a Ha. cbn beta in Ha. lia.
  - constructor; [lia |].
    eapply Forall_impl; [| exact Hf]. intros a Ha. cbn beta in Ha. lia.
Qed.

Lemma StronglySorted_lt_NoDup (l : list nat) : StronglySorted lt l -> NoDup l.
Proof.
  induction 1 as [| a l Hs IH Hf]; constructor; [| exact IH].
  intros Hin. rewrite Forall_forall in Hf. specialize (Hf _ Hin). lia.
Qed.

Lemma find_peaks_NoDup (x : list Q) (prominence_squared : Q) :
  NoDup (find_peaks x prominence_squared).
Proof.
  unfold find_peaks, _local_maxima_1d. apply NoDup_filter, StronglySorted_lt_NoDup.
  apply local_maxima_loop_increasing.
Qed.

Lemma find_peaks_spec (x : list Q) (prominence_squared : Q) (p : nat) :
  In p (find_peaks x prominence_squared) ->
  exists l r,
    (1 <= l <= p)%nat /\ (p <= r)%nat /\ (r + 1 < length x)%nat /\
    nth (l - 1) x 0 < nth p x 0 /\ nth (r + 1) x 0 < nth p x 0 /\
    forall j, (l <= j <= r)%nat -> nth j x 0 == nth p x 0.
Proof.
  unfold find_peaks, _local_maxima_1d. intros H. apply filter_In in H.
  destruct H as [H _]. apply local_maxima_loop_spec in H.
  destruct H as (l & r & Hl & Hr & H'). exists l, r.
  split; [exact Hl |]. split; [lia |]. split; [lia | exact H'].
Qed.

Lemma nth_map_Qopp (x : list Q) (j : nat) : nth j (map Qopp x) 0 = - nth j x 0.
Proof. change 0 with (- 0) at 1. apply map_nth. Qed.

(** No sample is a peak and a valley. *)
Lemma peak_is_no_valley (x : list Q) (p q : Q) (idx : nat) :
  In idx (find_peaks x p) -> In idx (find_peaks (map Qopp x) q) -> False.
Proof.
  intros Hpeak Hvalley.
  apply find_peaks_spec in Hpeak. destruct Hpeak as (l & r & Hl & Hr & _ & Hleft & _ & Hflat).
  apply find_peaks_spec in Hvalley.
  destruct Hvalley as (l' & r' & Hl' & Hr' & _ & Hleft' & _ & Hflat').
  rewrite !nth_map_Qopp in Hleft'.
  assert (Hflat'' : forall j, (l' <= j <= r')%nat -> nth j x 0 == nth idx x 0).
  { intros j Hj. specialize (Hflat' j Hj). rewrite !nth_map_Qopp in Hflat'. lra. }
  destruct (Nat.le_gt_cases l l') as [Hle | Hgt].
  - destruct (Nat.eq_dec l l') as [-> | Hne].
    + lra.
    + specialize (Hflat (l' - 1)%nat ltac:(lia)). lra.
  - specialize (Hflat'' (l - 1)%nat ltac:(lia)). lra.
Qed.

Lemma extrema_NoDup (smoothed : list Q) : NoDup (extrema smoothed).
Proof.
  unfold extrema. apply NoDup_app.
  - apply find_peaks_NoDup.
  - apply find_peaks_NoDup.
  - intros idx Hp Hv. exact (peak_is_no_valley _ _ _ _ Hp Hv).
Qed.

Lemma extrema_interior (smoothed : list Q) (idx : nat) :
  In idx (extrema smoothed) -> (1 <= idx)%nat /\ (idx + 1 < length smoothed)%nat.
Proof.
  unfold extrema. intros H. apply in_app_or in H.
  destruct H as [H | H]; apply find_peaks_spec in H;
    destruct H as (l & r & Hl & Hr & Hn & _); rewrite ?length_map in Hn; lia.
Qed.

(** ** The features of [_extract_features] *)

Lemma mapM_In {A B : Type} (f : A -> result B) (l : list A) (bs : list B) (b : B) :
  mapM f l = Ok bs -> In b bs -> exists a, In a l /\ f a = Ok b.
Proof.
  revert bs. induction l as [| a l IH]; intros bs H Hb; cbn [mapM] in H.
  - injection H as <-. contradiction.
  - destruct (f a) as [b' |] eqn:Ea; [| discriminate]. cbn [bind] in H.
    destruct (mapM f l) as [bs' |] eqn:El; [| discriminate]. cbn [bind] in H.
    injection H as <-. destruct Hb as [<- | Hb].
    + exists a. split; [left; reflexivity | exact Ea].
    + destruct (IH bs' eq_refl Hb) as (a' & Ha' & Hf). exists a'.
      split; [right; exact Ha' | exact Hf].
Qed.

Lemma mapM_length {A B : Type} (f : A -> result B) (l : list A) (bs : list B) :
  mapM f l = Ok bs -> length bs = length l.
Proof.
  revert bs. induction l as [| a l IH]; intros bs H; cbn [mapM] in H.
  - injection H as <-. reflexivity.
  - destruct (f a) as [b' |]; [| discriminate]. cbn [bind] in H.
    destruct (mapM f l) as [bs' |]; [| discriminate]. cbn [bind] in H.
    injection H as <-. simpl. f_equal. apply IH. reflexivity.
Qed.

Lemma getitem_nth_error (x : list Q) (idx : nat) (v : Q) :
  getitem x idx = Ok v -> nth_error x idx = Some v.
Proof.
  unfold getitem. destruct (nth_error x idx); [intros [= ->]; reflexivity | discriminate].
Qed.

Lemma extract_features_inv (angles intensities : list Q) (features : list Feature) :
  _extract_features angles intensities = Ok features ->
  exists smoothed unsorted,
    savgol_filter intensities = Ok smoothed /\
    length smoothed = length intensities /\
    mapM (feature_at angles smoothed) (set (extrema smoothed)) = Ok unsorted /\
    features = sorted (fun x => - score x) unsorted.
Proof.
  unfold _extract_features, features_in_set_order. intros H.
  destruct (savgol_filter intensities) as [smoothed |] eqn:Es; [| discriminate].
  cbn [bind] in H.
  destruct (mapM (feature_at angles smoothed) (set (extrema smoothed))) as [unsorted |] eqn:Em;
    [| discriminate].
  cbn [bind] in H. injection H as <-.
  exists smoothed, unsorted. split; [reflexivity |]. split; [| split; [exact Em | reflexivity]].
  destruct (Nat.lt_ge_cases (length intensities) 11) as [Hshort | Hlong].
  - rewrite savgol_filter_short in Es by exact Hshort. discriminate.
  - destruct (savgol_filter_ok intensities Hlong) as (y & Hy & Hlen). congruence.
Qed.

Lemma feature_at_inv (angles smoothed : list Q) (idx : nat) (f : Feature) :
  feature_at angles smoothed idx = Ok f ->
  exists a s,
    nth_error angles idx = Some a /\ nth_error smoothed idx = Some s /\
    f = {| angle := a; intensity := s; deviation := Qabs (a - 90);
           score := s * (1 + Qabs (a - 90) / 10) |}.
Proof.
  unfold feature_at. intros H.
  destruct (getitem angles idx) as [a |] eqn:Ea; [| discriminate H].
  destruct (getitem smoothed idx) as [s |] eqn:Ev; [| discriminate H].
  exists a, s. split; [apply getitem_nth_error, Ea |].
  split; [apply getitem_nth_error, Ev |].
  unfold bind in H. congruence.
Qed.

(** X2, [_extract_features]: every feature is read off a sample that is
    neither the first nor the last of the file.  Its angle is the angle
    of that sample, its intensity the smoothed (not the measured) value
    there, its deviation the distance of the angle from 90, which is not
    negative, and its score the intensity times [1 + deviation / 10]: the
    score has the sign of the smoothed intensity and is at least as far
    from zero. *)
Theorem extract_features_interior
  (angles intensities : list Q) (features : list Feature) (f : Feature) :
  _extract_features angles intensities = Ok features -> In f features ->
  exists smoothed idx,
    savgol_filter intensities = Ok smoothed /\
    (1 <= idx)%nat /\ (idx + 1 < length intensities)%nat /\
    nth_error angles idx = Some (angle f) /\
    nth_error smoothed idx = Some (intensity f) /\
    deviation f = Qabs (angle f - 90) /\
    0 <= deviation f /\
    score f = intensity f * (1 + deviation f / 10) /\
    (0 <= intensity f -> intensity f <= score f) /\
    (intensity f <= 0 -> score f <= intensity f).
Proof.
  intros H Hf.
  destruct (extract_features_inv _ _ _ H) as (smoothed & unsorted & Hs & Hlen & Hm & ->).
  apply (Permutation_in _ (Permutation_sym (sorted_perm _ unsorted))) in Hf.
  destruct (mapM_In _ _ _ _ Hm Hf) as (idx & Hidx & Hat).
  apply set_In, extrema_interior in Hidx. rewrite Hlen in Hidx.
  destruct (feature_at_inv _ _ _ _ Hat) as (a & s & Ea & Ev & ->).
  cbn [angle intensity deviation score].
  exists smoothed, idx.
  pose proof (Qabs_nonneg (a - 90)) as Hdev.
  split; [exact Hs |]. split; [lia |]. split; [lia |].
  split; [exact Ea |]. split; [exact Ev |]. split; [reflexivity |].
  split; [exact Hdev |]. split; [reflexivity |]. split.
  - intros Hpos. assert (0 <= s * (Qabs (a - 90) / 10)); [| lra].
    apply Qmult_le_0_compat; [exact Hpos |]. apply Qle_shift_div_l; lra.
  - intros Hneg. assert (0 <= (- s) * (Qabs (a - 90) / 10)); [| lra].
    apply Qmult_le_0_compat; [lra |]. apply Qle_shift_div_l; lra.
Qed.

Lemma extract_features_interior_witness :
  let angles := even_angles 21 in
  let intensities := map (fun a => - ((a - 20) * (a - 20))) (even_angles 21) in
  exists features f,
    _extract_features angles intensities = Ok features /\ In f features /\
    exists smoothed idx,
      savgol_filter intensities = Ok smoothed /\
      (1 <= idx)%nat /\ (idx + 1 < length intensities)%nat /\
      nth_error angles idx = Some (angle f) /\
      nth_error smoothed idx = Some (intensity f).
Proof.
  intros angles intensities.
  destruct (_extract_features angles intensities) as [[| f rest] | e] eqn:E;
    [vm_compute in E; discriminate E | | vm_compute in E; discriminate E].
  exists (f :: rest), f.
  split; [reflexivity |]. split; [left; reflexivity |].
  destruct (extract_features_interior angles intensities (f :: rest) f E (or_introl eq_refl))
    as (smoothed & idx & H1 & H2 & H3 & H4 & H5 & _).
  exists smoothed, idx. repeat split; assumption.
Defined.

Lemma lt_pow64 (n : nat) : (Z.of_nat n < 2 ^ 64)%Z -> (n < 2 ^ 64)%nat.
Proof.
  intros H. apply Nat2Z.inj_lt. rewrite Nat2Z.inj_pow. exact H.
Qed.

Lemma NoDup_interior_length (l : list nat) (n : nat) :
  NoDup l -> (forall idx, In idx l -> (1 <= idx)%nat /\ (idx + 1 < n)%nat) ->
  (length l + 2 <= n)%nat \/ l = [].
Proof.
  intros Hnd Hin. destruct l as [| a l]; [right; reflexivity | left].
  assert (Hn : (3 <= n)%nat) by (specialize (Hin a (or_introl eq_refl)); lia).
  assert (Hincl : incl (a :: l) (seq 1 (n - 2))).
  { intros idx Hidx. apply in_seq. specialize (Hin idx Hidx). lia. }
  pose proof (NoDup_incl_length Hnd Hincl) as Hle. rewrite length_seq in Hle. lia.
Qed.

(** X3, [_extract_features]: [set(peaks + valleys)] drops nothing, since
    no sample is a peak and a valley at once: there is one feature for
    every peak and one for every valley that pass the prominence test,
    and they are at most all samples but the first and the last. *)
Theorem extract_features_count
  (angles intensities smoothed : list Q) (features : list Feature) :
  (Z.of_nat (length intensities) < 2 ^ 64)%Z ->
  savgol_filter intensities = Ok smoothed ->
  _extract_features angles intensities = Ok features ->
  let prominence_squared := np.var smoothed * ((1 # 2) * (1 # 2)) in
  length features
  = (length (find_peaks smoothed prominence_squared)
     + length (find_peaks (map Qopp smoothed) prominence_squared))%nat /\
  (length features + 2 <= length intensities)%nat.
Proof.
  intros Hsize Hs H prominence_squared.
  destruct (extract_features_inv _ _ _ H) as (smoothed' & unsorted & Hs' & Hlen & Hm & ->).
  assert (smoothed' = smoothed) by congruence. subst smoothed'.
  assert (Hcount : length (sorted (fun x => - score x) unsorted) = length (extrema smoothed)).
  { rewrite <- (Permutation_length (sorted_perm _ unsorted)).
    rewrite (mapM_length _ _ _ Hm).
    rewrite (Permutation_length (set_extrema smoothed ltac:(rewrite Hlen; apply lt_pow64, Hsize))).
    rewrite nodup_fixed_point by apply extrema_NoDup. reflexivity. }
  split.
  - rewrite Hcount. unfold extrema. apply length_app.
  - rewrite Hcount.
    destruct (NoDup_interior_length (extrema smoothed) (length intensities)
                (extrema_NoDup smoothed)) as [Hle | Hnil].
    + intros idx Hidx. rewrite <- Hlen. apply extrema_interior, Hidx.
    + exact Hle.
    + rewrite Hnil. simpl.
      destruct (Nat.lt_ge_cases (length intensities) 11) as [Hshort | Hlong]; [| lia].
      rewrite savgol_filter_short in Hs by exact Hshort. discriminate.
Qed.

Lemma extract_features_count_witness :
  exists smoothed features,
    (Z.of_nat (length three_spikes) < 2 ^ 64)%Z /\
    savgol_filter three_spikes = Ok smoothed /\
    _extract_features (even_angles 68) three_spikes = Ok features /\
    length features
    = (length (find_peaks smoothed (np.var smoothed * ((1 # 2) * (1 # 2))))
       + length (find_peaks (map Qopp smoothed) (np.var smoothed * ((1 # 2) * (1 # 2)))))%nat /\
    (length features + 2 <= length three_spikes)%nat.
Proof.
  assert (Hsize : (Z.of_nat (length three_spikes) < 2 ^ 64)%Z) by (vm_compute; reflexivity).
  destruct (savgol_filter three_spikes) as [smoothed | e] eqn:Es;
    [| vm_compute in Es; discriminate Es].
  destruct (_extract_features (even_angles 68) three_spikes) as [features | e] eqn:E;
    [| vm_compute in E; discriminate E].
  exists smoothed, features.
  split; [exact Hsize |]. split; [reflexivity |]. split; [reflexivity |].
  exact (extract_features_count (even_angles 68) three_spikes smoothed features Hsize Es E).
Defined.

(** ** Louder for stronger, longer for higher-scored *)

Lemma py_int_opp (q : Q) : py_int (- q) = (- py_int q)%Z.
Proof.
  destruct q as [n d]. unfold py_int. cbn [Qopp Qnum Qden]. apply Z.quot_opp_l. lia.
Qed.

Lemma py_int_monotone (x y : Q) : x <= y -> (py_int x <= py_int y)%Z.
Proof.
  intros H.
  assert (Hneg : forall q, py_int q = (- py_int (- q))%Z)
    by (intros q; rewrite py_int_opp; lia).
  destruct (Qlt_le_dec x 0) as [Hx | Hx]; destruct (Qlt_le_dec y 0) as [Hy | Hy].
  - rewrite (Hneg x), (Hneg y), !py_int_floor by lra.
    assert (Qfloor (- y) <= Qfloor (- x))%Z by (apply Qfloor_resp_le; lra). lia.
  - rewrite (Hneg x), !py_int_floor by lra.
    assert (Qfloor 0 <= Qfloor (- x))%Z by (apply Qfloor_resp_le; lra).
    assert (Qfloor 0 <= Qfloor y)%Z by (apply Qfloor_resp_le; lra).
    change (Qfloor 0) with 0%Z in *. lia.
  - lra.
  - rewrite !py_int_floor by lra. apply Qfloor_resp_le, H.
Qed.

Lemma np_clip_int_monotone (x y lo hi : Z) :
  (x <= y)%Z -> (np.clip_int x lo hi <= np.clip_int y lo hi)%Z.
Proof. unfold np.clip_int. lia. Qed.

Lemma np_interp_monotone (x y xp0 xp1 fp0 fp1 : Q) :
  fp0 <= fp1 -> x <= y ->
  np.interp x (xp0, xp1) (fp0, fp1) <= np.interp y (xp0, xp1) (fp0, fp1).
Proof.
  intros Hfp Hxy.
  pose proof (np_interp_range x xp0 xp1 fp0 fp1 Hfp) as Hx.
  pose proof (np_interp_range y xp0 xp1 fp0 fp1 Hfp) as Hy.
  revert Hx Hy. unfold np.interp.
  repeat qcase; intros Hx Hy; try lra.
  all: try (exfalso; match goal with H : ~ _ == _ |- _ => apply H; apply Qle_antisym; lra end).
  all: assert (Hd : 0 < xp1 - xp0) by lra.
  all: assert (Hs : 0 <= (fp1 - fp0) / (xp1 - xp0)) by (apply Qle_shift_div_l; lra).
  all: assert (Hm : (fp1 - fp0) / (xp1 - xp0) * (x - xp0)
                    <= (fp1 - fp0) / (xp1 - xp0) * (y - xp0))
         by (rewrite !(Qmult_comm ((fp1 - fp0) / (xp1 - xp0)));
             apply Qmult_le_compat_r; lra).
  all: lra.
Qed.

Lemma py_min_le_py_max (l : list Q) : py_min l <= py_max l.
Proof.
  destruct l as [| a l]; [apply Qle_refl |].
  apply Qle_trans with a; [apply py_min_le | apply py_max_ge]; left; reflexivity.
Qed.

(** X5, [_generate_events]: with a dynamic range whose first entry is not
    above the second, a feature of higher intensity is never given the
    lower velocity.  A feature of the largest intensity gets the upper
    end of the range, and, when the intensities are not all the same, a
    feature of the least intensity gets the lower end, each clipped to
    [0, 127]. *)
Theorem velocity_follows_intensity
  (cfg : Config) (features : list Feature) (i j : nat) (fi fj : Feature) (ei ej : Event) :
  (fst (dynamic_range cfg) <= snd (dynamic_range cfg))%Z ->
  nth_error features i = Some fi -> nth_error features j = Some fj ->
  nth_error (_generate_events cfg features) i = Some ei ->
  nth_error (_generate_events cfg features) j = Some ej ->
  (intensity fi <= intensity fj -> (velocity ei <= velocity ej)%Z) /\
  (intensity fj == py_max (map intensity features) ->
   velocity ej = np.clip_int (snd (dynamic_range cfg)) 0 127) /\
  (py_min (map intensity features) < py_max (map intensity features) ->
   intensity fi == py_min (map intensity features) ->
   velocity ei = np.clip_int (fst (dynamic_range cfg)) 0 127).
Proof.
  intros Hrange Hfi Hfj Hei Hej.
  destruct (generate_events_nth cfg features i fi Hfi) as (ti & _ & Hei').
  destruct (generate_events_nth cfg features j fj Hfj) as (tj & _ & Hej').
  assert (ei = event_of cfg features ti fi) by congruence.
  assert (ej = event_of cfg features tj fj) by congruence.
  subst ei ej. unfold event_of. cbn [velocity].
  pose proof (py_min_le_py_max (map intensity features)) as Hmm.
  split; [| split].
  - intros Hle. apply np_clip_int_monotone, py_int_monotone, np_interp_monotone.
    + unfold dynamic_range_Q. cbn [fst snd]. rewrite <- Zle_Qle. exact Hrange.
    + exact Hle.
  - intros Hmax. f_equal. unfold dynamic_range_Q, np.interp.
    qcase; [apply py_int_inject_Z |].
    qcase; [lra |].
    qcase; [apply py_int_inject_Z | lra].
  - intros Hspread Hmin. f_equal. unfold dynamic_range_Q, np.interp.
    qcase; [lra |].
    qcase; [lra |].
    qcase; [lra |].
    qcase; [apply py_int_inject_Z |].
    exfalso. apply E2. rewrite Hmin. reflexivity.
Qed.

Lemma velocity_follows_intensity_witness :
  let features := [feature 80 7 10 14; feature 90 5 0 5; feature 70 6 20 18] in
  let events := _generate_events Config__init__ features in
  (60 <= 100)%Z /\
  (intensity (feature 90 5 0 5) <= intensity (feature 70 6 20 18) ->
   (velocity (nth 1 events (Build_Event 0 NaN 0 0))
    <= velocity (nth 2 events (Build_Event 0 NaN 0 0)))%Z).
Proof.
  intros features events.
  assert (H : (fst (dynamic_range Config__init__) <= snd (dynamic_range Config__init__))%Z)
    by (vm_compute; discriminate).
  split; [exact H |].
  exact (proj1 (velocity_follows_intensity Config__init__ features 1 2
                  (feature 90 5 0 5) (feature 70 6 20 18)
                  (nth 1 events (Build_Event 0 NaN 0 0))
                  (nth 2 events (Build_Event 0 NaN 0 0))
                  H eq_refl eq_refl eq_refl eq_refl)).
Defined.






(** ** The pitches of the default configuration *)

Lemma Qfloor_nonneg (q : Q) : 0 <= q -> (0 <= Qfloor q)%Z.
Proof.
  intros H. change 0%Z with (Qfloor 0). apply Qfloor_resp_le, H.
Qed.

Lemma Qfloor_lt_inject (q : Q) (z : Z) : q < inject_Z z <-> (Qfloor q < z)%Z.
Proof.
  split; intros H.
  - pose proof (Qfloor_le q) as Hf.
    rewrite Zlt_Qlt. apply Qle_lt_trans with q; assumption.
  - pose proof (Qlt_floor q) as Hf.
    apply Qlt_le_trans with (inject_Z (Qfloor q + 1)); [exact Hf |].
    rewrite <- Zle_Qle. lia.
Qed.

Lemma sqrt_floor_lt (d : Q) (b : Z) :
  0 <= d -> (0 < b)%Z ->
  (Z.sqrt (Qfloor (25 * d)) < b)%Z <-> d < inject_Z (b * b) / 25.
Proof.
  intros Hd Hb.
  assert (Hf : (0 <= Qfloor (25 * d))%Z) by (apply Qfloor_nonneg; lra).
  rewrite <- Z.sqrt_lt_square by lia.
  rewrite <- Qfloor_lt_inject.
  assert (E : inject_Z (b * b) / 25 * 25 == inject_Z (b * b)) by field.
  split; intros H; lra.
Qed.

Lemma default_pitch_curve_monotone (d d' : Q) :
  d <= d' -> (default_pitch_curve d <= default_pitch_curve d')%Z.
Proof.
  intros H. unfold default_pitch_curve.
  assert (Qfloor (25 * d) <= Qfloor (25 * d'))%Z by (apply Qfloor_resp_le; lra).
  pose proof (Z.sqrt_le_mono _ _ H0). lia.
Qed.

(** X7, [Config] and [_generate_events]: with the pitch curve of the
    default configuration, [int(30 + 5 * x ** 0.5)], a deviation that is
    not negative gives a pitch from 30 to 127, which does not fall when
    the deviation grows.  It is 30 for the deviation 0, 35 or more from
    the deviation 1 on, and 77 at most for deviations up to 90, which are
    those of the angles from 0 to 180. *)
Theorem default_pitch_range (features : list Feature) (t t' : Q) (f f' : Feature) :
  0 <= deviation f ->
  let p := pitch (event_of Config__init__ features t f) in
  (30 <= p <= 127)%Z /\
  (deviation f == 0 -> p = 30%Z) /\
  (1 <= deviation f -> (35 <= p)%Z) /\
  (deviation f <= 90 -> (p <= 77)%Z) /\
  (deviation f <= deviation f' -> (p <= pitch (event_of Config__init__ features t' f'))%Z).
Proof.
  intros Hd p. unfold p, event_of. cbn [pitch pitch_curve Config__init__].
  assert (Hf : (0 <= Qfloor (25 * deviation f))%Z) by (apply Qfloor_nonneg; lra).
  pose proof (Z.sqrt_nonneg (Qfloor (25 * deviation f))) as Hs.
  pose proof (sqrt_floor_lt (deviation f) 1 Hd ltac:(lia)) as H1.
  pose proof (sqrt_floor_lt (deviation f) 5 Hd ltac:(lia)) as H5.
  pose proof (sqrt_floor_lt (deviation f) 48 Hd ltac:(lia)) as H48.
  assert (E1 : inject_Z (1 * 1) / 25 == 1 # 25) by reflexivity.
  assert (E5 : inject_Z (5 * 5) / 25 == 1) by reflexivity.
  assert (E48 : inject_Z (48 * 48) / 25 == 2304 # 25) by reflexivity.
  rewrite E1 in H1. rewrite E5 in H5. rewrite E48 in H48.
  unfold default_pitch_curve in *. unfold np.clip_int.
  split; [lia |]. split; [| split; [| split]].
  - intros H. assert (H' : deviation f < 1 # 25) by lra. apply H1 in H'. lia.
  - intros H.
    assert (H' : ~ (Z.sqrt (Qfloor (25 * deviation f)) < 5)%Z).
    { intros Hc. apply H5 in Hc. lra. }
    lia.
  - intros H. assert (H' : deviation f < 2304 # 25) by lra. apply H48 in H'. lia.
  - intros H.
    pose proof (default_pitch_curve_monotone _ _ H) as Hm.
    unfold default_pitch_curve in Hm. lia.
Qed.

Lemma default_pitch_range_witness :
  let f := feature 81 5 9 10 in
  let p := pitch (event_of Config__init__ [f] (1 # 10) f) in
  0 <= deviation f /\ (30 <= p <= 127)%Z /\
  (1 <= deviation f -> (35 <= p)%Z) /\ (deviation f <= 90 -> (p <= 77)%Z).
Proof.
  intros f p.
  assert (Hd : 0 <= deviation f) by (vm_compute; discriminate).
  split; [exact Hd |].
  destruct (default_pitch_range [f] (1 # 10) (1 # 10) f f Hd) as (H1 & _ & H2 & H3 & _).
  split; [exact H1 |]. split; [exact H2 | exact H3].
Defined.

(** ** What [create_midi] puts on which track *)


Lemma melody_notes_calls (events : list Event) (midi : MIDIFile) :
  exists k,
    fst (melody_notes events midi)
    = midi ++ map (fun evt => addNote 0 0 (pitch evt) (time evt) (duration evt) (velocity evt))
                  (firstn k events).
Proof.
  revert midi. induction events as [| e events IH]; intros midi.
  - exists 0%nat. cbn [melody_notes fst firstn map]. rewrite app_nil_r. reflexivity.
  - cbn [melody_notes]. unfold MIDIFile_addNote. cbn [time_to_ticks bind].
    destruct (duration e) as [q | | |] eqn:Ed; cbn [time_to_ticks bind fst];
      try (exists 0%nat; cbn [firstn map]; rewrite app_nil_r; reflexivity).
    destruct (IH (midi ++ [addNote 0 0 (pitch e) (time e) (Finite q) (velocity e)]))
      as (k & Hk).
    exists (S k). rewrite Hk. cbn [firstn map]. rewrite <- app_assoc, Ed. reflexivity.
Qed.

(** The loop of the melody comes to its end when, and only when, no
    duration is NaN or infinite. *)
Lemma melody_notes_Ok (events : list Event) (midi : MIDIFile) (u : unit) :
  snd (melody_notes events midi) = Ok u ->
  fst (melody_notes events midi)
  = midi ++ map (fun evt => addNote 0 0 (pitch evt) (time evt) (duration evt) (velocity evt))
                events /\
  Forall (fun e => exists d, duration e = Finite d) events.
Proof.
  revert midi. induction events as [| e events IH]; intros midi H.
  - cbn [melody_notes fst map]. rewrite app_nil_r. split; [reflexivity | constructor].
  - cbn [melody_notes] in H |- *. unfold MIDIFile_addNote in H |- *.
    cbn [time_to_ticks bind] in H |- *.
    destruct (duration e) as [q | | |] eqn:Ed; cbn [time_to_ticks bind snd] in H |- *;
      try discriminate H.
    destruct (IH _ H) as [Hm Hall]. rewrite Hm. cbn [map]. rewrite <- app_assoc, Ed.
    split; [reflexivity |]. constructor; [exists q; exact Ed | exact Hall].
Qed.

Lemma melody_notes_finite (events : list Event) (midi : MIDIFile) :
  Forall (fun e => exists d, duration e = Finite d) events ->
  melody_notes events midi
  = (midi ++ map (fun evt => addNote 0 0 (pitch evt) (time evt) (duration evt) (velocity evt))
                 events, Ok tt).
Proof.
  intros H. revert midi. induction H as [| e events (d & Hd) _ IH]; intros midi.
  - cbn [melody_notes map]. rewrite app_nil_r. reflexivity.
  - cbn [melody_notes]. unfold MIDIFile_addNote. rewrite Hd. cbn [time_to_ticks bind].
    rewrite IH. cbn [map]. rewrite <- app_assoc, Hd. reflexivity.
Qed.

(** The calls of [create_midi]: all of them when it returns, and some of
    them when the melody is cut short. *)
Lemma create_midi_shape (cfg : Config) (events : list Event) (d : Q) (g : np.random.RandomState) :
  exists grace,
    length grace = Z.to_nat (py_int (d / 3)) /\
    Forall (grace_note d) grace /\
    (forall c,
       In c (fst (create_midi cfg events d g)) ->
       In c (flat_map (fun ip => [addProgramChange (Z.of_nat (fst ip)) 0 0 (snd (snd ip));
                                  addTempo (Z.of_nat (fst ip)) 0 (base_bpm cfg)])
                      (combine (seq 0 (length (instruments cfg))) (instruments cfg))
             ++ map (fun evt => addNote 0 0 (pitch evt) (time evt) (duration evt) (velocity evt))
                    events
             ++ [addControllerEvent 2 0 0 91 60] ++ grace ++ pulses d)) /\
    (forall g',
       snd (create_midi cfg events d g) = Ok g' ->
       fst (create_midi cfg events d g)
       = flat_map (fun ip => [addProgramChange (Z.of_nat (fst ip)) 0 0 (snd (snd ip));
                              addTempo (Z.of_nat (fst ip)) 0 (base_bpm cfg)])
                  (combine (seq 0 (length (instruments cfg))) (instruments cfg))
         ++ map (fun evt => addNote 0 0 (pitch evt) (time evt) (duration evt) (velocity evt))
                events
         ++ [addControllerEvent 2 0 0 91 60] ++ grace ++ pulses d /\
       Forall (fun e => exists d', duration e = Finite d') events).
Proof.
  unfold create_midi.
  set (header := flat_map (fun ip => [addProgramChange (Z.of_nat (fst ip)) 0 0 (snd (snd ip));
                                      addTempo (Z.of_nat (fst ip)) 0 (base_bpm cfg)])
                          (combine (seq 0 (length (instruments cfg))) (instruments cfg))).
  set (note := fun evt => addNote 0 0 (pitch evt) (time evt) (duration evt) (velocity evt)).
  destruct (add_ambient_effects_shape (header ++ map note events) d g)
    as (grace & Hshape & Hlen & Hgrace).
  exists grace. split; [exact Hlen |]. split; [exact Hgrace |].
  destruct (melody_notes_calls events header) as (k & Hk). fold note in Hk.
  pose proof (melody_notes_Ok events header) as Hok. fold note in Hok.
  destruct (melody_notes events header) as [midi [u | e]]; cbn [fst snd] in Hk, Hok.
  - destruct (Hok u eq_refl) as [Hm Hfin]. clear Hok Hk. subst midi.
    destruct (_add_ambient_effects (header ++ map note events) d g) as [midi' g0].
    cbn [fst snd] in Hshape |- *. rewrite Hshape, <- app_assoc.
    split; [intros c Hc; exact Hc |].
    intros g' _. split; [reflexivity | exact Hfin].
  - cbn [fst snd]. split; [| intros g' H; discriminate H].
    intros c Hc. rewrite Hk in Hc. apply in_app_or in Hc. apply in_or_app.
    destruct Hc as [Hc | Hc]; [left; exact Hc | right].
    apply in_or_app. left. apply in_map_iff in Hc. destruct Hc as (evt & <- & Hevt).
    apply in_map. rewrite <- (firstn_skipn k events). apply in_or_app. left. exact Hevt.
Qed.



(** ** What [process_file] does with a file *)

Lemma finite_values_inv (l : list float64) (qs : list Q) :
  finite_values l = Some qs -> l = map Finite qs.
Proof.
  revert qs. induction l as [| x l IH]; intros qs H; cbn [finite_values fold_right] in H.
  - injection H as <-. reflexivity.
  - fold (finite_values l) in H.
    destruct x as [q | | |]; try discriminate H.
    destruct (finite_values l) as [qs' |]; [| discriminate H].
    injection H as <-. cbn [map]. f_equal. apply IH. reflexivity.
Qed.

Lemma rows_of_cons (a i : Q) (angles intensities : list Q) :
  rows_of (a :: angles) (i :: intensities) = [Finite a; Finite i] :: rows_of angles intensities.
Proof. reflexivity. Qed.

Lemma columns_rows_of (rows : list (list float64)) (angles intensities : list Q) :
  Forall (fun r => length r = 2%nat) rows ->
  column 0 rows = map Finite angles -> column 1 rows = map Finite intensities ->
  rows = rows_of angles intensities /\
  length angles = length rows /\ length intensities = length rows.
Proof.
  intros Hall. revert angles intensities.
  induction Hall as [| r rows Hr _ IH]; intros angles intensities Ha Hi.
  - destruct angles; [| discriminate Ha]. destruct intensities; [| discriminate Hi].
    repeat split.
  - destruct angles as [| a angles]; [discriminate Ha |].
    destruct intensities as [| i intensities]; [discriminate Hi |].
    cbn [column map] in Ha, Hi. injection Ha as Ha0 Ha. injection Hi as Hi0 Hi.
    destruct (IH angles intensities Ha Hi) as (-> & Hla & Hli).
    destruct r as [| x [| y [| z r]]]; try discriminate Hr.
    cbn [nth] in Ha0, Hi0. subst x y. rewrite rows_of_cons.
    split; [reflexivity |]. simpl. split; congruence.
Qed.

Lemma rows_of_finite (angles intensities : list Q) :
  Forall (fun r => exists a i, r = [Finite a; Finite i]) (rows_of angles intensities).
Proof.
  unfold rows_of. apply Forall_forall. intros r Hr. apply in_map_iff in Hr.
  destruct Hr as ([a i] & <- & _). exists a, i. reflexivity.
Qed.

Lemma finite_rows_rows_of (rows : list (list float64)) :
  Forall (fun r => exists a i, r = [Finite a; Finite i]) rows ->
  exists angles intensities,
    rows = rows_of angles intensities /\
    length angles = length rows /\ length intensities = length rows.
Proof.
  induction 1 as [| r rows (a & i & ->) _ (angles & intensities & -> & Ha & Hi)].
  - exists [], []. repeat split.
  - exists (a :: angles), (i :: intensities). rewrite rows_of_cons.
    split; [reflexivity |]. simpl. split; congruence.
Qed.

Lemma length_rows_of (angles intensities : list Q) :
  length angles = length intensities -> length (rows_of angles intensities) = length angles.
Proof.
  intros H. unfold rows_of. rewrite length_map, length_combine. lia.
Qed.

(** The files that [process_file] takes as far as the extraction: rows of
    two finite cells, two at least. *)
Lemma process_file_inv (cfg : Config) (rows : list (list float64)) (g : np.random.RandomState) :
  (exists angles intensities,
      rows = rows_of angles intensities /\ length angles = length intensities /\
      (2 <= length angles)%nat) \/
  process_file cfg rows g = Ok LoadFailed \/
  exists angles intensities, process_file cfg rows g = Ok (ExtractingNonFinite angles intensities).
Proof.
  unfold process_file.
  destruct (_load_data rows) as [[angles intensities] |] eqn:Eload; [| right; left; reflexivity].
  destruct (load_data_Some _ _ _ Eload) as (Hn & Hall & -> & ->).
  destruct (finite_values (column 0 rows)) as [angles' |] eqn:Ea;
    [| right; right; eexists; eexists; reflexivity].
  destruct (finite_values (column 1 rows)) as [intensities' |] eqn:Ei;
    [| right; right; eexists; eexists; reflexivity].
  left. apply finite_values_inv in Ea, Ei.
  destruct (columns_rows_of rows angles' intensities' Hall Ea Ei) as (E & Hla & Hli).
  exists angles', intensities'. split; [exact E |]. split; lia.
Qed.

Lemma extract_features_short (angles intensities : list Q) :
  (length intensities < 11)%nat -> _extract_features angles intensities = Raise ValueError.
Proof.
  intros H. unfold _extract_features, features_in_set_order.
  rewrite savgol_filter_short by exact H. reflexivity.
Qed.

(** X11, [process_file]: a file of two to ten rows of two finite cells
    ends the call with the [ValueError] of [savgol_filter]: the file is
    loaded, the window of eleven samples does not fit, and nothing
    catches the exception in [process_file]. *)
Theorem process_file_raises
  (cfg : Config) (rows : list (list float64)) (g : np.random.RandomState) :
  (2 <= length rows < 11)%nat ->
  Forall (fun r => exists a i, r = [Finite a; Finite i]) rows ->
  process_file cfg rows g = Raise ValueError.
Proof.
  intros Hn Hall.
  destruct (finite_rows_rows_of rows Hall) as (angles & intensities & -> & Ha & Hi).
  rewrite process_file_rows_of by lia.
  rewrite extract_features_short by lia. reflexivity.
Qed.

Lemma process_file_raises_witness :
  let rows := rows_of [10; 20; 30] [1; 5; 2] in
  (2 <= length rows < 11)%nat /\
  Forall (fun r => exists a i, r = [Finite a; Finite i]) rows /\
  process_file Config__init__ rows some_state = Raise ValueError.
Proof.
  intros rows.
  assert (Hn : (2 <= length rows < 11)%nat) by (simpl; lia).
  assert (Hall : Forall (fun r => exists a i, r = [Finite a; Finite i]) rows).
  { repeat constructor; eexists; eexists; reflexivity. }
  split; [exact Hn |]. split; [exact Hall |].
  exact (process_file_raises Config__init__ rows some_state Hn Hall).
Defined.

(** The other way to an exception: the file of thirty samples with the
    flat maximum of height zero is loaded and gives three features, and
    [addNote] refuses the first event, whose duration is NaN. *)
Example basin_file_is_refused :
  process_file Config__init__ basin_rows some_state = Raise ValueError.
Proof. vm_compute. reflexivity. Qed.

Lemma process_file_Written
  (cfg : Config) (rows : list (list float64)) (g g' : np.random.RandomState)
  (features : list Feature) (events : list Event) (midi : MIDIFile) :
  process_file cfg rows g = Ok (Written features events midi g') ->
  exists angles intensities,
    rows = rows_of angles intensities /\ length angles = length intensities /\
    _extract_features angles intensities = Ok features /\
    features <> [] /\
    events = _generate_events cfg (firstn 50 features) /\
    create_midi cfg events (max_duration cfg) g = (midi, Ok g').
Proof.
  intros H.
  destruct (process_file_inv cfg rows g)
    as [(angles & intensities & -> & Hlen & Hn) | [H' | (a & i & H')]];
    [| congruence | congruence].
  rewrite process_file_rows_of in H by assumption.
  exists angles, intensities. split; [reflexivity |]. split; [exact Hlen |].
  destruct (_extract_features angles intensities) as [fs |]; [| discriminate H].
  cbn [bind] in H. destruct fs as [| f fs]; [discriminate H |].
  destruct (create_midi cfg (_generate_events cfg (firstn 50 (f :: fs))) (max_duration cfg) g)
    as [midi0 [g0 | e]] eqn:Em; cbn [bind] in H; [| discriminate H].
  injection H as <- <- <- <-.
  split; [reflexivity |]. split; [discriminate |]. split; [reflexivity | exact Em].
Qed.

Lemma py_max_of_sorted (f : Feature) (rest : list Feature) :
  (forall f', In f' rest -> score f' <= score f) ->
  py_max (map score (f :: rest)) == score f.
Proof.
  intros H. apply Qle_antisym.
  - assert (Hin : In (py_max (map score (f :: rest))) (map score (f :: rest)))
      by (apply py_max_In; discriminate).
    apply in_map_iff in Hin. destruct Hin as (f' & <- & [<- | Hf']).
    + apply Qle_refl.
    + apply H, Hf'.
  - apply py_max_ge. left. reflexivity.
Qed.

Lemma np_clip_range (x : float64) (lo hi d : Q) :
  lo <= hi -> np.clip x lo hi = Finite d -> lo <= d <= hi.
Proof.
  intros Hle H. destruct x as [q | | |]; cbn [np.clip] in H; try discriminate H;
    injection H as <-.
  - apply Qclip_range. exact Hle.
  - split; lra.
  - destruct (Qltb hi lo) eqn:E; [apply Qltb_lt in E; lra | split; lra].
Qed.

(** X10, [process_file]: when a file gets as far as the MIDI object, the
    melody has one event for each of the first fifty features, so fifty
    at most, and every one of them has a finite duration, which lies
    between 0.5 and [max_duration] when [max_duration] is 0.5 or more.
    The first event belongs to a feature of the largest score, which is
    not zero; it starts at 0.1 s and lasts [note_duration * 1.5], clipped
    to [0.5, max_duration]. *)
Theorem process_file_melody
  (cfg : Config) (rows : list (list float64)) (g g' : np.random.RandomState)
  (features : list Feature) (events : list Event) (midi : MIDIFile) :
  process_file cfg rows g = Ok (Written features events midi g') ->
  length events = Nat.min 50 (length features) /\
  Forall (fun e => exists d, duration e = Finite d /\
                             ((1 # 2) <= max_duration cfg -> (1 # 2) <= d <= max_duration cfg))
         events /\
  exists f fs e es d,
    features = f :: fs /\ events = e :: es /\
    (forall f', In f' fs -> score f' <= score f) /\
    ~ score f == 0 /\
    pitch e = np.clip_int (pitch_curve cfg (deviation f)) 0 127 /\
    time e == 1 # 10 /\
    duration e = Finite d /\
    d == Qclip (note_duration cfg * (3 # 2)) (1 # 2) (max_duration cfg).
Proof.
  intros H.
  destruct (process_file_Written _ _ _ _ _ _ _ H)
    as (angles & intensities & _ & _ & Hext & Hne & -> & Hmidi).
  destruct (create_midi_shape cfg (_generate_events cfg (firstn 50 features))
              (max_duration cfg) g) as (grace & _ & _ & _ & Hret).
  rewrite Hmidi in Hret. destruct (Hret g' eq_refl) as [_ Hfin]. clear Hret.
  split; [rewrite generate_events_length; apply length_firstn |].
  split.
  { apply Forall_forall. intros e He. rewrite Forall_forall in Hfin.
    destruct (Hfin e He) as (d & Hd). exists d. split; [exact Hd |].
    intros Hmax. apply generate_events_In in He. destruct He as (t & f & _ & ->).
    unfold event_of in Hd. cbn [duration] in Hd.
    apply (np_clip_range _ _ _ _ Hmax Hd). }
  destruct features as [| f fs]; [contradiction Hne; reflexivity |].
  pose proof (extract_features_descending _ _ _ Hext) as Hsorted.
  assert (Htop : forall f', In f' fs -> score f' <= score f).
  { inversion Hsorted as [| ? ? _ Hall]; subst. rewrite Forall_forall in Hall. exact Hall. }
  assert (Hmax : py_max (map score (firstn 50 (f :: fs))) == score f).
  { cbn [firstn]. apply py_max_of_sorted. intros f' Hf'.
    apply Htop. rewrite <- (firstn_skipn 49 fs). apply in_or_app. left. exact Hf'. }
  destruct (generate_events_nth cfg (firstn 50 (f :: fs)) 0 f eq_refl) as (t & Ht & He).
  assert (Hnz : ~ score f == 0).
  { intros Hz. rewrite Forall_forall in Hfin.
    destruct (Hfin _ (nth_error_In _ _ He)) as (d & Hd).
    unfold event_of in Hd. cbn [duration] in Hd. unfold true_divide in Hd.
    assert (E0 : Qeqb (py_max (map score (firstn 50 (f :: fs)))) 0 = true)
      by (apply Qeqb_eq; rewrite Hmax; exact Hz).
    assert (E1 : Qeqb (score f) 0 = true) by (apply Qeqb_eq; exact Hz).
    rewrite E0, E1 in Hd. discriminate Hd. }
  assert (Hnz' : ~ py_max (map score (firstn 50 (f :: fs))) == 0)
    by (rewrite Hmax; exact Hnz).
  clear Hfin H Hmidi.
  destruct (_generate_events cfg (firstn 50 (f :: fs))) as [| e es] eqn:Eev;
    [discriminate He |].
  cbn [nth_error] in He. injection He as ->.
  exists f, fs, (event_of cfg (firstn 50 (f :: fs)) t f), es.
  eexists.
  split; [reflexivity |]. split; [reflexivity |]. split; [exact Htop |].
  split; [exact Hnz |]. split; [reflexivity |]. split; [| split].
  - cbn [event_of time]. apply np_linspace_nth in Ht. destruct Ht as [H1 Hmany].
    destruct (Nat.eq_dec (length (firstn 50 (f :: fs))) 1) as [E1 | E1].
    + apply H1, E1.
    + assert (Hlen : (1 < length (firstn 50 (f :: fs)))%nat) by (cbn [firstn length] in *; lia).
      rewrite (Hmany Hlen). cbn [Z.of_nat inject_Z]. ring.
  - apply event_duration_finite. exact Hnz'.
  - apply Qclip_comp. rewrite Hmax. field. exact Hnz.
Qed.

Lemma process_file_melody_witness :
  exists features events midi g',
    process_file Config__init__ arch_rows some_state = Ok (Written features events midi g') /\
    length events = Nat.min 50 (length features) /\
    Forall (fun e => exists d, duration e = Finite d /\
                               ((1 # 2) <= max_duration Config__init__ ->
                                (1 # 2) <= d <= max_duration Config__init__))
           events.
Proof.
  destruct (process_file Config__init__ arch_rows some_state)
    as [[| a i | | features events midi g'] | e] eqn:E;
    try (vm_compute in E; discriminate E).
  exists features, events, midi, g'. split; [reflexivity |].
  destruct (process_file_melody Config__init__ arch_rows some_state g' features events midi E)
    as (H1 & H2 & _).
  split; [exact H1 | exact H2].
Defined.

Lemma np_linspace_range (start stop t : Q) (num : nat) :
  start <= stop -> In t (np.linspace start stop num) -> start <= t <= stop.
Proof.
  intros Hle Hin. apply In_nth_error in Hin. destruct Hin as (i & Hi).
  assert (Hlt : (i < num)%nat).
  { rewrite <- (np_linspace_length start stop num). apply nth_error_Some. congruence. }
  destruct (Nat.eq_dec num 1) as [-> | Hne].
  - destruct (np_linspace_nth _ _ _ _ _ Hi) as [H1 _]. rewrite (H1 eq_refl). lra.
  - assert (Hmany : (1 < num)%nat) by lia.
    destruct (nth_error (np.linspace start stop num) 0) as [t0 |] eqn:E0.
    2:{ apply nth_error_None in E0. rewrite np_linspace_length in E0. lia. }
    pose proof (np_linspace_last start stop num Hmany) as Hlast.
    destruct (np_linspace_nth _ _ _ _ _ E0) as [_ H0]. specialize (H0 Hmany).
    cbn [Z.of_nat inject_Z] in H0.
    assert (Ht0 : t0 == start) by (rewrite H0; ring).
    split.
    + rewrite <- Ht0. apply (np_linspace_monotone start stop num 0 i); try assumption. lia.
    + apply (np_linspace_monotone start stop num i (num - 1)); try assumption. lia.
Qed.

(** X12, [process_file] with [create_midi]: when [max_duration] is 0.1 or
    more, every note of the MIDI object that comes out of a file has a
    pitch and a velocity from 0 to 127, is on channel 0, and starts after
    time 0 and not after [max_duration]. *)
Theorem process_file_notes
  (cfg : Config) (rows : list (list float64)) (g g' : np.random.RandomState)
  (features : list Feature) (events : list Event) (midi : MIDIFile)
  (track channel p : Z) (t : Q) (dur : float64) (v : Z) :
  (1 # 10) <= max_duration cfg ->
  process_file cfg rows g = Ok (Written features events midi g') ->
  In (addNote track channel p t dur v) midi ->
  (0 <= p <= 127)%Z /\ (0 <= v <= 127)%Z /\ channel = 0%Z /\
  0 < t <= max_duration cfg.
Proof.
  intros Hmax H Hin.
  destruct (process_file_Written _ _ _ _ _ _ _ H)
    as (angles & intensities & _ & _ & _ & _ & -> & Hmidi).
  destruct (create_midi_shape cfg (_generate_events cfg (firstn 50 features))
              (max_duration cfg) g) as (grace & Hcount & Hgrace & _ & Hret).
  rewrite Hmidi in Hret. destruct (Hret g' eq_refl) as [Hshape _]. cbn [fst] in Hshape.
  rewrite Hshape in Hin. clear Hshape Hret Hmidi H.
  apply in_app_or in Hin. destruct Hin as [Hin | Hin].
  { apply in_flat_map in Hin. destruct Hin as (ip & _ & [Hin | [Hin | []]]); discriminate Hin. }
  apply in_app_or in Hin. destruct Hin as [Hin | Hin].
  { apply in_map_iff in Hin. destruct Hin as (e & E & He). injection E; intros; subst.
    destruct (generate_events_pitch_velocity cfg _ _ He) as [Hp Hv].
    split; [exact Hp |]. split; [exact Hv |]. split; [reflexivity |].
    unfold _generate_events in He. apply in_map_iff in He.
    destruct He as ([t' f] & <- & Htf). apply in_combine_l in Htf.
    cbn [event_of time fst].
    apply np_linspace_range in Htf; [| exact Hmax]. lra. }
  apply in_app_or in Hin. destruct Hin as [[Hin | []] | Hin]; [discriminate Hin |].
  apply in_app_or in Hin. destruct Hin as [Hin | Hin].
  - assert (Hsome : (1 <= length grace)%nat) by (destruct grace; [contradiction | simpl; lia]).
    rewrite Forall_forall in Hgrace.
    destruct (Hgrace _ Hin) as (p' & t' & v' & u & E & Hp & Hv & Hu & Ht).
    injection E; intros; subst.
    assert (Hd : 3 <= max_duration cfg).
    { destruct (Qlt_le_dec (max_duration cfg) 3) as [Hlt | Hge]; [| exact Hge].
      exfalso.
      assert (Hq : (py_int (max_duration cfg / 3) <= py_int (inject_Z 0))%Z).
      { destruct (Qlt_le_dec (max_duration cfg / 3) 0) as [Hn | Hn].
        - apply py_int_monotone. change (inject_Z 0) with 0. lra.
        - rewrite py_int_floor by exact Hn. rewrite py_int_inject_Z.
          assert (Qfloor (max_duration cfg / 3) < 1)%Z; [| lia].
          apply Qfloor_lt_inject. change (inject_Z 1) with 1.
          apply Qlt_shift_div_r; lra. }
      rewrite py_int_inject_Z in Hq. lia. }
    split; [destruct Hp as [<- | [<- | [<- | []]]]; lia |].
    split; [lia |]. split; [reflexivity |]. nra.
  - pose proof (pulses_spec (max_duration cfg)) as Hp. rewrite Forall_forall in Hp.
    destruct (Hp _ Hin) as (t' & k & E & Ht & Hlt).
    injection E; intros; subst.
    split; [lia |]. split; [lia |]. split; [reflexivity |].
    assert (0 <= inject_Z (Z.of_nat k)) by (change 0 with (inject_Z 0); rewrite <- Zle_Qle; lia).
    lra.
Qed.

Lemma process_file_notes_witness :
  exists features events midi g' c,
    (1 # 10) <= max_duration Config__init__ /\
    process_file Config__init__ arch_rows some_state = Ok (Written features events midi g') /\
    In c midi /\
    match c with
    | addNote _ channel p t _ v =>
        (0 <= p <= 127)%Z /\ (0 <= v <= 127)%Z /\ channel = 0%Z /\
        0 < t <= max_duration Config__init__
    | _ => False
    end.
Proof.
  assert (Hmax : (1 # 10) <= max_duration Config__init__) by (vm_compute; discriminate).
  destruct (process_file Config__init__ arch_rows some_state)
    as [[| a i | | features events midi g'] | e] eqn:E;
    try (vm_compute in E; discriminate E).
  destruct (rev midi) as [| c rest] eqn:Erev.
  { exfalso. apply (f_equal (@length midi_call)) in Erev. rewrite length_rev in Erev.
    vm_compute in E. injection E as _ _ <- _. discriminate Erev. }
  assert (Hin : In c midi) by (apply in_rev; rewrite Erev; left; reflexivity).
  destruct c as [| | track channel p t dur v |].
  4:{ exfalso. vm_compute in E. injection E as _ _ <- _. vm_compute in Erev. discriminate Erev. }
  1:{ exfalso. vm_compute in E. injection E as _ _ <- _. vm_compute in Erev. discriminate Erev. }
  1:{ exfalso. vm_compute in E. injection E as _ _ <- _. vm_compute in Erev. discriminate Erev. }
  exists features, events, midi, g', (addNote track channel p t dur v).
  split; [exact Hmax |]. split; [reflexivity |]. split; [exact Hin |].
  exact (process_file_notes Config__init__ arch_rows some_state g' features events midi
           track channel p t dur v Hmax E Hin).
Defined.

(** ** Pieces of less than three seconds *)

Lemma py_int_below_one (q : Q) : q < 1 -> (py_int q <= 0)%Z.
Proof.
  intros H. destruct (Qlt_le_dec q 0) as [Hn | Hn].
  - rewrite <- (py_int_inject_Z 0). apply py_int_monotone.
    change (inject_Z 0) with 0. lra.
  - rewrite py_int_floor by exact Hn.
    assert (Qfloor q < 1)%Z; [| lia].
    apply Qfloor_lt_inject. exact H.
Qed.

(** X13, [_add_ambient_effects]: for a duration below 3, negative ones
    included, there is no grace note and nothing is drawn from the
    generator: the reverb event and the pulses are all that is added, and
    up to a duration of 0.2 there is no pulse either. *)
Theorem ambient_of_short_piece (midi : MIDIFile) (d : Q) (g : np.random.RandomState) :
  d < 3 ->
  _add_ambient_effects midi d g
  = (midi ++ [addControllerEvent 2 0 0 91 60] ++ pulses d, g) /\
  (d <= 2 # 10 -> pulses d = []).
Proof.
  intros Hd. split.
  - rewrite add_ambient_effects_unfold.
    assert (Hcount : Z.to_nat (py_int (d / 3)) = 0%nat).
    { assert (py_int (d / 3) <= 0)%Z; [| lia].
      apply py_int_below_one. apply Qlt_shift_div_r; lra. }
    rewrite Hcount. cbn [grace_notes fst snd]. rewrite <- app_assoc. reflexivity.
  - intros Hsmall. unfold pulses, np.arange.
    assert (Hcount : Z.to_nat (Qceiling ((d - (2 # 10)) / 4)) = 0%nat).
    { assert (Qceiling ((d - (2 # 10)) / 4) <= Qceiling 0)%Z.
      { apply Qceiling_resp_le. apply Qle_shift_div_r; lra. }
      change (Qceiling 0) with 0%Z in *. lia. }
    rewrite Hcount. reflexivity.
Qed.

Lemma ambient_of_short_piece_witness :
  (5 # 2) < 3 /\
  _add_ambient_effects [] (5 # 2) some_state
  = ([] ++ [addControllerEvent 2 0 0 91 60] ++ pulses (5 # 2), some_state).
Proof.
  assert (H : (5 # 2) < 3) by reflexivity.
  split; [exact H |].
  exact (proj1 (ambient_of_short_piece [] (5 # 2) some_state H)).
Defined.

(** ** The pitches of the report *)

Lemma map_snd_combine {A B : Type} (l : list A) (l' : list B) :
  length l = length l' -> map snd (combine l l') = l'.
Proof.
  revert l'. induction l as [| a l IH]; intros [| b l'] H; try discriminate H; [reflexivity |].
  cbn [combine map snd]. f_equal. apply IH. simpl in H. lia.
Qed.

Lemma generate_events_pitches (cfg : Config) (features : list Feature) :
  map pitch (_generate_events cfg features)
  = map (fun p => np.clip_int p 0 127) (report_pitches cfg features).
Proof.
  unfold _generate_events, report_pitches. rewrite !map_map. cbn [event_of pitch].
  rewrite <- (map_snd_combine (np.linspace (1 # 10) (max_duration cfg) (length features))
                features) at 3
    by apply np_linspace_length.
  rewrite map_map. reflexivity.
Qed.

Lemma extract_features_deviation
  (angles intensities : list Q) (features : list Feature) (f : Feature) :
  _extract_features angles intensities = Ok features -> In f features ->
  deviation f = Qabs (angle f - 90).
Proof.
  intros H Hf.
  destruct (extract_features_inv _ _ _ H) as (smoothed & unsorted & _ & _ & Hm & ->).
  apply (Permutation_in _ (Permutation_sym (sorted_perm _ unsorted))) in Hf.
  destruct (mapM_In _ _ _ _ Hm Hf) as (idx & _ & Hat).
  destruct (feature_at_inv _ _ _ _ Hat) as (a & s & _ & _ & ->). reflexivity.
Qed.

(** X14, [generate_report] with [process_file]: the histogram of the
    report counts a pitch for every feature, also for those beyond the
    fiftieth, which are not played.  The pitches of the events are the
    first fifty of the report's pitches clipped to [0, 127]; with the
    pitch curve of the default configuration they are these pitches
    themselves as long as the angles of the first fifty features are not
    further than 380 from 90. *)
Theorem report_pitches_of_file
  (cfg : Config) (rows : list (list float64)) (g g' : np.random.RandomState)
  (features : list Feature) (events : list Event) (midi : MIDIFile) :
  process_file cfg rows g = Ok (Written features events midi g') ->
  length (report_pitches cfg features) = length features /\
  (length events <= length (report_pitches cfg features))%nat /\
  map pitch events
  = map (fun p => np.clip_int p 0 127) (firstn 50 (report_pitches cfg features)) /\
  (pitch_curve cfg = default_pitch_curve ->
   Forall (fun f => Qabs (angle f - 90) <= 380) (firstn 50 features) ->
   map pitch events = firstn 50 (report_pitches cfg features)).
Proof.
  intros H.
  destruct (process_file_Written _ _ _ _ _ _ _ H)
    as (angles & intensities & _ & _ & Hext & _ & -> & _).
  assert (Hlen : length (report_pitches cfg features) = length features)
    by apply length_map.
  split; [exact Hlen |]. split.
  { rewrite Hlen, generate_events_length, length_firstn. lia. }
  assert (Hp : map pitch (_generate_events cfg (firstn 50 features))
               = map (fun p => np.clip_int p 0 127) (firstn 50 (report_pitches cfg features))).
  { rewrite generate_events_pitches. unfold report_pitches. rewrite firstn_map. reflexivity. }
  split; [exact Hp |].
  intros Hcurve Hnear. rewrite Hp. unfold report_pitches. rewrite firstn_map, map_map.
  apply map_ext_in. intros f Hf. rewrite Hcurve.
  assert (Hin : In f features).
  { rewrite <- (firstn_skipn 50 features). apply in_or_app. left. exact Hf. }
  rewrite Forall_forall in Hnear. specialize (Hnear f Hf).
  rewrite <- (extract_features_deviation _ _ _ _ Hext Hin) in Hnear.
  assert (Hd : 0 <= deviation f).
  { rewrite (extract_features_deviation _ _ _ _ Hext Hin). apply Qabs_nonneg. }
  pose proof (sqrt_floor_lt (deviation f) 98 Hd ltac:(lia)) as H98.
  assert (E98 : inject_Z (98 * 98) / 25 == 9604 # 25) by reflexivity.
  rewrite E98 in H98.
  assert (Hlt : deviation f < 9604 # 25) by lra.
  apply H98 in Hlt.
  pose proof (Z.sqrt_nonneg (Qfloor (25 * deviation f))) as Hs.
  unfold default_pitch_curve, np.clip_int. lia.
Qed.

Lemma report_pitches_of_file_witness :
  exists features events midi g',
    process_file Config__init__ arch_rows some_state = Ok (Written features events midi g') /\
    map pitch events
    = map (fun p => np.clip_int p 0 127) (firstn 50 (report_pitches Config__init__ features)).
Proof.
  destruct (process_file Config__init__ arch_rows some_state)
    as [[| a i | | features events midi g'] | e] eqn:E;
    try (vm_compute in E; discriminate E).
  exists features, events, midi, g'. split; [reflexivity |].
  destruct (report_pitches_of_file Config__init__ arch_rows some_state g' features events midi E)
    as (_ & _ & H & _).
  exact H.
Defined.

(** ** The names of the files that are written *)

Lemma rfind_bounds (s : list ascii) (c : ascii) :
  (-1 <= rfind s c < Z.of_nat (length s))%Z.
Proof.
  induction s as [| a s IH]; cbn [rfind length]; [lia |].
  destruct (0 <=? rfind s c)%Z eqn:E; [lia |].
  destruct (Ascii.eqb a c); lia.
Qed.

Lemma rfind_absent (s : list ascii) (c : ascii) : ~ In c s -> rfind s c = (-1)%Z.
Proof.
  induction s as [| a s IH]; intros H; cbn [rfind]; [reflexivity |].
  rewrite IH by (intros Hc; apply H; right; exact Hc).
  cbn [Z.leb Z.compare]. destruct (Ascii.eqb_spec a c) as [-> | Hne]; [| reflexivity].
  exfalso. apply H. left. reflexivity.
Qed.

Lemma rfind_last (s t : list ascii) (c : ascii) :
  ~ In c t -> rfind (s ++ c :: t) c = Z.of_nat (length s).
Proof.
  intros H. induction s as [| a s IH].
  - cbn [app rfind length]. rewrite rfind_absent by exact H.
    cbn [Z.leb Z.compare]. rewrite Ascii.eqb_refl. reflexivity.
  - cbn [app rfind length]. rewrite IH.
    destruct (0 <=? Z.of_nat (length s))%Z eqn:E; lia.
Qed.

Lemma startswith_app (s prefix : list ascii) :
  startswith s prefix = true <-> exists rest, s = prefix ++ rest.
Proof.
  revert s. induction prefix as [| c prefix IH]; intros s; cbn [startswith].
  - split; [intros _; exists s; reflexivity | reflexivity].
  - destruct s as [| a s].
    + split; [discriminate | intros (rest & H); discriminate H].
    + rewrite andb_true_iff, IH. split.
      * intros [Hac (rest & ->)]. apply Ascii.eqb_eq in Hac. subst a.
        exists rest. reflexivity.
      * intros (rest & H). injection H as -> ->.
        split; [apply Ascii.eqb_refl | exists rest; reflexivity].
Qed.

Lemma endswith_app (s suffix : list ascii) :
  endswith s suffix = true <-> exists stem, s = stem ++ suffix.
Proof.
  unfold endswith. rewrite startswith_app. split.
  - intros (rest & H). exists (rev rest).
    rewrite <- (rev_involutive s), H, rev_app_distr, rev_involutive. reflexivity.
  - intros (stem & ->). exists (rev stem). apply rev_app_distr.
Qed.

Lemma endswith_last (s : list ascii) (a c : ascii) :
  endswith (s ++ [a]) [c] = Ascii.eqb a c.
Proof.
  unfold endswith. rewrite rev_app_distr. cbn [rev app startswith].
  destruct (rev s); apply andb_true_r.
Qed.

Lemma startswith_sep (b : list ascii) :
  startswith b (str "/") = match b with
                           | a :: _ => Ascii.eqb a "/"
                           | [] => false
                           end.
Proof.
  destruct b as [| a b]; [reflexivity |]. cbn [str list_ascii_of_string startswith].
  destruct b; apply andb_true_r.
Qed.

(** Joining one relative part to a directory: the directory, a separator
    where there is none yet, and the part. *)
Lemma join_relative (a b : list ascii) :
  startswith b (str "/") = false ->
  exists dir,
    os_path.join a [b] = dir ++ b /\
    (dir = [] \/ exists d, dir = d ++ str "/") /\
    (a <> [] -> endswith a (str "/") = false -> dir = a ++ str "/").
Proof.
  intros Hb. unfold os_path.join. cbn [fold_left]. rewrite Hb.
  destruct a as [| x a].
  - exists []. split; [reflexivity |]. split; [left; reflexivity |].
    intros H. contradiction H. reflexivity.
  - cbn [orb]. destruct (endswith (x :: a) (str "/")) eqn:E.
    + exists (x :: a). split; [reflexivity |]. split; [| discriminate].
      right. apply endswith_app in E. exact E.
    + exists ((x :: a) ++ str "/"). split; [rewrite <- app_assoc; reflexivity |].
      split; [right; exists (x :: a); reflexivity |]. reflexivity.
Qed.

Lemma basename_join (input_dir filename : list ascii) :
  ~ In "/"%char filename ->
  os_path.basename (os_path.join input_dir [filename]) = filename.
Proof.
  intros Hsep.
  assert (Hb : startswith filename (str "/") = false).
  { rewrite startswith_sep. destruct filename as [| a filename]; [reflexivity |].
    destruct (Ascii.eqb_spec a "/") as [-> | Hne]; [| reflexivity].
    exfalso. apply Hsep. left. reflexivity. }
  destruct (join_relative input_dir filename Hb) as (dir & -> & [-> | (d & ->)] & _);
    unfold os_path.basename.
  - cbn [app]. rewrite rfind_absent by exact Hsep. reflexivity.
  - cbn [str list_ascii_of_string]. rewrite <- app_assoc. cbn [app].
    rewrite rfind_last by exact Hsep.
    replace (Z.to_nat (Z.of_nat (length d) + 1)) with (length (d ++ ["/"%char]))
      by (rewrite length_app; simpl; lia).
    change (d ++ "/"%char :: filename) with (d ++ ["/"%char] ++ filename).
    rewrite app_assoc, skipn_app, skipn_all, Nat.sub_diag. reflexivity.
Qed.

Lemma splitext_txt (stem ext : list ascii) :
  ~ In "/"%char stem -> ~ In "/"%char ext -> ~ In "."%char ext ->
  existsb (fun c => negb (Ascii.eqb c ".")) stem = true ->
  os_path.splitext (stem ++ "."%char :: ext) = (stem, "."%char :: ext).
Proof.
  intros Hsep Hsep' Hdot Hname. unfold os_path.splitext.
  rewrite rfind_absent.
  2:{ intros Hin. apply in_app_or in Hin.
      destruct Hin as [Hin | [Hin | Hin]]; [tauto | discriminate Hin | tauto]. }
  rewrite rfind_last by exact Hdot.
  destruct (-1 <? Z.of_nat (length stem))%Z eqn:E; [| apply Z.ltb_ge in E; lia].
  replace (Z.to_nat (Z.of_nat (length stem) - (-1 + 1))) with (length stem) by lia.
  change (Z.to_nat (-1 + 1)) with 0%nat. cbn [skipn].
  rewrite Nat2Z.id.
  rewrite firstn_app, firstn_all, Nat.sub_diag. cbn [firstn]. rewrite app_nil_r.
  rewrite Hname.
  rewrite skipn_app, skipn_all, Nat.sub_diag. reflexivity.
Qed.

Lemma output_name_txt (input_dir stem : list ascii) :
  ~ In "/"%char stem ->
  existsb (fun c => negb (Ascii.eqb c ".")) stem = true ->
  output_name (os_path.join input_dir [stem ++ str ".txt"]) = stem.
Proof.
  intros Hsep Hname. unfold output_name.
  rewrite basename_join.
  - cbn [str list_ascii_of_string]. rewrite splitext_txt; try assumption; try reflexivity.
    + intros [H | [H | [H | []]]]; discriminate H.
    + intros [H | [H | [H | []]]]; discriminate H.
  - intros Hin. apply in_app_or in Hin. destruct Hin as [Hin | Hin]; [tauto |].
    cbn in Hin. destruct Hin as [H | [H | [H | [H | []]]]]; discriminate H.
Qed.

Lemma join_two (output_dir sub leaf : list ascii) (last : ascii) :
  last <> "/"%char ->
  startswith (sub ++ [last]) (str "/") = false -> startswith leaf (str "/") = false ->
  os_path.join output_dir [sub ++ [last]; leaf]
  = os_path.join output_dir [sub ++ [last]] ++ str "/" ++ leaf.
Proof.
  intros Hlast Hsub Hleaf.
  destruct (join_relative output_dir (sub ++ [last]) Hsub) as (dir & Hj & _).
  unfold os_path.join in *. cbn [fold_left] in *. rewrite Hj, Hleaf.
  replace (dir ++ sub ++ [last]) with ((dir ++ sub) ++ [last])
    by (rewrite app_assoc; reflexivity).
  change (str "/") with ["/"%char]. rewrite endswith_last.
  destruct (Ascii.eqb_spec last "/") as [-> | _]; [contradiction Hlast; reflexivity |].
  destruct (dir ++ sub); reflexivity.
Qed.

Lemma startswith_leaf (stem ext : list ascii) :
  ~ In "/"%char stem -> startswith ext (str "/") = false ->
  startswith (stem ++ ext) (str "/") = false.
Proof.
  intros Hsep Hext. destruct stem as [| a stem]; [exact Hext |].
  rewrite startswith_sep. cbn [app].
  destruct (Ascii.eqb_spec a "/") as [-> | Hne]; [| reflexivity].
  exfalso. apply Hsep. left. reflexivity.
Qed.

Lemma midi_path_eq (output_dir filename : list ascii) :
  ~ In "/"%char filename ->
  midi_path output_dir filename
  = os_path.join output_dir [str "Audio"] ++ str "/" ++ filename ++ str ".mid".
Proof.
  intros Hsep. unfold midi_path.
  apply (join_two output_dir (str "Audi") (filename ++ str ".mid") "o").
  - discriminate.
  - reflexivity.
  - apply startswith_leaf; [exact Hsep | reflexivity].
Qed.

Lemma report_path_eq (output_dir filename : list ascii) :
  ~ In "/"%char filename ->
  report_path output_dir filename
  = os_path.join output_dir [str "Report"] ++ str "/" ++ filename ++ str ".png".
Proof.
  intros Hsep. unfold report_path.
  apply (join_two output_dir (str "Repor") (filename ++ str ".png") "t").
  - discriminate.
  - reflexivity.
  - apply startswith_leaf; [exact Hsep | reflexivity].
Qed.

(** X15, [process_files], [process_file], [create_midi] and
    [generate_report]: a file [stem.txt] of the input directory, where
    [stem] holds no separator and at least one character that is not a
    dot, is processed, and its outputs are filed under [stem] in the two
    directories that [_setup_directories] makes: the MIDI file is
    [stem.mid] in the first and the report [stem.png] in the second,
    which are [Audio] and [Report] in the output directory. *)
Theorem outputs_are_named_after_the_input (input_dir output_dir stem : list ascii) :
  ~ In "/"%char stem ->
  existsb (fun c => negb (Ascii.eqb c ".")) stem = true ->
  exists file_path audio report,
    data_file input_dir (stem ++ str ".txt") = Some file_path /\
    output_name file_path = stem /\
    _setup_directories output_dir = [audio; report] /\
    midi_path output_dir (output_name file_path) = audio ++ str "/" ++ stem ++ str ".mid" /\
    report_path output_dir (output_name file_path) = report ++ str "/" ++ stem ++ str ".png" /\
    (output_dir <> [] -> endswith output_dir (str "/") = false ->
     audio = output_dir ++ str "/Audio" /\ report = output_dir ++ str "/Report").
Proof.
  intros Hsep Hname. unfold data_file.
  assert (Hends : endswith (stem ++ str ".txt") (str ".txt") = true)
    by (apply endswith_app; exists stem; reflexivity).
  rewrite Hends. eexists. eexists. eexists. split; [reflexivity |].
  rewrite output_name_txt by assumption.
  split; [reflexivity |]. split; [reflexivity |].
  rewrite midi_path_eq, report_path_eq by exact Hsep.
  split; [reflexivity |]. split; [reflexivity |].
  intros Hdir Hend.
  destruct (join_relative output_dir (str "Audio") eq_refl) as (dir & -> & _ & Hd).
  destruct (join_relative output_dir (str "Report") eq_refl) as (dir' & -> & _ & Hd').
  rewrite (Hd Hdir Hend), (Hd' Hdir Hend). rewrite <- !app_assoc. split; reflexivity.
Qed.

Lemma outputs_are_named_after_the_input_witness :
  ~ In "/"%char (str "quartz") /\
  existsb (fun c => negb (Ascii.eqb c ".")) (str "quartz") = true /\
  exists file_path,
    data_file (str "XRD_Data") (str "quartz.txt") = Some file_path /\
    output_name file_path = str "quartz" /\
    midi_path (str "XRay_Music") (output_name file_path) = str "XRay_Music/Audio/quartz.mid".
Proof.
  assert (Hsep : ~ In "/"%char (str "quartz")).
  { intros H. cbn in H. repeat (destruct H as [H | H]; [discriminate H |]). exact H. }
  assert (Hname : existsb (fun c => negb (Ascii.eqb c ".")) (str "quartz") = true)
    by reflexivity.
  split; [exact Hsep |]. split; [exact Hname |].
  destruct (outputs_are_named_after_the_input (str "XRD_Data") (str "XRay_Music")
              (str "quartz") Hsep Hname)
    as (file_path & audio & report & H1 & H2 & H3 & H4 & _ & H6).
  exists file_path. split; [exact H1 |]. split; [exact H2 |].
  rewrite H4. destruct (H6 ltac:(discriminate) eq_refl) as [-> _]. reflexivity.
Defined.

Lemma data_file_stem (input_dir filename file_path : list ascii) :
  ~ In "/"%char filename -> startswith filename (str ".") = false ->
  data_file input_dir filename = Some file_path ->
  exists stem,
    filename = stem ++ str ".txt" /\ ~ In "/"%char stem /\
    output_name file_path = stem.
Proof.
  intros Hsep Hdot H. unfold data_file in H.
  destruct (endswith filename (str ".txt")) eqn:E; [| discriminate H].
  injection H as <-. apply endswith_app in E. destruct E as (stem & ->).
  assert (Hsep' : ~ In "/"%char stem)
    by (intros Hin; apply Hsep, in_or_app; left; exact Hin).
  exists stem. split; [reflexivity |]. split; [exact Hsep' |].
  apply output_name_txt; [exact Hsep' |].
  destruct stem as [| a stem]; [discriminate Hdot |].
  cbn [app str list_ascii_of_string startswith] in Hdot. cbn [existsb].
  destruct (Ascii.eqb a "."); [discriminate Hdot | reflexivity].
Qed.

(** X16, [process_files] with [create_midi] and [generate_report]: two
    different names of the input directory that end in [".txt"] and do
    not begin with a dot never share an output: their MIDI files differ
    and their reports differ.  (Names that begin with a dot can collide:
    [".txt"] and [".txt.txt"] are both filed under [".txt"].) *)
Theorem outputs_do_not_collide
  (input_dir output_dir name1 name2 path1 path2 : list ascii) :
  ~ In "/"%char name1 -> ~ In "/"%char name2 ->
  startswith name1 (str ".") = false -> startswith name2 (str ".") = false ->
  data_file input_dir name1 = Some path1 -> data_file input_dir name2 = Some path2 ->
  name1 <> name2 ->
  midi_path output_dir (output_name path1) <> midi_path output_dir (output_name path2) /\
  report_path output_dir (output_name path1) <> report_path output_dir (output_name path2).
Proof.
  intros Hsep1 Hsep2 Hdot1 Hdot2 H1 H2 Hne.
  destruct (data_file_stem _ _ _ Hsep1 Hdot1 H1) as (stem1 & -> & Hs1 & ->).
  destruct (data_file_stem _ _ _ Hsep2 Hdot2 H2) as (stem2 & -> & Hs2 & ->).
  rewrite !midi_path_eq, !report_path_eq by assumption.
  split; intros E; apply Hne; f_equal.
  - apply app_inv_head, app_inv_head in E. apply app_inv_tail in E. exact E.
  - apply app_inv_head, app_inv_head in E. apply app_inv_tail in E. exact E.
Qed.

Lemma outputs_do_not_collide_witness :
  exists path1 path2,
    ~ In "/"%char (str "quartz.txt") /\ ~ In "/"%char (str "quartz.2.txt") /\
    startswith (str "quartz.txt") (str ".") = false /\
    startswith (str "quartz.2.txt") (str ".") = false /\
    data_file (str "XRD_Data") (str "quartz.txt") = Some path1 /\
    data_file (str "XRD_Data") (str "quartz.2.txt") = Some path2 /\
    str "quartz.txt" <> str "quartz.2.txt" /\
    midi_path (str "XRay_Music") (output_name path1)
    <> midi_path (str "XRay_Music") (output_name path2).
Proof.
  assert (Hsep1 : ~ In "/"%char (str "quartz.txt")).
  { intros H. cbn in H. repeat (destruct H as [H | H]; [discriminate H |]). exact H. }
  assert (Hsep2 : ~ In "/"%char (str "quartz.2.txt")).
  { intros H. cbn in H. repeat (destruct H as [H | H]; [discriminate H |]). exact H. }
  assert (Hne : str "quartz.txt" <> str "quartz.2.txt") by discriminate.
  eexists. eexists.
  split; [exact Hsep1 |]. split; [exact Hsep2 |].
  split; [reflexivity |]. split; [reflexivity |].
  split; [reflexivity |]. split; [reflexivity |]. split; [exact Hne |].
  exact (proj1 (outputs_do_not_collide (str "XRD_Data") (str "XRay_Music")
                  (str "quartz.txt") (str "quartz.2.txt") _ _
                  Hsep1 Hsep2 eq_refl eq_refl eq_refl eq_refl Hne)).
Defined.

(** Two names that begin with a dot and are filed under one name. *)
Example hidden_files_collide :
  data_file (str "XRD_Data") (str ".txt") = Some (str "XRD_Data/.txt") /\
  data_file (str "XRD_Data") (str ".txt.txt") = Some (str "XRD_Data/.txt.txt") /\
  midi_path (str "XRay_Music") (output_name (str "XRD_Data/.txt"))
  = str "XRay_Music/Audio/.txt.mid" /\
  midi_path (str "XRay_Music") (output_name (str "XRD_Data/.txt.txt"))
  = str "XRay_Music/Audio/.txt.mid".
Proof. repeat split. Qed.

Example os_path_on_samples :
  os_path.join (str "out/") [str "Audio"; str "a.mid"] = str "out/Audio/a.mid" /\
  os_path.join (str "out") [str "Audio"; str "/a.mid"] = str "/a.mid" /\
  os_path.join [] [str "Audio"; str "a.mid"] = str "Audio/a.mid" /\
  os_path.basename (str "XRD_Data/x/y.txt") = str "y.txt" /\
  os_path.splitext (str "a.b.txt") = (str "a.b", str ".txt") /\
  os_path.splitext (str "..txt") = (str "..txt", []) /\
  os_path.splitext (str "dir.d/file") = (str "dir.d/file", []) /\
  os_path.splitext (str "a..b") = (str "a.", str ".b") /\
  endswith (str "txt") (str ".txt") = false.
Proof. repeat split. Qed.
